(** * parser_edts: lexer, recursive-descent parser and decorating evaluator

    A shallow embedding of [parser_edts.py] and the properties of its
    pipeline text -> tokens -> AST -> decorated AST.

    Conventions of the embedding.
    - Python [str] is [string]: the texts whose code points are all
      below 256, an [ascii] being one code point (ISO 8859-1). The
      classes [\d] and [\w] of the regular expressions are read as
      Python reads them on a [str] pattern, that is on Unicode: below
      256, [\d] is the ASCII digits and [\w] is the ASCII letters,
      digits and [_] together with the Latin-1 letters and numerals.
    - The interpreter is CPython 3.11 with its defaults: [int] of a
      text of more than [sys.int_max_str_digits], 4300, digits raises
      [ValueError].
    - Python numbers are [value]s: unbounded [int] is [Z], [float] is an
      IEEE-754 binary64 datum ([spec_float] with precision 53 and
      exponent bound 1024), [None] is [VNone].
    - A [raise] is the [Raise] outcome of [result]; each [raise] site of
      the source has its own constructor of [exn], carrying the data the
      message interpolates.
    - Mutation of [node.val] is explicit: [eval] returns the tree after
      the pass together with the ordered log of the slot writes. The
      parser gives every node one parent, so the objects of an AST are
      the nodes of a tree and a slot per tree node is the heap.
    - A generator is the list of the events it has still to produce.
    - The recursion of the parser runs on fuel, and [parse] takes enough
      of it (lemma [parse_not_fuel]); the recursion limit of the Python
      interpreter is not modelled. *)

From Stdlib Require Import ZArith Bool Ascii String List Lia.
From Stdlib Require Import Floats.SpecFloat.
From stdpp Require Import gmap strings.
Import ListNotations.

Local Open Scope string_scope.
Local Open Scope Z_scope.

(** ** Tokens *)

(** The values [Token.type] takes: the group names of [TOKEN_SPEC] that
    [_tokenize] yields, and ["EOF"]. *)
Inductive token_type : Type :=
| NUMBER | ID | PLUS | MINUS | MUL | DIV | LPAREN | RPAREN | EOF.

Definition token_type_eqb (a b : token_type) : bool :=
  match a, b with
  | NUMBER, NUMBER | ID, ID | PLUS, PLUS | MINUS, MINUS | MUL, MUL
  | DIV, DIV | LPAREN, LPAREN | RPAREN, RPAREN | EOF, EOF => true
  | _, _ => false
  end.

Record Token : Type := mkToken { type : token_type; lexeme : string }.

(** ** Exceptions and outcomes *)

Inductive exn : Type :=
| SyntaxError_caracter_invalido (value : string)
    (* Lexer._tokenize: "Caracter inválido: {value!r}" *)
| SyntaxError_se_esperaba (expected : token_type) (encontrado : Token)
    (* Parser.eat: "Se esperaba {token_type}, encontrado {lookahead}" *)
| SyntaxError_token_extra (encontrado : Token)
    (* Parser.parse: "Token extra al final: {lookahead}" *)
| SyntaxError_factor_inesperado (encontrado : Token)
    (* Parser.factor: "Factor inesperado: {lookahead}" *)
| NameError (name : string)
    (* Evaluator.eval: "Identificador no definido: {name}" *)
| ZeroDivisionError_detectada
    (* Evaluator.eval: "División por cero detectada en la evaluación" *)
| ZeroDivisionError_builtin
    (* raised by Python's own [/] on a zero divisor *)
| ValueError_operador (op : string)
    (* Evaluator.eval: "Operador desconocido: {op}" *)
| ValueError_literal (text : string)
    (* int(text) / float(text) on a text that is not a number *)
| ValueError_int_digits (digits : nat)
    (* int(text) on more digits than sys.int_max_str_digits:
       "Exceeds the limit (4300 digits) for integer string conversion:
       value has {digits} digits" *)
| TypeError_operando (op : string)
    (* an arithmetic operator applied to None *)
| OverflowError
    (* int too large for a float, or quotient too large for a float *)
| StopIteration.
    (* next() on a finished generator *)

(** The Python exception class of each raise site. *)
Inductive exn_class : Type :=
| SyntaxError | NameError_ | ZeroDivisionError | ValueError | TypeError
| OverflowError_ | StopIteration_.

Definition class_of (e : exn) : exn_class :=
  match e with
  | SyntaxError_caracter_invalido _ | SyntaxError_se_esperaba _ _
  | SyntaxError_token_extra _ | SyntaxError_factor_inesperado _ => SyntaxError
  | NameError _ => NameError_
  | ZeroDivisionError_detectada | ZeroDivisionError_builtin => ZeroDivisionError
  | ValueError_operador _ | ValueError_literal _ | ValueError_int_digits _ => ValueError
  | TypeError_operando _ => TypeError
  | OverflowError => OverflowError_
  | StopIteration => StopIteration_
  end.

(** [OutOfFuel] is not a Python outcome: it marks a fuelled recursion of
    the model that was cut short. *)
Inductive result (A : Type) : Type :=
| Return (a : A)
| Raise (e : exn)
| OutOfFuel.
Arguments Return {A} a.
Arguments Raise {A} e.
Arguments OutOfFuel {A}.

Definition bind {A B : Type} (r : result A) (k : A -> result B) : result B :=
  match r with
  | Return a => k a
  | Raise e => Raise e
  | OutOfFuel => OutOfFuel
  end.

Notation "'let*' x ':=' c1 'in' c2" := (bind c1 (fun x => c2))
  (at level 10, x pattern, c1 at level 100, c2 at level 200).

(** ** Lexer *)

Definition is_digit (c : ascii) : bool :=
  (("0" <=? c) && (c <=? "9"))%char.

Definition is_id_start (c : ascii) : bool :=
  ((("a" <=? c) && (c <=? "z")) || (("A" <=? c) && (c <=? "Z")) || (c =? "_"))%char.

(** The characters from 128 to 255 that [\w] matches, those of which
    [str.isalnum] is true: the Latin-1 letters (170, 181, 186, 192 to
    214, 216 to 246, 248 to 255) and numerals (178, 179, 185, 188 to
    190). The signs 215 and 247 are not among them. *)
Definition is_latin1_word (c : ascii) : bool :=
  ((c =? "170") || (c =? "178") || (c =? "179") || (c =? "181") || (c =? "185") ||
   (c =? "186") || (c =? "188") || (c =? "189") || (c =? "190") ||
   (("192" <=? c) && (c <=? "214")) || (("216" <=? c) && (c <=? "246")) ||
   ("248" <=? c))%char.

(** [\w] *)
Definition is_word (c : ascii) : bool := is_id_start c || is_digit c || is_latin1_word c.

Definition is_blank (c : ascii) : bool := ((c =? " ") || (c =? "009"))%char.

Definition is_newline (c : ascii) : bool := (c =? "010")%char.

(** End of the longest run of characters of a class: what a greedy
    [c*] leaves unread. *)
Fixpoint skip (cls : ascii -> bool) (s : string) : string :=
  match s with
  | String c s' => if cls c then skip cls s' else s
  | EmptyString => s
  end.

(** What [(\.\d+)?] leaves unread: the group is taken only when a point
    is followed by at least one digit. *)
Definition skip_fraction (s : string) : string :=
  match s with
  | String c s1 =>
      if (c =? ".")%char then
        match s1 with
        | String d s2 => if is_digit d then skip is_digit s2 else s
        | EmptyString => s
        end
      else s
  | EmptyString => s
  end.

(** [mo.group()]: the slice of the text from the start of the match to
    its end, [rest] being what follows the match. *)
Definition group (s rest : string) : string :=
  substring 0 (String.length s - String.length rest) s.

(** What a generator does when resumed: yield a token or raise. *)
Inductive gen_event : Type :=
| Yield (t : Token)
| Throw (e : exn).

(** [Lexer._tokenize]: the events the generator produces, in order.
    At each position the alternatives of [TOK_REGEX] are tried in the
    order of [TOKEN_SPEC]; [MISMATCH] is [.], which matches any character
    but a line feed, so at a line feed no alternative matches and
    [re.finditer] resumes the search one character further. *)
Fixpoint _tokenize (s : string) : list gen_event :=
  match s with
  | EmptyString => [Yield (mkToken EOF "")]
  | String c s' =>
      if is_digit c then
        let rest := skip_fraction (skip is_digit s') in
        Yield (mkToken NUMBER (group s rest)) :: _tokenize rest
      else if is_id_start c then
        let rest := skip is_word s' in
        Yield (mkToken ID (group s rest)) :: _tokenize rest
      else if (c =? "+")%char then Yield (mkToken PLUS (group s s')) :: _tokenize s'
      else if (c =? "-")%char then Yield (mkToken MINUS (group s s')) :: _tokenize s'
      else if (c =? "*")%char then Yield (mkToken MUL (group s s')) :: _tokenize s'
      else if (c =? "/")%char then Yield (mkToken DIV (group s s')) :: _tokenize s'
      else if (c =? "(")%char then Yield (mkToken LPAREN (group s s')) :: _tokenize s'
      else if (c =? ")")%char then Yield (mkToken RPAREN (group s s')) :: _tokenize s'
      else if is_blank c then _tokenize (skip is_blank s')
      else if is_newline c then _tokenize s'
      else [Throw (SyntaxError_caracter_invalido (group s s'))]
  end.

(** [Lexer]: the text and the generator, a generator being the events
    it has not produced yet. *)
Record Lexer : Type := mkLexer { text : string; gen : list gen_event }.

Definition Lexer_init (text : string) : Lexer :=
  {| text := text; gen := _tokenize text |}.

(** [Lexer.next]: resume the generator. After a [raise], and after the
    [EOF] token, the generator is finished. *)
Definition Lexer_next (l : Lexer) : result (Token * Lexer) :=
  match gen l with
  | Yield t :: g => Return (t, {| text := text l; gen := g |})
  | Throw e :: _ => Raise e
  | [] => Raise StopIteration
  end.

(** ** Python numbers *)

Definition prec : Z := 53.
Definition emax : Z := 1024.

(** The objects that reach the evaluator: [int], [float] and [None]
    ([Symbol.valor] and [ASTNode.val] both default to [None]). *)
Inductive value : Type :=
| VNone
| VInt (z : Z)
| VFloat (f : spec_float).

(** An integer as an exact, unrounded binary datum. *)
Definition exact_of_Z (z : Z) : spec_float :=
  match z with
  | Z0 => S754_zero false
  | Zpos m => S754_finite false m 0
  | Zneg m => S754_finite true m 0
  end.

(** A rounded datum that fell out of the binary64 range: Python raises
    [OverflowError] where an [int] is involved. *)
Definition finite_or_overflow (f : spec_float) : result spec_float :=
  match f with
  | S754_infinity _ => Raise OverflowError
  | _ => Return f
  end.

(** [int] to [float] (round to nearest, ties to even). *)
Definition float_of_int (z : Z) : result spec_float :=
  finite_or_overflow (binary_normalize prec emax z 0 false).

(** The operand of a [float] operation. *)
Definition as_float (op : string) (v : value) : result spec_float :=
  match v with
  | VFloat f => Return f
  | VInt z => float_of_int z
  | VNone => Raise (TypeError_operando op)
  end.

(** [x == 0]: true for the integer zero and for both float zeros. *)
Definition py_eq_zero (v : value) : bool :=
  match v with
  | VInt z => z =? 0
  | VFloat (S754_zero _) => true
  | _ => false
  end.

(** [l + r], [l - r], [l * r]: exact on two [int]s, binary64 as soon as
    one operand is a [float]. *)
Definition py_arith (op : string) (fz : Z -> Z -> Z)
    (ff : spec_float -> spec_float -> spec_float) (l r : value) : result value :=
  match l, r with
  | VInt a, VInt b => Return (VInt (fz a b))
  | VNone, _ | _, VNone => Raise (TypeError_operando op)
  | _, _ =>
      let* a := as_float op l in
      let* b := as_float op r in
      Return (VFloat (ff a b))
  end.

Definition py_add : value -> value -> result value :=
  py_arith "+" Z.add (SFadd prec emax).
Definition py_sub : value -> value -> result value :=
  py_arith "-" Z.sub (SFsub prec emax).
Definition py_mul : value -> value -> result value :=
  py_arith "*" Z.mul (SFmul prec emax).

(** [l / r], true division: the correctly rounded quotient, always a
    [float]. Two [int]s are divided exactly and rounded once. *)
Definition py_truediv (l r : value) : result value :=
  match l, r with
  | VNone, _ | _, VNone => Raise (TypeError_operando "/")
  | VInt a, VInt b =>
      if b =? 0 then Raise ZeroDivisionError_builtin
      else
        let* q := finite_or_overflow (SFdiv prec emax (exact_of_Z a) (exact_of_Z b)) in
        Return (VFloat q)
  | _, _ =>
      let* a := as_float "/" l in
      let* b := as_float "/" r in
      if py_eq_zero (VFloat b) then Raise ZeroDivisionError_builtin
      else Return (VFloat (SFdiv prec emax a b))
  end.

(** What true division of two positive integers owes: [f] is a
    positive binary64 datum with a mantissa of 53 bits, [m * 2^e], that
    lies within half a unit of its last place of the fraction [a / b]:
    [2 * |m * 2^e * b - a| <= 2^e * b]. *)
Definition nearest_quotient (a b : Z) (f : spec_float) : bool :=
  match f with
  | S754_finite false m e =>
      (Zpos (digits2_pos m) =? prec) &&
      (if e <? 0 then 2 * Z.abs (Zpos m * b - a * 2 ^ (- e)) <=? b
       else 2 * Z.abs (Zpos m * 2 ^ e * b - a) <=? 2 ^ e * b)
  | _ => false
  end.

(** [a / b] returns a [float], the nearest to the fraction. *)
Definition divides_to_nearest (a b : Z) : bool :=
  match py_truediv (VInt a) (VInt b) with
  | Return (VFloat f) => nearest_quotient a b f
  | _ => false
  end.

(** *** Literals *)

Definition digit_value (c : ascii) : Z := Z.of_nat (nat_of_ascii c) - 48.

(** The number a run of decimal digits writes, [acc] being the number
    written so far; [None] at the first character that is not a digit. *)
Fixpoint decimal (acc : Z) (s : string) : option Z :=
  match s with
  | EmptyString => Some acc
  | String c s' =>
      if is_digit c then decimal (10 * acc + digit_value c) s' else None
  end.

(** ['.' in number_text] *)
Fixpoint has_point (s : string) : bool :=
  match s with
  | EmptyString => false
  | String c s' => (c =? ".")%char || has_point s'
  end.

(** The text before the first point, and the text after it. *)
Fixpoint before_point (s : string) : string :=
  match s with
  | EmptyString => EmptyString
  | String c s' => if (c =? ".")%char then EmptyString else String c (before_point s')
  end.

Fixpoint after_point (s : string) : string :=
  match s with
  | EmptyString => EmptyString
  | String c s' => if (c =? ".")%char then s' else after_point s'
  end.

(** [c * n]: the text of [n] times the character [c]. *)
Fixpoint repeat_char (n : nat) (c : ascii) : string :=
  match n with
  | O => EmptyString
  | S n' => String c (repeat_char n' c)
  end.

(** [sys.int_max_str_digits], as it is by default. *)
Definition int_max_str_digits : nat := 4300.

(** [int(text)] on a run of digits: the number the digits write, unless
    there are more than [int_max_str_digits] of them, leading zeros
    counted. The other spellings [int] accepts (sign, blanks,
    underscores) never come out of the lexer; they are outside the model
    and are reported as [ValueError]. *)
Definition py_int (text : string) : result Z :=
  match text, decimal 0 text with
  | String _ _, Some z =>
      if (int_max_str_digits <? String.length text)%nat
      then Raise (ValueError_int_digits (String.length text))
      else Return z
  | _, _ => Raise (ValueError_literal text)
  end.

(** [float(text)] on digits with one point: the decimal fraction
    [digits / 10^k], [k] the number of digits after the point, rounded
    once to binary64. Exponents, signs, [inf] and [nan] never come out
    of the lexer; they are outside the model and are reported as
    [ValueError]. *)
Definition py_float (text : string) : result spec_float :=
  let i := before_point text in
  let f := after_point text in
  match i ++ f, decimal 0 (i ++ f) with
  | String _ _, Some n =>
      Return (SFdiv prec emax (exact_of_Z n) (exact_of_Z (10 ^ Z.of_nat (String.length f))))
  | _, _ => Raise (ValueError_literal text)
  end.

(** ** AST *)

(** Every node has the slot [val] of [ASTNode.__init__]; a [NumberNode]
    keeps the text of its literal, an [IdNode] its name, a [BinOpNode]
    the lexeme of its operator and its two children. *)
Inductive ASTNode : Type :=
| NumberNode (number_text : string) (val : value)
| IdNode (name : string) (val : value)
| BinOpNode (op : string) (left right : ASTNode) (val : value).

Definition val (node : ASTNode) : value :=
  match node with
  | NumberNode _ v | IdNode _ v | BinOpNode _ _ _ v => v
  end.

(** [NumberNode(number_text)]: the slot is filled by the constructor. *)
Definition NumberNode_init (number_text : string) : result ASTNode :=
  if has_point number_text then
    let* f := py_float number_text in Return (NumberNode number_text (VFloat f))
  else
    let* z := py_int number_text in Return (NumberNode number_text (VInt z)).

Definition IdNode_init (name : string) : ASTNode := IdNode name VNone.

Definition BinOpNode_init (op : string) (left right : ASTNode) : ASTNode :=
  BinOpNode op left right VNone.

(** ** Symbol table *)

Record Symbol : Type := mkSymbol { name : string; tipo : string; valor : value }.

Record SymbolTable : Type := mkSymbolTable { table : gmap string Symbol }.

Definition SymbolTable_init : SymbolTable := {| table := ∅ |}.

Definition add (st : SymbolTable) (name tipo : string) (valor : value) : SymbolTable :=
  {| table := <[name := mkSymbol name tipo valor]> (table st) |}.

Definition get (st : SymbolTable) (name : string) : option Symbol :=
  table st !! name.

(** ** Parser *)

Record Parser : Type := mkParser { lexer : Lexer; lookahead : Token }.

Definition Parser_init (lexer : Lexer) : result Parser :=
  let* (t, l) := Lexer_next lexer in Return {| lexer := l; lookahead := t |}.

Definition eat (p : Parser) (token_type : token_type) : result Parser :=
  if token_type_eqb (type (lookahead p)) token_type then
    let* (t, l) := Lexer_next (lexer p) in Return {| lexer := l; lookahead := t |}
  else Raise (SyntaxError_se_esperaba token_type (lookahead p)).

(** The three grammar procedures and the two [while] loops. Each call
    and each loop iteration spends one unit of fuel. *)
Fixpoint expr (fuel : nat) (p : Parser) : result (ASTNode * Parser) :=
  match fuel with
  | O => OutOfFuel
  | S fuel =>
      let* (node, p) := term fuel p in
      expr_loop fuel node p
  end
with expr_loop (fuel : nat) (node : ASTNode) (p : Parser) : result (ASTNode * Parser) :=
  match fuel with
  | O => OutOfFuel
  | S fuel =>
      match type (lookahead p) with
      | PLUS | MINUS =>
          let op := lexeme (lookahead p) in
          let* p := (if token_type_eqb (type (lookahead p)) PLUS
                then eat p PLUS else eat p MINUS) in
          let* (right_node, p) := term fuel p in
          expr_loop fuel (BinOpNode_init op node right_node) p
      | _ => Return (node, p)
      end
  end
with term (fuel : nat) (p : Parser) : result (ASTNode * Parser) :=
  match fuel with
  | O => OutOfFuel
  | S fuel =>
      let* (node, p) := factor fuel p in
      term_loop fuel node p
  end
with term_loop (fuel : nat) (node : ASTNode) (p : Parser) : result (ASTNode * Parser) :=
  match fuel with
  | O => OutOfFuel
  | S fuel =>
      match type (lookahead p) with
      | MUL | DIV =>
          let op := lexeme (lookahead p) in
          let* p := (if token_type_eqb (type (lookahead p)) MUL
                then eat p MUL else eat p DIV) in
          let* (right_node, p) := factor fuel p in
          term_loop fuel (BinOpNode_init op node right_node) p
      | _ => Return (node, p)
      end
  end
with factor (fuel : nat) (p : Parser) : result (ASTNode * Parser) :=
  match fuel with
  | O => OutOfFuel
  | S fuel =>
      match type (lookahead p) with
      | LPAREN =>
          let* p := eat p LPAREN in
          let* (node, p) := expr fuel p in
          let* p := eat p RPAREN in
          Return (node, p)
      | NUMBER =>
          let tok := lookahead p in
          let* p := eat p NUMBER in
          let* node := NumberNode_init (lexeme tok) in
          Return (node, p)
      | ID =>
          let tok := lookahead p in
          let* p := eat p ID in
          Return (IdNode_init (lexeme tok), p)
      | _ => Raise (SyntaxError_factor_inesperado (lookahead p))
      end
  end.

(** Fuel that covers any run from a state: five units for each event
    the generator has still to produce, and five more (lemma
    [parser_enough_fuel]). *)
Definition fuel_of (p : Parser) : nat := 5 * length (gen (lexer p)) + 5.

Definition parse (p : Parser) : result ASTNode :=
  let* (node, p') := expr (fuel_of p) p in
  if token_type_eqb (type (lookahead p')) EOF then Return node
  else Raise (SyntaxError_token_extra (lookahead p')).

(** [Parser(Lexer(text)).parse()] *)
Definition parse_text (text : string) : result ASTNode :=
  let* p := Parser_init (Lexer_init text) in parse p.

(** ** Evaluator *)

Record Evaluator : Type := mkEvaluator { symtab : SymbolTable }.

(** The operator dispatch of the [BinOpNode] branch: the value assigned
    to [node.val], or the exception raised instead. *)
Definition apply_op (op : string) (left_val right_val : value) : result value :=
  if String.eqb op "+" then py_add left_val right_val
  else if String.eqb op "-" then py_sub left_val right_val
  else if String.eqb op "*" then py_mul left_val right_val
  else if String.eqb op "/" then
    if py_eq_zero right_val then Raise ZeroDivisionError_detectada
    else py_truediv left_val right_val
  else Raise (ValueError_operador op).

(** A node is addressed by the way down to it from the root. *)
Inductive dir : Type := Left | Right.
Definition path : Type := list dir.

(** What a call of [eval] leaves behind: the tree with its slots as they
    are at the end of the call, the evaluator object, the assignments to
    [val] in the order they were made (each with the place of its node
    relative to the node [eval] was called on), and the value returned
    or the exception raised. *)
Record Pass : Type := mkPass {
  node_after : ASTNode;
  self_after : Evaluator;
  writes : list (path * value);
  outcome : result value
}.

Definition under (d : dir) (w : list (path * value)) : list (path * value) :=
  map (fun '(p, v) => (d :: p, v)) w.

Fixpoint eval (self : Evaluator) (node : ASTNode) : Pass :=
  match node with
  | NumberNode number_text val =>
      mkPass (NumberNode number_text val) self [([], val)] (Return val)
  | IdNode name val =>
      match get (symtab self) name with
      | None => mkPass (IdNode name val) self [] (Raise (NameError name))
      | Some sym =>
          mkPass (IdNode name (valor sym)) self [([], valor sym)] (Return (valor sym))
      end
  | BinOpNode op left_node right_node val =>
      let l := eval self left_node in
      match outcome l with
      | Return left_val =>
          let r := eval (self_after l) right_node in
          let w := (under Left (writes l) ++ under Right (writes r))%list in
          match outcome r with
          | Return right_val =>
              match apply_op op left_val right_val with
              | Return v =>
                  mkPass (BinOpNode op (node_after l) (node_after r) v)
                         (self_after r) (w ++ [([], v)])%list (Return v)
              | o =>
                  mkPass (BinOpNode op (node_after l) (node_after r) val)
                         (self_after r) w o
              end
          | o =>
              mkPass (BinOpNode op (node_after l) (node_after r) val)
                     (self_after r) w o
          end
      | o =>
          mkPass (BinOpNode op (node_after l) right_node val)
                 (self_after l) (under Left (writes l)) o
      end
  end.

(** The body of the loop of [main] for one example: build the table,
    lex, parse, evaluate. *)
Definition run_example (expr_text : string) (st : SymbolTable) : result Pass :=
  let* ast := parse_text expr_text in
  Return (eval (mkEvaluator st) ast).

(** *** Places in a tree *)

Fixpoint subtree (p : path) (node : ASTNode) : option ASTNode :=
  match p, node with
  | [], _ => Some node
  | Left :: p', BinOpNode _ l _ _ => subtree p' l
  | Right :: p', BinOpNode _ _ r _ => subtree p' r
  | _, _ => None
  end.

(** The slot of the node at a place. *)
Definition val_at (p : path) (node : ASTNode) : option value :=
  match subtree p node with
  | Some n => Some (val n)
  | None => None
  end.

(** The places of a tree, children before their parent, left before
    right. *)
Fixpoint postorder (node : ASTNode) : list path :=
  match node with
  | BinOpNode _ l r _ =>
      (map (cons Left) (postorder l) ++ map (cons Right) (postorder r) ++ [[]])%list
  | _ => [[]]
  end.

(** The tree without its slots: what the parser built. *)
Inductive syntax : Type :=
| SNumber (number_text : string)
| SId (name : string)
| SBinOp (op : string) (l r : syntax).

Fixpoint syntax_of (node : ASTNode) : syntax :=
  match node with
  | NumberNode t _ => SNumber t
  | IdNode x _ => SId x
  | BinOpNode op l r _ => SBinOp op (syntax_of l) (syntax_of r)
  end.

(** A tree as the constructors leave it: the slot of a [NumberNode]
    holds the number of its text, every other slot is [None]. *)
Fixpoint as_constructed (node : ASTNode) : Prop :=
  match node with
  | NumberNode t v => NumberNode_init t = Return (NumberNode t v)
  | IdNode _ v => v = VNone
  | BinOpNode _ l r v => v = VNone /\ as_constructed l /\ as_constructed r
  end.

Definition is_float (v : value) : bool :=
  match v with VFloat _ => true | _ => false end.

(** An outcome that is an exception of a given class. *)
Definition fails_with {A : Type} (r : result A) (c : exn_class) : Prop :=
  exists e, r = Raise e /\ class_of e = c.

(** In [l], [x] comes before [y]. *)
Definition precedes {A : Type} (x y : A) (l : list A) : Prop :=
  exists l1 l2 l3, l = (l1 ++ x :: l2 ++ y :: l3)%list.

(** The tokens the generator of a parser has still to produce. *)
Definition pending (p : Parser) : nat := length (gen (lexer p)).

(** *** Parsing a sequence of tokens *)

(** The parser whose lookahead and generator hold the tokens [ts], then
    the token [t], then whatever [rest] the generator goes on with. *)
Definition at_tokens (txt : string) (ts : list Token) (t : Token)
    (rest : list gen_event) : Parser :=
  match ts with
  | [] => mkParser (mkLexer txt rest) t
  | t0 :: ts' => mkParser (mkLexer txt (map Yield ts' ++ Yield t :: rest)) t0
  end.

Definition is_addop (k : token_type) : bool :=
  match k with PLUS | MINUS => true | _ => false end.

Definition is_mulop (k : token_type) : bool :=
  match k with MUL | DIV => true | _ => false end.

(** [reads proc follow ts n]: with enough fuel the procedure [proc]
    consumes exactly the tokens [ts] and returns the tree [n], whatever
    token of the set [follow] comes next. *)
Definition reads (proc : nat -> Parser -> result (ASTNode * Parser))
    (follow : token_type -> bool) (ts : list Token) (n : ASTNode) : Prop :=
  exists fuel0, forall fuel txt t rest,
    (fuel0 <= fuel)%nat -> follow (type t) = true ->
    proc fuel (at_tokens txt ts t rest) = Return (n, at_tokens txt [] t rest).

Definition factor_of : list Token -> ASTNode -> Prop :=
  reads factor (fun _ => true).
Definition term_of : list Token -> ASTNode -> Prop :=
  reads term (fun k => negb (is_mulop k)).
Definition expr_of : list Token -> ASTNode -> Prop :=
  reads expr (fun k => negb (is_mulop k) && negb (is_addop k)).

(** A chain [x0 op1 x1 op2 x2 ...] after its first operand: each link
    is an operator token, the tokens of the operand that follows it and
    the tree of that operand. *)
Definition link : Type := Token * list Token * ASTNode.

Definition link_tokens (k : link) : list Token :=
  let '(op, ts, _) := k in op :: ts.

Definition chain_tokens (c : list link) : list Token :=
  concat (map link_tokens c).

(** The left-leaning tree of a chain: the operators applied from left to
    right, each to the tree built so far and the next operand. *)
Definition left_chain (first : ASTNode) (c : list link) : ASTNode :=
  fold_left (fun acc (k : link) =>
               let '(op, _, n) := k in BinOpNode_init (lexeme op) acc n) c first.

Definition link_ok (is_op : token_type -> bool)
    (operand : list Token -> ASTNode -> Prop) (k : link) : Prop :=
  let '(op, ts, n) := k in is_op (type op) = true /\ operand ts n.

(** *** Characters no token pattern matches *)

Definition is_operator (c : ascii) : bool :=
  ((c =? "+") || (c =? "-") || (c =? "*") || (c =? "/") || (c =? "(") || (c =? ")"))%char.

(** A character that can start no token and is not blank: at such a
    character only [MISMATCH] can match, and it does unless the
    character is a line feed. *)
Definition unmatched (c : ascii) : bool :=
  negb (is_digit c || is_id_start c || is_operator c || is_blank c).

Definition starts_with_digit (s : string) : bool :=
  match s with
  | String d _ => is_digit d
  | EmptyString => false
  end.

Definition EOF_token : Token := mkToken EOF "".

(** *** The texts of [NUMBER] tokens *)

Fixpoint digits_only (s : string) : bool :=
  match s with
  | EmptyString => true
  | String c s' => is_digit c && digits_only s'
  end.

Definition nonempty (s : string) : bool :=
  match s with EmptyString => false | String _ _ => true end.

(** The texts [\d+(\.\d+)?] matches in full. *)
Definition is_number_lexeme (text : string) : bool :=
  if has_point text then
    nonempty (before_point text) && digits_only (before_point text) &&
    nonempty (after_point text) && digits_only (after_point text)
  else nonempty text && digits_only text.

(** *** Well-formed generators *)

(** The events of a generator as [_tokenize] makes them: tokens other
    than [EOF], the [NUMBER] tokens with a text of the [NUMBER] pattern,
    and at the end either the [EOF] token or a [SyntaxError]. *)
Fixpoint well_formed (events : list gen_event) : Prop :=
  match events with
  | [] => False
  | [Yield t] => type t = EOF
  | [Throw e] => class_of e = SyntaxError
  | Yield t :: rest =>
      type t <> EOF /\
      (type t = NUMBER -> is_number_lexeme (lexeme t) = true) /\
      well_formed rest
  | Throw _ :: _ => False
  end.

(** A parser whose lookahead and generator continue a well-formed
    generator. *)
Definition ready (p : Parser) : Prop :=
  well_formed (Yield (lookahead p) :: gen (lexer p)).

(** The exceptions of parsing: a [SyntaxError], or the [ValueError] of
    [int] on a literal of more than [int_max_str_digits] digits. *)
Definition parse_error (e : exn) : Prop :=
  class_of e = SyntaxError \/
  exists d, e = ValueError_int_digits d /\ (int_max_str_digits < d)%nat.

(** The outcomes a procedure of the parser has from a [ready] state. *)
Definition tree_or_parse_error (r : result (ASTNode * Parser)) : Prop :=
  match r with
  | Return (_, p') => ready p'
  | Raise e => parse_error e
  | OutOfFuel => True
  end.

(** *** What a pass reads *)

(** The names of the [IdNode]s of a tree, in the order [eval] meets
    them. *)
Fixpoint identifiers (node : ASTNode) : list string :=
  match node with
  | NumberNode _ _ => []
  | IdNode x _ => [x]
  | BinOpNode _ l r _ => (identifiers l ++ identifiers r)%list
  end.

(** The tree with the slots of its [IdNode]s and [BinOpNode]s emptied:
    the slot of a [NumberNode] is the only one [eval] reads. *)
Fixpoint blank (node : ASTNode) : ASTNode :=
  match node with
  | NumberNode t v => NumberNode t v
  | IdNode x _ => IdNode x VNone
  | BinOpNode op l r _ => BinOpNode op (blank l) (blank r) VNone
  end.

(** Whether a [float] enters the computation of a tree: at a literal
    with a decimal point, at an identifier bound to a [float], or at a
    division. *)
Fixpoint has_float (st : SymbolTable) (node : ASTNode) : bool :=
  match node with
  | NumberNode _ v => is_float v
  | IdNode x _ =>
      match get st x with
      | Some sym => is_float (valor sym)
      | None => false
      end
  | BinOpNode op l r _ => String.eqb op "/" || has_float st l || has_float st r
  end.

(** The operators [eval] knows. *)
Definition known_operator (op : string) : bool :=
  String.eqb op "+" || String.eqb op "-" || String.eqb op "*" || String.eqb op "/".

Fixpoint known_operators (node : ASTNode) : bool :=
  match node with
  | BinOpNode op l r _ => known_operator op && known_operators l && known_operators r
  | _ => true
  end.

(** A table none of whose symbols has the value [None]. *)
Definition numeric (st : SymbolTable) : Prop :=
  forall x sym, get st x = Some sym -> valor sym <> VNone.

(** *** Tokens and their texts *)

Fixpoint word_only (s : string) : bool :=
  match s with
  | EmptyString => true
  | String c s' => is_word c && word_only s'
  end.

(** The texts [[a-zA-Z_]\w*] matches in full. *)
Definition is_identifier (s : string) : bool :=
  match s with
  | String c s' => is_id_start c && word_only s'
  | EmptyString => false
  end.

(** The text a token of each type carries when it comes from the
    lexer. *)
Definition lexeme_fits (t : Token) : bool :=
  match type t with
  | NUMBER => is_number_lexeme (lexeme t)
  | ID => is_identifier (lexeme t)
  | PLUS => String.eqb (lexeme t) "+"
  | MINUS => String.eqb (lexeme t) "-"
  | MUL => String.eqb (lexeme t) "*"
  | DIV => String.eqb (lexeme t) "/"
  | LPAREN => String.eqb (lexeme t) "("
  | RPAREN => String.eqb (lexeme t) ")"
  | EOF => String.eqb (lexeme t) ""
  end.

(** The events ahead of a parser: its lookahead, then its generator. *)
Definition stream (p : Parser) : list gen_event :=
  Yield (lookahead p) :: gen (lexer p).

(** A parser all of whose tokens carry the text of their type. *)
Definition fits (p : Parser) : Prop :=
  forall t, In (Yield t) (stream p) -> lexeme_fits t = true.

(** The texts of a tree read from left to right: operands and operators
    in infix order. *)
Fixpoint inorder (node : ASTNode) : list string :=
  match node with
  | NumberNode t _ => [t]
  | IdNode x _ => [x]
  | BinOpNode op l r _ => (inorder l ++ op :: inorder r)%list
  end.

Definition is_paren (t : Token) : bool :=
  match type t with LPAREN | RPAREN => true | _ => false end.

(** The texts of a sequence of tokens, parentheses left out. *)
Definition infix_texts (ts : list Token) : list string :=
  map lexeme (List.filter (fun t => negb (is_paren t)) ts).

(** The text without its spaces, tabs and line feeds. *)
Fixpoint without_blanks (s : string) : string :=
  match s with
  | EmptyString => EmptyString
  | String c s' =>
      if is_blank c || is_newline c then without_blanks s'
      else String c (without_blanks s')
  end.

(** The texts of a sequence of tokens, one after the other. *)
Fixpoint spell (ts : list Token) : string :=
  match ts with
  | [] => EmptyString
  | t :: ts' => lexeme t ++ spell ts'
  end.

(** What a procedure that returns has done: it has consumed tokens [ts]
    from the front of the stream, the tree it returns reads, in infix
    order, as these tokens without their parentheses, and its operators
    are known ones when the tokens carry the texts of their types. *)
Definition consumed_as (p : Parser) (n : ASTNode) (p' : Parser) : Prop :=
  exists ts,
    stream p = (map Yield ts ++ stream p')%list /\
    infix_texts ts = inorder n /\
    (fits p -> known_operators n = true).

Definition continued_as (n0 : ASTNode) (p : Parser) (n : ASTNode) (p' : Parser) : Prop :=
  exists ts,
    stream p = (map Yield ts ++ stream p')%list /\
    inorder n = (inorder n0 ++ infix_texts ts)%list /\
    (fits p -> known_operators n0 = true -> known_operators n = true).

(** The text without its parentheses. *)
Fixpoint without_parens (s : string) : string :=
  match s with
  | EmptyString => EmptyString
  | String c s' =>
      if ((c =? "(") || (c =? ")"))%char then without_parens s'
      else String c (without_parens s')
  end.

(** What holds of a token the lexer yields before [EOF]: it carries the
    text of its type, and no parenthesis unless it is one. *)
Definition from_lexer (t : Token) : Prop :=
  lexeme_fits t = true /\ type t <> EOF /\
  without_parens (lexeme t) = if is_paren t then "" else lexeme t.

(** Texts written one after the other. *)
Fixpoint join_texts (l : list string) : string :=
  match l with
  | [] => EmptyString
  | s :: l' => s ++ join_texts l'
  end.

(** The same parser on a lexer whose [text] is another one. *)
Definition with_text (txt : string) (p : Parser) : Parser :=
  {| lexer := {| text := txt; gen := gen (lexer p) |}; lookahead := lookahead p |}.

Definition with_text_result (txt : string) (r : result (ASTNode * Parser)) :
    result (ASTNode * Parser) :=
  match r with
  | Return (n, p') => Return (n, with_text txt p')
  | Raise e => Raise e
  | OutOfFuel => OutOfFuel
  end.

(** *** Filling a table *)

(** The loop of [main] that fills the table of an example from the
    bindings [symbols], in order. *)
Definition fill (st : SymbolTable) (symbols : list (string * value)) : SymbolTable :=
  fold_left (fun st (b : string * value) => add st (fst b) "number" (snd b)) symbols st.

(** * Properties *)

(** ** Strings *)

Lemma append_String (a : ascii) (s t : string) :
  String a s ++ t = String a (s ++ t).
Proof. reflexivity. Qed.

Lemma length_append (s t : string) :
  String.length (s ++ t) = (String.length s + String.length t)%nat.
Proof.
  induction s as [ | a s IH]; [reflexivity | ].
  rewrite append_String. simpl. congruence.
Qed.

Lemma substring_0_app (n : nat) (s t : string) :
  (n <= String.length s)%nat -> substring 0 n (s ++ t) = substring 0 n s.
Proof.
  revert s. induction n as [ | n IH]; intros [ | a s] Hn; simpl in Hn; try lia.
  - change ("" ++ t) with t. destruct t; reflexivity.
  - reflexivity.
  - rewrite append_String. simpl. rewrite IH by lia. reflexivity.
Qed.

(** ** Numbers *)

(** *** Rounding an integer never gives a float zero *)

Lemma digits2_pos_size (p : positive) : digits2_pos p = Pos.size p.
Proof. induction p as [p IH | p IH | ]; simpl; congruence. Qed.

Lemma digits2_pos_le (p : positive) : 2 ^ (Zpos (digits2_pos p) - 1) <= Zpos p.
Proof.
  rewrite digits2_pos_size.
  pose proof (Pos.size_le p) as H.
  assert (H' : 2 ^ Zpos (Pos.size p) <= 2 * Zpos p).
  { change (2 * Zpos p) with (Zpos p~0). rewrite <- Pos2Z.inj_pow. exact H. }
  replace (Zpos (Pos.size p)) with (Z.succ (Zpos (Pos.size p) - 1)) in H' by lia.
  rewrite Z.pow_succ_r in H' by lia. lia.
Qed.

Lemma shr_1_m (mrs : shr_record) :
  0 <= shr_m mrs -> shr_m (shr_1 mrs) = shr_m mrs / 2.
Proof.
  destruct mrs as [m r s]. simpl. intros Hm.
  destruct m as [ | [p | p | ] | p]; simpl; try lia; try reflexivity.
  - rewrite Pos2Z.inj_xI. apply Z.div_unique with (r := 1); lia.
  - rewrite Pos2Z.inj_xO. apply Z.div_unique with (r := 0); lia.
Qed.

Lemma shr_iter_m (n : positive) :
  forall mrs, 0 <= shr_m mrs ->
    shr_m (SpecFloat.iter_pos shr_1 n mrs) = shr_m mrs / 2 ^ Zpos n.
Proof.
  assert (Hpos : forall mrs, 0 <= shr_m mrs -> 0 <= shr_m (shr_1 mrs)).
  { intros mrs H. rewrite shr_1_m by assumption. apply Z.div_pos; lia. }
  induction n as [n IH | n IH | ]; intros mrs Hm; simpl.
  - assert (H1 : 0 <= shr_m (SpecFloat.iter_pos shr_1 n (shr_1 mrs))).
    { rewrite IH by auto. apply Z.div_pos; [auto | lia]. }
    assert (E : 2 ^ Zpos n~1 = 2 * (2 ^ Zpos n * 2 ^ Zpos n)).
    { rewrite <- Z.pow_add_r, <- Z.pow_succ_r by lia. f_equal. lia. }
    rewrite IH, IH, shr_1_m, E by auto.
    rewrite !Z.div_div by lia. reflexivity.
  - assert (H1 : 0 <= shr_m (SpecFloat.iter_pos shr_1 n mrs)).
    { rewrite IH by auto. apply Z.div_pos; [auto | lia]. }
    assert (E : 2 ^ Zpos n~0 = 2 ^ Zpos n * 2 ^ Zpos n).
    { rewrite <- Z.pow_add_r by lia. f_equal. lia. }
    rewrite IH, IH, E by auto.
    rewrite !Z.div_div by lia. reflexivity.
  - rewrite shr_1_m by assumption. reflexivity.
Qed.

(** One alignment step of the rounding keeps a positive mantissa
    positive, as long as the exponent is not below the least one. *)
Lemma shr_fexp_pos (m e : Z) (l : location) :
  0 < m -> -1074 <= e ->
  0 < shr_m (fst (shr_fexp prec emax m e l)) /\ -1074 <= snd (shr_fexp prec emax m e l).
Proof.
  intros Hm He. unfold shr_fexp, shr.
  assert (Hrec : shr_m (shr_record_of_loc m l) = m).
  { destruct l as [ | [ | | ]]; reflexivity. }
  destruct (fexp prec emax (Zdigits2 m + e) - e) as [ | n | n] eqn:En; simpl;
    rewrite ?Hrec; try (split; lia).
  rewrite shr_iter_m by (rewrite Hrec; lia). rewrite Hrec.
  destruct m as [ | p | p]; try lia.
  pose proof (digits2_pos_le p) as Hd.
  unfold fexp, emin, prec, emax in En. simpl Zdigits2 in En.
  assert (Hn : Zpos n <= Zpos (digits2_pos p) - 1) by lia.
  split; [ | lia].
  apply Z.div_str_pos. split; [apply Z.pow_pos_nonneg; lia | ].
  eapply Z.le_trans; [ | exact Hd]. apply Z.pow_le_mono_r; lia.
Qed.

Lemma round_nearest_even_pos (m : Z) (l : location) :
  0 < m -> 0 < round_nearest_even m l.
Proof.
  intros Hm. destruct l as [ | [ | | ]]; simpl; try lia.
  destruct (Z.even m); lia.
Qed.

Lemma binary_round_aux_not_zero (s : bool) (m e : Z) (l : location) :
  0 < m -> -1074 <= e ->
  forall s', binary_round_aux prec emax s m e l <> S754_zero s'.
Proof.
  intros Hm He s'. unfold binary_round_aux.
  pose proof (shr_fexp_pos m e l Hm He) as [H1 H1'].
  destruct (shr_fexp prec emax m e l) as [mrs' e']. simpl in H1, H1'.
  pose proof (shr_fexp_pos _ e' loc_Exact
                (round_nearest_even_pos _ (loc_of_shr_record mrs') H1) H1') as [H2 _].
  destruct (shr_fexp prec emax _ e' loc_Exact) as [mrs'' e'']. simpl in H2.
  destruct (shr_m mrs''); try lia.
  destruct (e'' <=? emax - prec); discriminate.
Qed.

Lemma binary_round_not_zero (s : bool) (m : positive) :
  forall s', binary_round prec emax s m 0 <> S754_zero s'.
Proof.
  intros s'. unfold binary_round.
  destruct (shl_align m 0 (fexp prec emax (Zpos (digits2_pos m) + 0))) as [mz ez] eqn:E.
  apply binary_round_aux_not_zero; [lia | ].
  unfold shl_align in E.
  destruct (fexp prec emax (Zpos (digits2_pos m) + 0) - 0) eqn:En;
    injection E as <- <-; try lia.
  unfold fexp, emin, prec, emax in *. lia.
Qed.

(** [float(z) == 0] exactly when [z == 0]. *)
Lemma float_of_int_zero (z : Z) (f : spec_float) :
  float_of_int z = Return f -> py_eq_zero (VFloat f) = py_eq_zero (VInt z).
Proof.
  unfold float_of_int, finite_or_overflow. destruct z as [ | m | m]; simpl.
  - intros H. injection H as <-. reflexivity.
  - pose proof (binary_round_not_zero false m) as Hz.
    destruct (binary_round prec emax false m 0); intros H; try discriminate;
      injection H as <-; try reflexivity. destruct (Hz s). reflexivity.
  - pose proof (binary_round_not_zero true m) as Hz.
    destruct (binary_round prec emax true m 0); intros H; try discriminate;
      injection H as <-; try reflexivity. destruct (Hz s). reflexivity.
Qed.

(** *** True division *)

Lemma finite_or_overflow_class (f g : spec_float) (e : exn) :
  (finite_or_overflow f = Raise e -> e = OverflowError) /\
  (finite_or_overflow f = Return g -> g = f).
Proof.
  unfold finite_or_overflow. destruct f; split; intros H; congruence.
Qed.

Lemma as_float_raise (op : string) (v : value) (e : exn) :
  as_float op v = Raise e -> e = OverflowError \/ e = TypeError_operando op.
Proof.
  destruct v as [ | z | f]; simpl; intros H; try discriminate.
  - injection H as <-. auto.
  - left. unfold float_of_int in H.
    eapply (proj1 (finite_or_overflow_class _ (S754_zero false) e)), H.
Qed.

Lemma as_float_zero (op : string) (v : value) (f : spec_float) :
  as_float op v = Return f -> py_eq_zero (VFloat f) = py_eq_zero v.
Proof.
  destruct v as [ | z | g]; simpl; intros H; try discriminate.
  - apply float_of_int_zero, H.
  - injection H as <-. reflexivity.
Qed.

(** Behind the zero test of the evaluator, [/] never divides by zero. *)
Lemma py_truediv_not_zero_division (l r : value) (e : exn) :
  py_eq_zero r = false -> py_truediv l r = Raise e ->
  e = OverflowError \/ e = TypeError_operando "/".
Proof.
  intros Hz. unfold py_truediv.
  destruct l as [ | a | f], r as [ | b | g]; try (intros H; injection H as <-; auto; fail).
  - simpl in Hz. rewrite Hz.
    destruct (finite_or_overflow _) as [q | e' | ] eqn:E; simpl; intros H; try discriminate.
    injection H as <-.
    left. eapply (proj1 (finite_or_overflow_class _ (S754_zero false) e')), E.
  - destruct (as_float "/" (VInt a)) as [x | e' | ] eqn:Ea; cbn [bind];
      [ | intros H; injection H as <-; eapply as_float_raise; eassumption | discriminate].
    cbn [as_float bind]. rewrite Hz. discriminate.
  - destruct (as_float "/" (VInt b)) as [y | e' | ] eqn:Eb; cbn [as_float bind];
      [ | intros H; injection H as <-; eapply as_float_raise; eassumption | discriminate].
    rewrite (as_float_zero _ _ _ Eb), Hz. discriminate.
  - cbn [as_float bind]. rewrite Hz. discriminate.
Qed.

(** The quotient [/] returns is a [float], whatever the operands. *)
Lemma py_truediv_float (l r v : value) :
  py_truediv l r = Return v -> is_float v = true.
Proof.
  unfold py_truediv.
  destruct l as [ | a | f], r as [ | b | g]; try discriminate.
  - destruct (b =? 0); [discriminate | ].
    destruct (finite_or_overflow _); simpl; intros H; try discriminate.
    injection H as <-. reflexivity.
  - destruct (as_float "/" (VInt a)); cbn [as_float bind]; try discriminate.
    destruct (py_eq_zero (VFloat g)); intros H; try discriminate.
    injection H as <-. reflexivity.
  - destruct (as_float "/" (VInt b)) as [y | | ]; cbn [as_float bind];
      try discriminate.
    destruct (py_eq_zero (VFloat y)); intros H; try discriminate.
    injection H as <-. reflexivity.
  - cbn [as_float bind].
    destruct (py_eq_zero (VFloat g)); intros H; try discriminate.
    injection H as <-. reflexivity.
Qed.

(** *** Literals *)

Lemma decimal_digits_only (s : string) :
  forall acc, digits_only s = true -> exists z, decimal acc s = Some z.
Proof.
  induction s as [ | c s IH]; simpl; intros acc H.
  - eauto.
  - apply andb_prop in H as [Hc Hs]. rewrite Hc. apply IH, Hs.
Qed.

Lemma digits_only_app (s t : string) :
  digits_only s = true -> digits_only t = true -> digits_only (s ++ t) = true.
Proof.
  intros Hs Ht. induction s as [ | c s IH]; [exact Ht | ].
  rewrite append_String. simpl in *. apply andb_prop in Hs as [Hc Hs].
  rewrite Hc. apply IH, Hs.
Qed.

Lemma nonempty_app (s t : string) : nonempty s = true -> nonempty (s ++ t) = true.
Proof. destruct s; [discriminate | reflexivity]. Qed.

(** On the text of a [NUMBER] token the constructor raises only for
    an integer of too many digits. *)
Lemma NumberNode_init_lexeme (text : string) :
  is_number_lexeme text = true ->
  has_point text = true \/ (String.length text <= int_max_str_digits)%nat ->
  exists v, NumberNode_init text = Return (NumberNode text v).
Proof.
  unfold is_number_lexeme, NumberNode_init, py_float, py_int.
  destruct (has_point text); intros H Hlen.
  - repeat (apply andb_prop in H as [H ?]).
    destruct (decimal_digits_only (before_point text ++ after_point text) 0) as [z Hz].
    { apply digits_only_app; assumption. }
    rewrite Hz.
    pose proof (nonempty_app _ (after_point text) H) as Hne.
    destruct (before_point text ++ after_point text); [discriminate | ].
    simpl. eauto.
  - destruct Hlen as [Hlen | Hlen]; [discriminate | ].
    apply andb_prop in H as [Hne Hd].
    destruct (decimal_digits_only text 0 Hd) as [z Hz].
    destruct text as [ | a t]; [discriminate | ]. rewrite Hz.
    apply Nat.ltb_ge in Hlen. rewrite Hlen. simpl. eauto.
Qed.

Lemma NumberNode_init_too_long (text : string) :
  is_number_lexeme text = true -> has_point text = false ->
  (int_max_str_digits < String.length text)%nat ->
  NumberNode_init text = Raise (ValueError_int_digits (String.length text)).
Proof.
  unfold is_number_lexeme, NumberNode_init, py_int. intros H Hp Hlen. rewrite Hp in *.
  apply andb_prop in H as [Hne Hd].
  destruct (decimal_digits_only text 0 Hd) as [z Hz].
  destruct text as [ | a t]; [discriminate | ]. rewrite Hz.
  apply Nat.ltb_lt in Hlen. rewrite Hlen. reflexivity.
Qed.

(** What the constructor raises on the text of a [NUMBER] token. *)
Lemma NumberNode_init_raise (text : string) (e : exn) :
  is_number_lexeme text = true -> NumberNode_init text = Raise e ->
  has_point text = false /\ (int_max_str_digits < String.length text)%nat /\
  e = ValueError_int_digits (String.length text).
Proof.
  intros H He.
  destruct (has_point text) eqn:Hp.
  - destruct (NumberNode_init_lexeme text H) as (v & Hv); [rewrite Hp; auto | congruence].
  - destruct (Nat.le_gt_cases (String.length text) int_max_str_digits) as [Hl | Hl].
    + destruct (NumberNode_init_lexeme text H) as (v & Hv); [auto | congruence].
    + rewrite (NumberNode_init_too_long text H Hp Hl) in He. injection He as <-. auto.
Qed.

Lemma NumberNode_init_value (text : string) (node : ASTNode) :
  NumberNode_init text = Return node ->
  exists v, node = NumberNode text v /\
    (has_point text = false -> exists z, v = VInt z /\ py_int text = Return z) /\
    (has_point text = true -> exists f, v = VFloat f /\ py_float text = Return f).
Proof.
  unfold NumberNode_init. destruct (has_point text).
  - destruct (py_float text) as [f | | ]; simpl; intros H; try discriminate.
    injection H as <-. exists (VFloat f). repeat split; [discriminate | eauto].
  - destruct (py_int text) as [z | | ]; simpl; intros H; try discriminate.
    injection H as <-. exists (VInt z). repeat split; [eauto | discriminate].
Qed.

(** ** Lexer *)

Lemma tokenize_String (c : ascii) (s' : string) :
  _tokenize (String c s') =
  let s := String c s' in
  if is_digit c then
    let rest := skip_fraction (skip is_digit s') in
    Yield (mkToken NUMBER (group s rest)) :: _tokenize rest
  else if is_id_start c then
    let rest := skip is_word s' in
    Yield (mkToken ID (group s rest)) :: _tokenize rest
  else if (c =? "+")%char then Yield (mkToken PLUS (group s s')) :: _tokenize s'
  else if (c =? "-")%char then Yield (mkToken MINUS (group s s')) :: _tokenize s'
  else if (c =? "*")%char then Yield (mkToken MUL (group s s')) :: _tokenize s'
  else if (c =? "/")%char then Yield (mkToken DIV (group s s')) :: _tokenize s'
  else if (c =? "(")%char then Yield (mkToken LPAREN (group s s')) :: _tokenize s'
  else if (c =? ")")%char then Yield (mkToken RPAREN (group s s')) :: _tokenize s'
  else if is_blank c then _tokenize (skip is_blank s')
  else if is_newline c then _tokenize s'
  else [Throw (SyntaxError_caracter_invalido (group s s'))].
Proof. reflexivity. Qed.

Lemma tokenize_nonempty (s : string) : _tokenize s <> [].
Proof.
  assert (H : forall n s, (String.length s <= n)%nat -> _tokenize s <> []).
  { clear s. induction n as [ | n IH]; intros [ | c s'] Hn; try discriminate.
    - simpl in Hn. lia.
    - rewrite tokenize_String. cbv zeta.
      assert (Hskip : forall cls, (String.length (skip cls s') <= n)%nat).
      { intros cls. clear IH. simpl in Hn. assert (Hs : (String.length s' <= n)%nat) by lia.
        clear Hn. revert Hs. generalize n. induction s' as [ | a s' IHs]; simpl; intros m Hm.
        - lia.
        - destruct (cls a); simpl; [ | lia]. specialize (IHs (Nat.pred m)). lia. }
      repeat match goal with
             | |- (if ?b then _ else _) <> _ => destruct b
             end; try discriminate; apply IH; auto.
      simpl in Hn. lia. }
  apply (H (String.length s)). lia.
Qed.

Lemma skip_length (cls : ascii -> bool) (s : string) :
  (String.length (skip cls s) <= String.length s)%nat.
Proof.
  induction s as [ | a s IH]; simpl; [lia | ].
  destruct (cls a); simpl; lia.
Qed.

Lemma skip_fraction_length (s : string) :
  (String.length (skip_fraction s) <= String.length s)%nat.
Proof.
  destruct s as [ | c [ | d s]]; simpl; try lia.
  - destruct (c =? ".")%char; simpl; lia.
  - destruct (c =? ".")%char; simpl; [ | lia].
    destruct (is_digit d); simpl; [ | lia].
    pose proof (skip_length is_digit s). lia.
Qed.

Lemma skip_app (cls : ascii -> bool) (x : string) (c : ascii) (post : string) :
  cls c = false ->
  skip cls (x ++ String c post) = skip cls x ++ String c post.
Proof.
  intros Hc. induction x as [ | a x IH]; simpl.
  - rewrite Hc. reflexivity.
  - destruct (cls a); [exact IH | reflexivity].
Qed.

Lemma skip_fraction_app (x : string) (c : ascii) (post : string) :
  is_digit c = false ->
  ((c =? ".")%char = true -> starts_with_digit post = false) ->
  skip_fraction (x ++ String c post) = skip_fraction x ++ String c post.
Proof.
  intros Hc Hp. destruct x as [ | a [ | d x]]; simpl.
  - destruct (c =? ".")%char; [ | reflexivity].
    destruct post as [ | d post]; [reflexivity | ].
    simpl in Hp. rewrite (Hp eq_refl). reflexivity.
  - destruct (a =? ".")%char; [ | reflexivity]. rewrite Hc. reflexivity.
  - destruct (a =? ".")%char; [ | reflexivity].
    destruct (is_digit d); [ | reflexivity].
    apply skip_app, Hc.
Qed.

(** The slice of a match does not depend on what comes after the text
    that was matched. *)
Lemma group_app (s rest tail : string) :
  group (s ++ tail) (rest ++ tail) = group s rest.
Proof.
  unfold group. rewrite !length_append.
  replace (String.length s + String.length tail - (String.length rest + String.length tail))%nat
    with (String.length s - String.length rest)%nat by lia.
  apply substring_0_app. lia.
Qed.

Lemma group_one (c : ascii) (s : string) : group (String c s) s = String c "".
Proof.
  unfold group. simpl String.length.
  replace (S (String.length s) - String.length s)%nat with 1%nat by lia.
  simpl. destruct s; reflexivity.
Qed.

Lemma yields_cons (tok : Token) (ev : list gen_event) (toks : list Token) (last : gen_event) :
  ev <> [] ->
  Yield tok :: ev = (map Yield toks ++ [last])%list ->
  exists toks', toks = tok :: toks' /\ ev = (map Yield toks' ++ [last])%list.
Proof.
  intros Hne H. destruct toks as [ | t toks]; simpl in H.
  - injection H as _ H. contradiction.
  - injection H as -> H. eauto.
Qed.

(** *** An unmatched character after a text that lexes *)

Section Unmatched.

Variable c : ascii.
Variable post : string.

Hypothesis c_unmatched : unmatched c = true.
Hypothesis c_word : is_word c = false.
Hypothesis c_newline : is_newline c = false.
Hypothesis c_point : (c =? ".")%char = true -> starts_with_digit post = false.

Local Abbreviation tail := (String c post).

Lemma unmatched_tests :
  is_digit c = false /\ is_id_start c = false /\ is_blank c = false /\
  is_word c = false /\ is_operator c = false.
Proof.
  unfold unmatched in c_unmatched. apply negb_true_iff in c_unmatched.
  repeat (apply orb_false_elim in c_unmatched as [c_unmatched ?]).
  repeat split; assumption.
Qed.

Lemma tokenize_unmatched : _tokenize tail = [Throw (SyntaxError_caracter_invalido (String c ""))].
Proof.
  destruct unmatched_tests as (Hd & Hi & Hb & _ & Ho).
  unfold is_operator in Ho.
  repeat (apply orb_false_elim in Ho as [Ho ?]).
  rewrite tokenize_String. cbv zeta.
  rewrite Hd, Hi, Hb, c_newline.
  repeat match goal with H : (c =? _)%char = false |- _ => rewrite H; clear H end.
  rewrite group_one. reflexivity.
Qed.

(** A text that lexes without error, followed by a character that no
    pattern but [MISMATCH] matches: the same tokens, then the error. *)
Lemma tokenize_then_unmatched (n : nat) :
  forall pre toks, (String.length pre <= n)%nat ->
    _tokenize pre = (map Yield toks ++ [Yield EOF_token])%list ->
    _tokenize (pre ++ tail) =
    (map Yield toks ++ [Throw (SyntaxError_caracter_invalido (String c ""))])%list.
Proof.
  destruct unmatched_tests as (Hd & Hi & Hb & Hw & _).
  induction n as [ | n IH]; intros [ | a pre] toks Hn H; simpl in Hn; try lia.
  - destruct toks as [ | t [ | ]]; try discriminate. apply tokenize_unmatched.
  - destruct toks as [ | t [ | ]]; try discriminate. apply tokenize_unmatched.
  - rewrite append_String. rewrite tokenize_String in H |- *. cbv zeta in H |- *.
    assert (Hone : forall k,
      Yield (mkToken k (group (String a pre) pre)) :: _tokenize pre
        = (map Yield toks ++ [Yield EOF_token])%list ->
      Yield (mkToken k (group (String a (pre ++ tail)) (pre ++ tail))) :: _tokenize (pre ++ tail)
        = (map Yield toks ++ [Throw (SyntaxError_caracter_invalido (String c ""))])%list).
    { intros k Hk. apply yields_cons in Hk as (toks' & -> & Hk); [ | apply tokenize_nonempty].
      rewrite <- append_String, group_app. simpl. f_equal. apply IH; [lia | exact Hk]. }
    destruct (is_digit a).
    + rewrite skip_app, skip_fraction_app by assumption.
      apply yields_cons in H as (toks' & -> & H); [ | apply tokenize_nonempty].
      rewrite <- append_String, group_app. simpl. f_equal. apply IH; [ | exact H].
      pose proof (skip_fraction_length (skip is_digit pre)).
      pose proof (skip_length is_digit pre). lia.
    + destruct (is_id_start a).
      * rewrite skip_app by assumption.
        apply yields_cons in H as (toks' & -> & H); [ | apply tokenize_nonempty].
        rewrite <- append_String, group_app. simpl. f_equal. apply IH; [ | exact H].
        pose proof (skip_length is_word pre). lia.
      * repeat match goal with
               | |- context [if (a =? ?x)%char then _ else _] =>
                   destruct (a =? x)%char; [apply Hone, H | ]
               end.
        destruct (is_blank a).
        -- rewrite skip_app by assumption. apply IH; [ | exact H].
           pose proof (skip_length is_blank pre). lia.
        -- destruct (is_newline a).
           ++ apply IH; [lia | exact H].
           ++ destruct toks as [ | t [ | ]]; discriminate.
Qed.

End Unmatched.

(** *** The texts of the [NUMBER] tokens the lexer yields *)

Lemma digit_not_point (c : ascii) : is_digit c = true -> (c =? ".")%char = false.
Proof.
  intros H. destruct (c =? ".")%char eqn:E; [ | reflexivity].
  apply Ascii.eqb_eq in E. subst c. discriminate.
Qed.

Lemma skip_digits_split (s : string) :
  exists ds, s = ds ++ skip is_digit s /\ digits_only ds = true.
Proof.
  induction s as [ | a s (ds & Hs & Hd)]; simpl.
  - exists "". auto.
  - destruct (is_digit a) eqn:Ha.
    + exists (String a ds). rewrite append_String, <- Hs. simpl. rewrite Ha. auto.
    + exists "". auto.
Qed.

Lemma skip_fraction_split (y : string) :
  skip_fraction y = y \/
  exists d ds, y = String "." (String d (ds ++ skip_fraction y)) /\
               is_digit d = true /\ digits_only ds = true.
Proof.
  destruct y as [ | c [ | d y]]; simpl; auto.
  - destruct (c =? ".")%char; auto.
  - destruct (c =? ".")%char eqn:Ec; auto.
    destruct (is_digit d) eqn:Hd; auto.
    right. apply Ascii.eqb_eq in Ec. subst c.
    destruct (skip_digits_split y) as (ds & Hs & Hds).
    exists d, ds. rewrite <- Hs. auto.
Qed.

Lemma group_prefix (pfx rest : string) : group (pfx ++ rest) rest = pfx.
Proof.
  unfold group. rewrite length_append.
  replace (String.length pfx + String.length rest - String.length rest)%nat
    with (String.length pfx) by lia.
  induction pfx as [ | a pfx IH].
  - change ("" ++ rest) with rest. destruct rest; reflexivity.
  - rewrite append_String. simpl. rewrite IH. reflexivity.
Qed.

Lemma digits_no_point (ds : string) : digits_only ds = true -> has_point ds = false.
Proof.
  induction ds as [ | a ds IH]; simpl; [reflexivity | ].
  intros H. apply andb_prop in H as [Ha Hd].
  rewrite (digit_not_point a Ha), (IH Hd). reflexivity.
Qed.

Lemma point_after_digits (ds x : string) :
  digits_only ds = true ->
  has_point (ds ++ String "." x) = true /\
  before_point (ds ++ String "." x) = ds /\
  after_point (ds ++ String "." x) = x.
Proof.
  induction ds as [ | a ds IH]; intros H.
  - repeat split.
  - simpl in H. apply andb_prop in H as [Ha Hd]. destruct (IH Hd) as (H1 & H2 & H3).
    rewrite append_String. simpl. rewrite (digit_not_point a Ha), H1, H2, H3. auto.
Qed.

(** What [\d+(\.\d+)?] matches at a digit is a text of that pattern. *)
Lemma number_group_lexeme (c : ascii) (s' : string) :
  is_digit c = true ->
  is_number_lexeme (group (String c s') (skip_fraction (skip is_digit s'))) = true.
Proof.
  intros Hc.
  destruct (skip_digits_split s') as (ds & Hs & Hds).
  assert (Hcd : digits_only (String c ds) = true) by (simpl; rewrite Hc, Hds; reflexivity).
  destruct (skip_fraction_split (skip is_digit s')) as [E | (d & fs & Hy & Hd & Hfs)].
  - rewrite E. rewrite Hs at 1. rewrite <- append_String, group_prefix.
    unfold is_number_lexeme. rewrite (digits_no_point _ Hcd), Hcd. reflexivity.
  - set (rest := skip_fraction (skip is_digit s')) in *.
    assert (E : String c s' = (String c ds ++ String "." (String d fs)) ++ rest).
    { rewrite Hs at 1. rewrite Hy. clear.
      induction ds as [ | a ds IH]; [reflexivity | ].
      rewrite !append_String in *. injection IH as IH. rewrite IH. reflexivity. }
    rewrite E, group_prefix.
    destruct (point_after_digits (String c ds) (String d fs) Hcd) as (H1 & H2 & H3).
    unfold is_number_lexeme. rewrite H1, H2, H3, Hcd. simpl. rewrite Hd, Hfs. reflexivity.
Qed.

Lemma tokenize_number_lexemes (n : nat) :
  forall text tok, (String.length text <= n)%nat ->
    In (Yield tok) (_tokenize text) -> type tok = NUMBER ->
    is_number_lexeme (lexeme tok) = true.
Proof.
  induction n as [ | n IH]; intros [ | a s] tok Hn; simpl in Hn; try lia.
  - intros [H | []] Ht. injection H as <-. discriminate.
  - intros [H | []] Ht. injection H as <-. discriminate.
  - rewrite tokenize_String. cbv zeta.
    pose proof (skip_length is_digit s) as L1.
    pose proof (skip_fraction_length (skip is_digit s)) as L2.
    pose proof (skip_length is_word s) as L3.
    pose proof (skip_length is_blank s) as L4.
    destruct (is_digit a) eqn:Ha.
    { intros [H | H] Ht.
      - injection H as <-. apply number_group_lexeme, Ha.
      - eapply IH; [ | exact H | exact Ht]. lia. }
    repeat match goal with
           | |- context [if ?b then _ else _] =>
               destruct b;
               [ intros [H | H] Ht;
                 [ injection H as <-; discriminate
                 | eapply IH; [ | exact H | exact Ht]; lia ] | ]
           end.
    destruct (is_blank a); [intros H Ht; eapply IH; [ | exact H | exact Ht]; lia | ].
    destruct (is_newline a); [intros H Ht; eapply IH; [ | exact H | exact Ht]; lia | ].
    intros [H | []]. discriminate.
Qed.

(** ** Parser *)

(** *** One step of each procedure *)

Lemma expr_S (fuel : nat) (p : Parser) :
  expr (S fuel) p = (let* (node, p1) := term fuel p in expr_loop fuel node p1).
Proof. reflexivity. Qed.

Lemma term_S (fuel : nat) (p : Parser) :
  term (S fuel) p = (let* (node, p1) := factor fuel p in term_loop fuel node p1).
Proof. reflexivity. Qed.

Lemma expr_loop_S (fuel : nat) (node : ASTNode) (p : Parser) :
  expr_loop (S fuel) node p =
  match type (lookahead p) with
  | PLUS | MINUS =>
      let* p1 := (if token_type_eqb (type (lookahead p)) PLUS
                  then eat p PLUS else eat p MINUS) in
      let* (right_node, p2) := term fuel p1 in
      expr_loop fuel (BinOpNode_init (lexeme (lookahead p)) node right_node) p2
  | _ => Return (node, p)
  end.
Proof. reflexivity. Qed.

Lemma term_loop_S (fuel : nat) (node : ASTNode) (p : Parser) :
  term_loop (S fuel) node p =
  match type (lookahead p) with
  | MUL | DIV =>
      let* p1 := (if token_type_eqb (type (lookahead p)) MUL
                  then eat p MUL else eat p DIV) in
      let* (right_node, p2) := factor fuel p1 in
      term_loop fuel (BinOpNode_init (lexeme (lookahead p)) node right_node) p2
  | _ => Return (node, p)
  end.
Proof. reflexivity. Qed.

Lemma factor_S (fuel : nat) (p : Parser) :
  factor (S fuel) p =
  match type (lookahead p) with
  | LPAREN =>
      let* p1 := eat p LPAREN in
      let* (node, p2) := expr fuel p1 in
      let* p3 := eat p2 RPAREN in
      Return (node, p3)
  | NUMBER =>
      let* p1 := eat p NUMBER in
      let* node := NumberNode_init (lexeme (lookahead p)) in
      Return (node, p1)
  | ID =>
      let* p1 := eat p ID in
      Return (IdNode_init (lexeme (lookahead p)), p1)
  | _ => Raise (SyntaxError_factor_inesperado (lookahead p))
  end.
Proof. reflexivity. Qed.

Global Opaque expr term factor expr_loop term_loop.

Lemma eat_pending (p p' : Parser) (t : token_type) :
  eat p t = Return p' -> pending p = S (pending p').
Proof.
  unfold eat, Lexer_next, pending.
  destruct (token_type_eqb (type (lookahead p)) t); [ | discriminate].
  destruct (gen (lexer p)) as [ | [tok | e] g]; simpl; try discriminate.
  intros H. injection H as <-. reflexivity.
Qed.

Lemma eat_not_fuel (p : Parser) (t : token_type) : eat p t <> OutOfFuel.
Proof.
  unfold eat, Lexer_next.
  destruct (token_type_eqb (type (lookahead p)) t); [ | discriminate].
  destruct (gen (lexer p)) as [ | [tok | e] g]; discriminate.
Qed.

Lemma eat_either_pending (p p' : Parser) (b : bool) (t u : token_type) :
  (if b then eat p t else eat p u) = Return p' -> pending p = S (pending p').
Proof. destruct b; apply eat_pending. Qed.

Lemma NumberNode_init_not_fuel (t : string) : NumberNode_init t <> OutOfFuel.
Proof.
  unfold NumberNode_init, py_float, py_int.
  destruct (has_point t).
  - destruct (decimal 0 (before_point t ++ after_point t));
      destruct (before_point t ++ after_point t); simpl; discriminate.
  - destruct t as [ | a t]; [discriminate | ].
    destruct (decimal 0 (String a t)); cbn [bind]; [ | discriminate].
    destruct (int_max_str_digits <? String.length (String a t))%nat; discriminate.
Qed.

(** Case analysis on the first computation of a sequence. *)
Ltac bind_case E :=
  match goal with
  | |- context [bind ?c _] => destruct c as [? | ? | ] eqn:E; simpl
  | H : context [bind ?c _] |- _ => destruct c as [? | ? | ] eqn:E; simpl in H
  end.

(** *** Procedures only consume *)

Lemma parser_consumes (fuel : nat) :
  (forall p n p', expr fuel p = Return (n, p') -> (pending p' <= pending p)%nat) /\
  (forall n0 p n p', expr_loop fuel n0 p = Return (n, p') -> (pending p' <= pending p)%nat) /\
  (forall p n p', term fuel p = Return (n, p') -> (pending p' <= pending p)%nat) /\
  (forall n0 p n p', term_loop fuel n0 p = Return (n, p') -> (pending p' <= pending p)%nat) /\
  (forall p n p', factor fuel p = Return (n, p') -> (pending p' <= pending p)%nat).
Proof.
  induction fuel as [ | fuel (IHe & IHel & IHt & IHtl & IHf)].
  - repeat split; intros; discriminate.
  - repeat split.
    + intros p n p'. rewrite expr_S. intros H.
      bind_case E; try discriminate. destruct a as [n1 p1].
      apply IHt in E. apply IHel in H. lia.
    + intros n0 p n p'. rewrite expr_loop_S. intros H.
      destruct (type (lookahead p)); try (injection H as <- <-; lia);
        (bind_case E; try discriminate; apply eat_either_pending in E;
         bind_case E'; try discriminate; destruct a0 as [n1 p1];
         apply IHt in E'; apply IHel in H; lia).
    + intros p n p'. rewrite term_S. intros H.
      bind_case E; try discriminate. destruct a as [n1 p1].
      apply IHf in E. apply IHtl in H. lia.
    + intros n0 p n p'. rewrite term_loop_S. intros H.
      destruct (type (lookahead p)); try (injection H as <- <-; lia);
        (bind_case E; try discriminate; apply eat_either_pending in E;
         bind_case E'; try discriminate; destruct a0 as [n1 p1];
         apply IHf in E'; apply IHtl in H; lia).
    + intros p n p'. rewrite factor_S. intros H.
      destruct (type (lookahead p)); try discriminate.
      * bind_case E; try discriminate. apply eat_pending in E.
        bind_case E'; try discriminate. injection H as <- <-. lia.
      * bind_case E; try discriminate. apply eat_pending in E.
        injection H as <- <-. lia.
      * bind_case E; try discriminate. apply eat_pending in E.
        bind_case E'; try discriminate. destruct a0 as [n1 p1].
        bind_case E''; try discriminate. apply eat_pending in E''.
        injection H as <- <-. apply IHe in E'. lia.
Qed.

(** *** Fuel *)

(** Five units of fuel per pending token, and five more, are never used up. *)
Lemma parser_enough_fuel (fuel : nat) :
  (forall p, (5 * pending p + 5 <= fuel)%nat -> expr fuel p <> OutOfFuel) /\
  (forall n0 p, (5 * pending p + 4 <= fuel)%nat -> expr_loop fuel n0 p <> OutOfFuel) /\
  (forall p, (5 * pending p + 3 <= fuel)%nat -> term fuel p <> OutOfFuel) /\
  (forall n0 p, (5 * pending p + 2 <= fuel)%nat -> term_loop fuel n0 p <> OutOfFuel) /\
  (forall p, (5 * pending p + 1 <= fuel)%nat -> factor fuel p <> OutOfFuel).
Proof.
  induction fuel as [ | fuel (IHe & IHel & IHt & IHtl & IHf)].
  - repeat split; intros; lia.
  - pose proof (parser_consumes fuel) as (Ce & Cel & Ct & Ctl & Cf).
    repeat split.
    + intros p Hp. rewrite expr_S.
      bind_case E; try discriminate.
      * destruct a as [n1 p1]. apply Ct in E. apply IHel. lia.
      * apply IHt in E; [destruct E | lia].
    + intros n0 p Hp. rewrite expr_loop_S.
      destruct (type (lookahead p)); try discriminate;
        (bind_case E; try discriminate;
         [ simpl in E; pose proof (eat_pending _ _ _ E);
           bind_case E'; try discriminate;
           [ destruct a0 as [n1 p1]; apply Ct in E'; apply IHel; lia
           | apply IHt in E'; [destruct E' | lia] ]
         | simpl in E; destruct (eat_not_fuel _ _ E) ]).
    + intros p Hp. rewrite term_S.
      bind_case E; try discriminate.
      * destruct a as [n1 p1]. apply Cf in E. apply IHtl. lia.
      * apply IHf in E; [destruct E | lia].
    + intros n0 p Hp. rewrite term_loop_S.
      destruct (type (lookahead p)); try discriminate;
        (bind_case E; try discriminate;
         [ simpl in E; pose proof (eat_pending _ _ _ E);
           bind_case E'; try discriminate;
           [ destruct a0 as [n1 p1]; apply Cf in E'; apply IHtl; lia
           | apply IHf in E'; [destruct E' | lia] ]
         | simpl in E; destruct (eat_not_fuel _ _ E) ]).
    + intros p Hp. rewrite factor_S.
      destruct (type (lookahead p)); try discriminate.
      * bind_case E; try discriminate; [ | destruct (eat_not_fuel _ _ E)].
        bind_case E'; try discriminate. destruct (NumberNode_init_not_fuel _ E').
      * bind_case E; try discriminate. destruct (eat_not_fuel _ _ E).
      * bind_case E; try discriminate; [ | destruct (eat_not_fuel _ _ E)].
        pose proof (eat_pending _ _ _ E).
        bind_case E'; try discriminate.
        -- destruct a0 as [n1 p1].
           bind_case E''; try discriminate. destruct (eat_not_fuel _ _ E'').
        -- apply IHe in E'; [destruct E' | lia].
Qed.

(** A run that ended is not changed by more fuel. *)
Lemma parser_more_fuel (fuel : nat) :
  (forall p, expr fuel p <> OutOfFuel -> expr (S fuel) p = expr fuel p) /\
  (forall n0 p, expr_loop fuel n0 p <> OutOfFuel ->
     expr_loop (S fuel) n0 p = expr_loop fuel n0 p) /\
  (forall p, term fuel p <> OutOfFuel -> term (S fuel) p = term fuel p) /\
  (forall n0 p, term_loop fuel n0 p <> OutOfFuel ->
     term_loop (S fuel) n0 p = term_loop fuel n0 p) /\
  (forall p, factor fuel p <> OutOfFuel -> factor (S fuel) p = factor fuel p).
Proof.
  induction fuel as [ | fuel (IHe & IHel & IHt & IHtl & IHf)].
  - repeat split; intros; exfalso; auto.
  - repeat split.
    + intros p. rewrite (expr_S (S fuel)), (expr_S fuel). intros H.
      destruct (term fuel p) as [[n1 p1] | e | ] eqn:E; simpl in H;
        try (exfalso; apply H; reflexivity);
        rewrite IHt, E by (rewrite E; discriminate); simpl; auto. 
    + intros n0 p. rewrite (expr_loop_S (S fuel)), (expr_loop_S fuel). intros H.
      destruct (type (lookahead p)); auto;
        (destruct (if token_type_eqb _ _ then _ else _) as [p1 | e | ]; simpl in *; auto;
         destruct (term fuel p1) as [[n1 p2] | e | ] eqn:E; simpl in H;
         try (exfalso; apply H; reflexivity);
         rewrite IHt, E by (rewrite E; discriminate); simpl; auto).
    + intros p. rewrite (term_S (S fuel)), (term_S fuel). intros H.
      destruct (factor fuel p) as [[n1 p1] | e | ] eqn:E; simpl in H;
        try (exfalso; apply H; reflexivity);
        rewrite IHf, E by (rewrite E; discriminate); simpl; auto.
    + intros n0 p. rewrite (term_loop_S (S fuel)), (term_loop_S fuel). intros H.
      destruct (type (lookahead p)); auto;
        (destruct (if token_type_eqb _ _ then _ else _) as [p1 | e | ]; simpl in *; auto;
         destruct (factor fuel p1) as [[n1 p2] | e | ] eqn:E; simpl in H;
         try (exfalso; apply H; reflexivity);
         rewrite IHf, E by (rewrite E; discriminate); simpl; auto).
    + intros p. rewrite (factor_S (S fuel)), (factor_S fuel). intros H.
      destruct (type (lookahead p)); auto.
      destruct (eat p LPAREN) as [p1 | e | ]; simpl in *; auto.
      destruct (expr fuel p1) as [[n1 p2] | e | ] eqn:E; simpl in H;
        try (exfalso; apply H; reflexivity);
        rewrite IHe, E by (rewrite E; discriminate); simpl; auto.
Qed.

Lemma expr_fuel_ge (fuel fuel' : nat) (p : Parser) :
  (fuel <= fuel')%nat -> expr fuel p <> OutOfFuel -> expr fuel' p = expr fuel p.
Proof.
  induction 1 as [ | fuel' Hle IH]; intros H; [reflexivity | ].
  rewrite <- (IH H). apply parser_more_fuel. rewrite (IH H). exact H.
Qed.

Lemma parse_not_fuel (p : Parser) : parse p <> OutOfFuel.
Proof.
  unfold parse.
  destruct (expr (fuel_of p) p) as [[n p'] | e | ] eqn:E; simpl.
  - destruct (token_type_eqb _ _); discriminate.
  - discriminate.
  - apply (proj1 (parser_enough_fuel (fuel_of p))) in E; [destruct E | ].
    unfold fuel_of, pending. lia.
Qed.

(** [parse] with any fuel that lets [expr] end. *)
Lemma parse_with_fuel (fuel : nat) (p : Parser) :
  expr fuel p <> OutOfFuel ->
  parse p =
  (let* (node, p') := expr fuel p in
   if token_type_eqb (type (lookahead p')) EOF then Return node
   else Raise (SyntaxError_token_extra (lookahead p'))).
Proof.
  intros H. unfold parse.
  assert (Hp : expr (fuel_of p) p <> OutOfFuel).
  { apply parser_enough_fuel. unfold fuel_of, pending. lia. }
  destruct (Nat.le_ge_cases fuel (fuel_of p)) as [Hle | Hle].
  - rewrite (expr_fuel_ge _ _ _ Hle H). reflexivity.
  - rewrite <- (expr_fuel_ge _ _ _ Hle Hp). reflexivity.
Qed.

(** *** Reading chains *)

Lemma token_type_eqb_eq (a b : token_type) : token_type_eqb a b = true <-> a = b.
Proof. destruct a, b; simpl; split; congruence. Qed.

Lemma token_type_eqb_refl (a : token_type) : token_type_eqb a a = true.
Proof. destruct a; reflexivity. Qed.

Lemma eat_at_tokens (txt : string) (t0 : Token) (ts : list Token) (t : Token)
    (rest : list gen_event) :
  eat (at_tokens txt (t0 :: ts) t rest) (type t0) = Return (at_tokens txt ts t rest).
Proof.
  unfold eat. simpl.
  rewrite token_type_eqb_refl.
  destruct ts; reflexivity.
Qed.

(** Tokens read first can be split off: what follows them plays the part
    of the next token. *)
Lemma at_tokens_app (txt : string) (ts more : list Token) (t : Token)
    (rest : list gen_event) :
  exists t' rest',
    at_tokens txt (ts ++ more) t rest = at_tokens txt ts t' rest' /\
    at_tokens txt more t rest = at_tokens txt [] t' rest'.
Proof.
  destruct more as [ | u us].
  - exists t, rest. rewrite app_nil_r. auto.
  - exists u, (map Yield us ++ Yield t :: rest)%list. split; [ | reflexivity].
    destruct ts as [ | t0 ts]; simpl; [reflexivity | ].
    rewrite map_app. simpl. rewrite <- app_assoc. reflexivity.
Qed.

Lemma reads_at (proc : nat -> Parser -> result (ASTNode * Parser))
    (follow : token_type -> bool) (ts more : list Token) (n : ASTNode)
    (fuel0 : nat) :
  (forall fuel txt t rest, (fuel0 <= fuel)%nat -> follow (type t) = true ->
     proc fuel (at_tokens txt ts t rest) = Return (n, at_tokens txt [] t rest)) ->
  forall fuel txt t rest, (fuel0 <= fuel)%nat ->
    follow (type (lookahead (at_tokens txt more t rest))) = true ->
    proc fuel (at_tokens txt (ts ++ more) t rest) = Return (n, at_tokens txt more t rest).
Proof.
  intros H fuel txt t rest Hf Hfollow.
  destruct (at_tokens_app txt ts more t rest) as (t' & rest' & -> & E).
  rewrite E in Hfollow |- *. apply H; assumption.
Qed.

Section Chains.

(** The loop of [term] over [factor] and the loop of [expr] over [term]
    are the same loop: [loop] iterates while the lookahead is an operator
    of the set [is_op], reading operands with [operand]. *)
Variable is_op : token_type -> bool.
Variable operand : nat -> Parser -> result (ASTNode * Parser).
Variable loop : nat -> ASTNode -> Parser -> result (ASTNode * Parser).
Variable follow : token_type -> bool.
Variable op1 op2 : token_type.

Hypothesis is_op_spec : forall k, is_op k = true <-> k = op1 \/ k = op2.

Hypothesis loop_S : forall fuel node p,
  loop (S fuel) node p =
  if is_op (type (lookahead p)) then
    let* p1 := (if token_type_eqb (type (lookahead p)) op1
                then eat p op1 else eat p op2) in
    let* (right_node, p2) := operand fuel p1 in
    loop fuel (BinOpNode_init (lexeme (lookahead p)) node right_node) p2
  else Return (node, p).

Lemma loop_chain (c : list link) :
  Forall (link_ok is_op (reads operand (fun k => is_op k || follow k))) c ->
  exists fuel0, forall fuel acc txt t rest,
    (fuel0 <= fuel)%nat -> is_op (type t) = false -> follow (type t) = true ->
    loop fuel acc (at_tokens txt (chain_tokens c) t rest) =
    Return (left_chain acc c, at_tokens txt [] t rest).
Proof.
  induction 1 as [ | [[op ts] n] c [Hop (f1 & Hts)] Hc (f2 & IH)].
  - exists 1%nat. intros [ | fuel] acc txt t rest Hf Ht Hfo; [lia | ].
    rewrite loop_S. simpl. rewrite Ht. reflexivity.
  - exists (S (Nat.max f1 f2)). intros [ | fuel] acc txt t rest Hf Ht Hfo; [lia | ].
    rewrite loop_S.
    change (chain_tokens ((op, ts, n) :: c)) with (op :: (ts ++ chain_tokens c))%list.
    cbn [at_tokens lookahead]. rewrite Hop.
    assert (Heat : (if token_type_eqb (type op) op1
                    then eat (at_tokens txt (op :: ts ++ chain_tokens c) t rest) op1
                    else eat (at_tokens txt (op :: ts ++ chain_tokens c) t rest) op2)
                   = Return (at_tokens txt (ts ++ chain_tokens c) t rest)).
    { apply is_op_spec in Hop as [Hk | Hk].
      - rewrite Hk at 1. rewrite token_type_eqb_refl.
        rewrite <- Hk. apply eat_at_tokens.
      - destruct (token_type_eqb (type op) op1) eqn:E.
        + apply token_type_eqb_eq in E. rewrite <- E. apply eat_at_tokens.
        + rewrite <- Hk. apply eat_at_tokens. }
    cbn [at_tokens] in Heat. rewrite Heat. cbn [bind].
    rewrite (reads_at operand (fun k => is_op k || follow k) ts (chain_tokens c) n f1 Hts);
      [ | lia | ].
    + cbn [bind]. apply IH; auto. lia.
    + destruct c as [ | [[op' ts'] n'] c'].
      * simpl. rewrite Ht, Hfo. reflexivity.
      * inversion Hc as [ | ? ? Hk _]. subst. destruct Hk as [Hop' _].
        simpl. rewrite Hop'. reflexivity.
Qed.

End Chains.

Lemma reads_weaken (proc : nat -> Parser -> result (ASTNode * Parser))
    (follow follow' : token_type -> bool) (ts : list Token) (n : ASTNode) :
  (forall k, follow' k = true -> follow k = true) ->
  reads proc follow ts n -> reads proc follow' ts n.
Proof.
  intros Hsub (fuel0 & H). exists fuel0. intros fuel txt t rest Hf Ht.
  apply H; auto.
Qed.

Lemma term_loop_if (fuel : nat) (node : ASTNode) (p : Parser) :
  term_loop (S fuel) node p =
  if is_mulop (type (lookahead p)) then
    let* p1 := (if token_type_eqb (type (lookahead p)) MUL
                then eat p MUL else eat p DIV) in
    let* (right_node, p2) := factor fuel p1 in
    term_loop fuel (BinOpNode_init (lexeme (lookahead p)) node right_node) p2
  else Return (node, p).
Proof. rewrite term_loop_S. destruct (type (lookahead p)); reflexivity. Qed.

Lemma expr_loop_if (fuel : nat) (node : ASTNode) (p : Parser) :
  expr_loop (S fuel) node p =
  if is_addop (type (lookahead p)) then
    let* p1 := (if token_type_eqb (type (lookahead p)) PLUS
                then eat p PLUS else eat p MINUS) in
    let* (right_node, p2) := term fuel p1 in
    expr_loop fuel (BinOpNode_init (lexeme (lookahead p)) node right_node) p2
  else Return (node, p).
Proof. rewrite expr_loop_S. destruct (type (lookahead p)); reflexivity. Qed.

(** A chain of factors joined by [*] and [/] is read by [term] as the
    left-leaning tree of the chain. *)
Lemma term_chain (ts0 : list Token) (n0 : ASTNode) (c : list link) :
  factor_of ts0 n0 ->
  Forall (link_ok is_mulop factor_of) c ->
  term_of (ts0 ++ chain_tokens c) (left_chain n0 c).
Proof.
  intros (f0 & H0) Hc.
  destruct (loop_chain is_mulop factor term_loop (fun k => negb (is_mulop k)) MUL DIV)
    with (c := c) as (f1 & H1).
  - intros k. destruct k; simpl; split; intros H; try discriminate; auto;
      destruct H; discriminate.
  - apply term_loop_if.
  - eapply Forall_impl; [exact Hc | ]. intros [[op ts] n] [Hop Hts]. split; [exact Hop | ].
    eapply reads_weaken; [ | exact Hts]. reflexivity.
  - exists (S (Nat.max f0 f1)). intros [ | fuel] txt t rest Hf Ht; [lia | ].
    rewrite term_S.
    rewrite (reads_at factor (fun _ => true) ts0 (chain_tokens c) n0 f0 H0);
      [ | lia | reflexivity].
    cbn [bind]. apply H1; [lia | | exact Ht].
    destruct (is_mulop (type t)); [discriminate | reflexivity].
Qed.

(** A chain of terms joined by [+] and [-] is read by [expr] as the
    left-leaning tree of the chain. *)
Lemma expr_chain (ts0 : list Token) (n0 : ASTNode) (c : list link) :
  term_of ts0 n0 ->
  Forall (link_ok is_addop term_of) c ->
  expr_of (ts0 ++ chain_tokens c) (left_chain n0 c).
Proof.
  intros (f0 & H0) Hc.
  destruct (loop_chain is_addop term expr_loop
              (fun k => negb (is_mulop k) && negb (is_addop k)) PLUS MINUS)
    with (c := c) as (f1 & H1).
  - intros k. destruct k; simpl; split; intros H; try discriminate; auto;
      destruct H; discriminate.
  - apply expr_loop_if.
  - eapply Forall_impl; [exact Hc | ]. intros [[op ts] n] [Hop Hts]. split; [exact Hop | ].
    eapply reads_weaken; [ | exact Hts]. intros k. destruct k; simpl; congruence.
  - exists (S (Nat.max f0 f1)). intros [ | fuel] txt t rest Hf Ht; [lia | ].
    apply andb_prop in Ht as [Hm Ha].
    rewrite expr_S.
    rewrite (reads_at term (fun k => negb (is_mulop k)) ts0 (chain_tokens c) n0 f0 H0);
      [ | lia | ].
    + cbn [bind]. apply H1; [lia | | ].
      * destruct (is_addop (type t)); [discriminate | reflexivity].
      * rewrite Hm, Ha. reflexivity.
    + inversion Hc as [ | [[op ts] n] c' [Hop _] _]; subst; simpl.
      * exact Hm.
      * destruct (type op); try discriminate; reflexivity.
Qed.

(** The layers: a factor is a term, a term is an expression, an
    expression between parentheses is a factor. *)
Lemma factor_is_term (ts : list Token) (n : ASTNode) : factor_of ts n -> term_of ts n.
Proof.
  intros H. pose proof (term_chain ts n [] H (List.Forall_nil _)) as T.
  simpl in T. rewrite app_nil_r in T. exact T.
Qed.

Lemma term_is_expr (ts : list Token) (n : ASTNode) : term_of ts n -> expr_of ts n.
Proof.
  intros H. pose proof (expr_chain ts n [] H (List.Forall_nil _)) as T.
  simpl in T. rewrite app_nil_r in T. exact T.
Qed.

Lemma paren_is_factor (lp rp : Token) (ts : list Token) (n : ASTNode) :
  type lp = LPAREN -> type rp = RPAREN ->
  expr_of ts n -> factor_of (lp :: ts ++ [rp]) n.
Proof.
  intros Hl Hr (f0 & H0). exists (S f0). intros [ | fuel] txt t rest Hf _; [lia | ].
  rewrite factor_S. cbn [at_tokens lookahead]. rewrite Hl.
  pose proof (eat_at_tokens txt lp (ts ++ [rp]) t rest) as E.
  rewrite Hl in E. cbn [at_tokens] in E. rewrite E. cbn [bind].
  rewrite (reads_at expr (fun k => negb (is_mulop k) && negb (is_addop k)) ts [rp] n f0 H0);
    [ | lia | simpl; rewrite Hr; reflexivity].
  cbn [bind].
  pose proof (eat_at_tokens txt rp [] t rest) as E'.
  rewrite Hr in E'. rewrite E'. reflexivity.
Qed.

Lemma id_is_factor (tok : Token) :
  type tok = ID -> factor_of [tok] (IdNode (lexeme tok) VNone).
Proof.
  intros Hk. exists 1%nat. intros [ | fuel] txt t rest Hf _; [lia | ].
  rewrite factor_S. cbn [at_tokens lookahead]. rewrite Hk.
  pose proof (eat_at_tokens txt tok [] t rest) as E.
  rewrite Hk in E. cbn [at_tokens] in E. rewrite E. reflexivity.
Qed.

Lemma number_is_factor (tok : Token) (n : ASTNode) :
  type tok = NUMBER -> NumberNode_init (lexeme tok) = Return n -> factor_of [tok] n.
Proof.
  intros Hk Hn. exists 1%nat. intros [ | fuel] txt t rest Hf _; [lia | ].
  rewrite factor_S. cbn [at_tokens lookahead]. rewrite Hk.
  pose proof (eat_at_tokens txt tok [] t rest) as E.
  rewrite Hk in E. cbn [at_tokens] in E. rewrite E. cbn [bind].
  rewrite Hn. reflexivity.
Qed.

(** [parse] on the tokens of an expression followed by [EOF]. *)
Lemma parse_expr_of (ts : list Token) (n : ASTNode) (txt : string) (t : Token)
    (rest : list gen_event) :
  expr_of ts n -> type t = EOF -> parse (at_tokens txt ts t rest) = Return n.
Proof.
  intros (f0 & H0) Ht.
  specialize (H0 f0 txt t rest (le_n _)). rewrite Ht in H0. specialize (H0 eq_refl).
  rewrite (parse_with_fuel f0) by (rewrite H0; discriminate).
  rewrite H0. simpl. rewrite Ht. reflexivity.
Qed.

(** [parse] on the tokens of an expression followed by a token that
    neither ends the input nor continues the expression. *)
Lemma parse_trailing (ts : list Token) (n : ASTNode) (txt : string) (t : Token)
    (rest : list gen_event) :
  expr_of ts n ->
  is_mulop (type t) = false -> is_addop (type t) = false -> type t <> EOF ->
  parse (at_tokens txt ts t rest) = Raise (SyntaxError_token_extra t).
Proof.
  intros (f0 & H0) Hm Ha Ht.
  specialize (H0 f0 txt t rest (le_n _)). rewrite Hm, Ha in H0. specialize (H0 eq_refl).
  rewrite (parse_with_fuel f0) by (rewrite H0; discriminate).
  rewrite H0. simpl.
  destruct (token_type_eqb (type t) EOF) eqn:E; [ | reflexivity].
  apply token_type_eqb_eq in E. contradiction.
Qed.

(** *** What the parser builds *)

Lemma NumberNode_init_constructed (t : string) (n : ASTNode) :
  NumberNode_init t = Return n -> as_constructed n.
Proof.
  intros H. pose proof H as H'. unfold NumberNode_init in H'.
  destruct (has_point t).
  - destruct (py_float t); simpl in H'; try discriminate.
    injection H' as <-. exact H.
  - destruct (py_int t); simpl in H'; try discriminate.
    injection H' as <-. exact H.
Qed.

Lemma parser_constructs (fuel : nat) :
  (forall p n p', expr fuel p = Return (n, p') -> as_constructed n) /\
  (forall n0 p n p', as_constructed n0 ->
     expr_loop fuel n0 p = Return (n, p') -> as_constructed n) /\
  (forall p n p', term fuel p = Return (n, p') -> as_constructed n) /\
  (forall n0 p n p', as_constructed n0 ->
     term_loop fuel n0 p = Return (n, p') -> as_constructed n) /\
  (forall p n p', factor fuel p = Return (n, p') -> as_constructed n).
Proof.
  induction fuel as [ | fuel (IHe & IHel & IHt & IHtl & IHf)].
  - repeat split; intros; discriminate.
  - repeat split.
    + intros p n p'. rewrite expr_S. intros H.
      bind_case E; try discriminate. destruct a as [n1 p1].
      apply IHt in E. eapply IHel; eassumption.
    + intros n0 p n p' H0. rewrite expr_loop_S. intros H.
      destruct (type (lookahead p)); try (injection H as <- <-; assumption);
        (bind_case E; try discriminate;
         bind_case E'; try discriminate; destruct a0 as [n1 p1];
         apply IHt in E'; eapply IHel; [ | eassumption]; simpl; auto).
    + intros p n p'. rewrite term_S. intros H.
      bind_case E; try discriminate. destruct a as [n1 p1].
      apply IHf in E. eapply IHtl; eassumption.
    + intros n0 p n p' H0. rewrite term_loop_S. intros H.
      destruct (type (lookahead p)); try (injection H as <- <-; assumption);
        (bind_case E; try discriminate;
         bind_case E'; try discriminate; destruct a0 as [n1 p1];
         apply IHf in E'; eapply IHtl; [ | eassumption]; simpl; auto).
    + intros p n p'. rewrite factor_S. intros H.
      destruct (type (lookahead p)); try discriminate.
      * bind_case E; try discriminate.
        bind_case E'; try discriminate. injection H as <- <-.
        eapply NumberNode_init_constructed; eassumption.
      * bind_case E; try discriminate. injection H as <- <-. reflexivity.
      * bind_case E; try discriminate.
        bind_case E'; try discriminate. destruct a0 as [n1 p1].
        bind_case E''; try discriminate.
        injection H as <- <-. eapply IHe; eassumption.
Qed.

Lemma parse_constructs (p : Parser) (n : ASTNode) :
  parse p = Return n -> as_constructed n.
Proof.
  unfold parse. intros H.
  bind_case E; try discriminate. destruct a as [n1 p1].
  destruct (token_type_eqb _ _); try discriminate. injection H as <-.
  eapply (proj1 (parser_constructs _)); eassumption.
Qed.

Lemma as_constructed_subtree (n : ASTNode) :
  forall q m, as_constructed n -> subtree q n = Some m -> as_constructed m.
Proof.
  induction n as [t v | x v | op l IHl r IHr v]; intros [ | [ | ] q] m Hn H;
    simpl in H; try discriminate; try (injection H as <-; exact Hn).
  - destruct Hn as (_ & Hl & _). eapply IHl; eassumption.
  - destruct Hn as (_ & _ & Hr). eapply IHr; eassumption.
Qed.

(** After construction only a [NumberNode] has something in its slot. *)
Lemma as_constructed_val (m : ASTNode) :
  as_constructed m ->
  match m with
  | NumberNode t v => NumberNode_init t = Return m /\ v <> VNone
  | _ => val m = VNone
  end.
Proof.
  destruct m as [t v | x v | op l r v]; simpl.
  - intros H. split; [exact H | ].
    destruct (NumberNode_init_value _ _ H) as (v' & Hv & Hi & Hf).
    injection Hv as ->.
    destruct (has_point t); [destruct (Hf eq_refl) as (f & -> & _)
                            | destruct (Hi eq_refl) as (z & -> & _)]; discriminate.
  - auto.
  - intros (H & _). exact H.
Qed.

(** *** What the parser raises *)

Lemma well_formed_cons (t : Token) (rest : list gen_event) :
  rest <> [] ->
  type t <> EOF -> (type t = NUMBER -> is_number_lexeme (lexeme t) = true) ->
  well_formed rest -> well_formed (Yield t :: rest).
Proof.
  intros Hne H1 H2 H3. destruct rest as [ | ev rest]; [contradiction | ].
  simpl. auto.
Qed.

Lemma tokenize_well_formed (text : string) : well_formed (_tokenize text).
Proof.
  assert (H : forall n s, (String.length s <= n)%nat -> well_formed (_tokenize s)).
  { induction n as [ | n IH]; intros [ | a s] Hn; simpl in Hn; try lia;
      try reflexivity.
    rewrite tokenize_String. cbv zeta.
    pose proof (skip_length is_digit s) as L1.
    pose proof (skip_fraction_length (skip is_digit s)) as L2.
    pose proof (skip_length is_word s) as L3.
    pose proof (skip_length is_blank s) as L4.
    destruct (is_digit a) eqn:Ha.
    { apply well_formed_cons; [apply tokenize_nonempty | discriminate | | apply IH; lia].
      intros _. apply number_group_lexeme, Ha. }
    repeat match goal with
           | |- context [if ?b then _ else _] =>
               destruct b;
               [ apply well_formed_cons;
                 [apply tokenize_nonempty | discriminate | discriminate | apply IH; lia] | ]
           end.
    destruct (is_blank a); [apply IH; lia | ].
    destruct (is_newline a); [apply IH; lia | ].
    reflexivity. }
  apply (H (String.length text)). lia.
Qed.

Lemma well_formed_next (l : Lexer) :
  well_formed (gen l) ->
  match Lexer_next l with
  | Return (t, l') => well_formed (Yield t :: gen l')
  | Raise e => class_of e = SyntaxError
  | OutOfFuel => False
  end.
Proof.
  unfold Lexer_next. destruct (gen l) as [ | [t | e] rest].
  - intros [].
  - intros H. exact H.
  - destruct rest; simpl; tauto.
Qed.

Lemma ready_eat (p : Parser) (k : token_type) :
  ready p -> k <> EOF ->
  match eat p k with
  | Return p' => ready p'
  | Raise e => class_of e = SyntaxError
  | OutOfFuel => False
  end.
Proof.
  unfold ready, eat. intros Hp Hk.
  destruct (token_type_eqb (type (lookahead p)) k) eqn:E; [ | reflexivity].
  apply token_type_eqb_eq in E.
  assert (Hg : well_formed (gen (lexer p))).
  { destruct (gen (lexer p)) as [ | ev rest]; simpl in Hp; [congruence | tauto]. }
  pose proof (well_formed_next (lexer p) Hg) as Hn.
  destruct (Lexer_next (lexer p)) as [[t l'] | e | ]; simpl; auto.
Qed.

Lemma ready_number (p : Parser) :
  ready p -> type (lookahead p) = NUMBER ->
  (exists n, NumberNode_init (lexeme (lookahead p)) = Return n) \/
  (exists e, NumberNode_init (lexeme (lookahead p)) = Raise e /\ parse_error e).
Proof.
  unfold ready. intros Hp Ht.
  assert (Hl : is_number_lexeme (lexeme (lookahead p)) = true).
  { destruct (gen (lexer p)) as [ | ev rest]; simpl in Hp; [congruence | ].
    destruct Hp as (_ & Hn & _). auto. }
  destruct (NumberNode_init (lexeme (lookahead p))) as [n | e | ] eqn:E; [eauto | | ].
  - right. exists e. split; [reflexivity | ].
    destruct (NumberNode_init_raise _ _ Hl E) as (_ & Hd & ->). right. eauto.
  - destruct (NumberNode_init_not_fuel _ E).
Qed.

Ltac eat_step p k q H :=
  pose proof (ready_eat p k) as H;
  destruct (eat p k) as [q | ? | ]; cbn [bind tree_or_parse_error];
  [ specialize (H ltac:(assumption) ltac:(discriminate))
  | left; apply H; [assumption | discriminate]
  | exact I ].

Lemma parser_outcomes (fuel : nat) :
  (forall p, ready p -> tree_or_parse_error (expr fuel p)) /\
  (forall n0 p, ready p -> tree_or_parse_error (expr_loop fuel n0 p)) /\
  (forall p, ready p -> tree_or_parse_error (term fuel p)) /\
  (forall n0 p, ready p -> tree_or_parse_error (term_loop fuel n0 p)) /\
  (forall p, ready p -> tree_or_parse_error (factor fuel p)).
Proof.
  induction fuel as [ | fuel (IHe & IHel & IHt & IHtl & IHf)].
  - repeat split; intros; exact I.
  - repeat split.
    + intros p Hp. rewrite expr_S. specialize (IHt p Hp).
      destruct (term fuel p) as [[n1 p1] | e | ]; cbn [bind]; auto.
    + intros n0 p Hp. rewrite expr_loop_S.
      destruct (type (lookahead p)); try exact Hp; cbn [token_type_eqb].
      * eat_step p PLUS q Hq. specialize (IHt _ Hq).
        destruct (term fuel q) as [[n1 p1] | e | ]; cbn [bind]; auto.
      * eat_step p MINUS q Hq. specialize (IHt _ Hq).
        destruct (term fuel q) as [[n1 p1] | e | ]; cbn [bind]; auto.
    + intros p Hp. rewrite term_S. specialize (IHf p Hp).
      destruct (factor fuel p) as [[n1 p1] | e | ]; cbn [bind]; auto.
    + intros n0 p Hp. rewrite term_loop_S.
      destruct (type (lookahead p)); try exact Hp; cbn [token_type_eqb].
      * eat_step p MUL q Hq. specialize (IHf _ Hq).
        destruct (factor fuel q) as [[n1 p1] | e | ]; cbn [bind]; auto.
      * eat_step p DIV q Hq. specialize (IHf _ Hq).
        destruct (factor fuel q) as [[n1 p1] | e | ]; cbn [bind]; auto.
    + intros p Hp. rewrite factor_S.
      destruct (type (lookahead p)) eqn:Ht; try (left; reflexivity).
      * eat_step p NUMBER q Hq.
        destruct (ready_number p Hp Ht) as [(n & Hn) | (e & He & Hpe)];
          [rewrite Hn; exact Hq | rewrite He; exact Hpe].
      * eat_step p ID q Hq. exact Hq.
      * eat_step p LPAREN q Hq. specialize (IHe _ Hq).
        destruct (expr fuel q) as [[n1 p1] | e | ]; cbn [bind]; auto.
        eat_step p1 RPAREN q' Hq'. exact Hq'.
Qed.

(** [Parser(Lexer(text)).parse()] returns a tree or raises a
    [SyntaxError] or the [ValueError] of a literal of too many digits. *)
Lemma parse_text_outcomes (text : string) :
  (exists n, parse_text text = Return n) \/
  (exists e, parse_text text = Raise e /\ parse_error e).
Proof.
  unfold parse_text, Parser_init.
  pose proof (well_formed_next (Lexer_init text) (tokenize_well_formed text)) as Hn.
  destruct (Lexer_next (Lexer_init text)) as [[t l] | e | ]; cbn [bind];
    [ | right; exists e; split; [reflexivity | left; exact Hn] | tauto].
  set (p := {| lexer := l; lookahead := t |}).
  pose proof (parse_not_fuel p) as Hfuel. unfold parse in *.
  pose proof (proj1 (parser_outcomes (fuel_of p)) p Hn) as Hp.
  destruct (expr (fuel_of p) p) as [[n p'] | e | ]; cbn [bind] in *;
    [ | eauto | congruence].
  destruct (token_type_eqb (type (lookahead p')) EOF); [eauto | ].
  right. eexists. split; [reflexivity | left; reflexivity].
Qed.

(** ** Evaluator *)

(** The three ways a call of [eval] on a [BinOpNode] can go. *)
Lemma eval_BinOp_cases (ev : Evaluator) (op : string) (l r : ASTNode) (v0 : value) :
  let a := eval ev l in
  let b := eval (self_after a) r in
  let w := (under Left (writes a) ++ under Right (writes b))%list in
  (exists lv rv v, outcome a = Return lv /\ outcome b = Return rv /\
      apply_op op lv rv = Return v /\
      eval ev (BinOpNode op l r v0) =
        mkPass (BinOpNode op (node_after a) (node_after b) v) (self_after b)
               (w ++ [([], v)])%list (Return v))
  \/ (exists lv rv, outcome a = Return lv /\ outcome b = Return rv /\
      (forall v, apply_op op lv rv <> Return v) /\
      eval ev (BinOpNode op l r v0) =
        mkPass (BinOpNode op (node_after a) (node_after b) v0) (self_after b)
               w (apply_op op lv rv))
  \/ (exists lv, outcome a = Return lv /\
      (forall rv, outcome b <> Return rv) /\
      eval ev (BinOpNode op l r v0) =
        mkPass (BinOpNode op (node_after a) (node_after b) v0) (self_after b)
               w (outcome b))
  \/ ((forall lv, outcome a <> Return lv) /\
      eval ev (BinOpNode op l r v0) =
        mkPass (BinOpNode op (node_after a) r v0) (self_after a)
               (under Left (writes a)) (outcome a)).
Proof.
  intros a b w. subst w b a. simpl.
  destruct (outcome (eval ev l)) as [lv | e | ] eqn:El.
  - destruct (outcome (eval (self_after (eval ev l)) r)) as [rv | e | ] eqn:Er.
    + destruct (apply_op op lv rv) as [v | e | ] eqn:Eo.
      * left. exists lv, rv, v. auto.
      * right; left. exists lv, rv. rewrite Eo. repeat split; auto; discriminate.
      * right; left. exists lv, rv. rewrite Eo. repeat split; auto; discriminate.
    + right; right; left. exists lv. repeat split; auto; discriminate.
    + right; right; left. exists lv. repeat split; auto; discriminate.
  - right; right; right. split; auto; discriminate.
  - right; right; right. split; auto; discriminate.
Qed.

Lemma as_float_not_fuel (op : string) (v : value) : as_float op v <> OutOfFuel.
Proof.
  destruct v as [ | z | f]; simpl; try discriminate.
  unfold float_of_int, finite_or_overflow.
  destruct (binary_normalize prec emax z 0 false); discriminate.
Qed.

Lemma py_arith_not_fuel op fz ff (l r : value) : py_arith op fz ff l r <> OutOfFuel.
Proof.
  destruct l as [ | a | f], r as [ | b | g]; simpl; try discriminate;
    repeat match goal with
    | |- context [as_float ?o ?v] =>
        let E := fresh "E" in
        destruct (as_float o v) eqn:E; simpl; try discriminate;
        try (exfalso; eapply as_float_not_fuel; eassumption)
    | |- context [float_of_int ?z] =>
        let E := fresh "E" in
        pose proof (as_float_not_fuel op (VInt z)) as E; simpl in E;
        destruct (float_of_int z); simpl; try discriminate; try congruence
    end.
Qed.

Lemma py_truediv_not_fuel (l r : value) : py_truediv l r <> OutOfFuel.
Proof.
  destruct l as [ | a | f], r as [ | b | g]; simpl; try discriminate.
  - destruct (b =? 0); try discriminate.
    unfold finite_or_overflow.
    destruct (SFdiv prec emax (exact_of_Z a) (exact_of_Z b)); discriminate.
  - pose proof (as_float_not_fuel "/" (VInt a)) as E; simpl in E.
    destruct (float_of_int a); simpl; try congruence.
    destruct g; discriminate.
  - pose proof (as_float_not_fuel "/" (VInt b)) as E; simpl in E.
    destruct (float_of_int b) as [g | | ]; simpl; try congruence.
    destruct g; discriminate.
  - destruct g; discriminate.
Qed.

Lemma apply_op_not_fuel (op : string) (l r : value) : apply_op op l r <> OutOfFuel.
Proof.
  unfold apply_op.
  repeat match goal with |- context [String.eqb ?a ?b] => destruct (String.eqb a b) end;
    try apply py_arith_not_fuel; try discriminate.
  destruct (py_eq_zero r); [discriminate | apply py_truediv_not_fuel].
Qed.

Lemma eval_self_after (node : ASTNode) : forall ev, self_after (eval ev node) = ev.
Proof.
  induction node as [t v | x v | op l IHl r IHr v]; intros ev.
  - reflexivity.
  - simpl. destruct (get (symtab ev) x); reflexivity.
  - destruct (eval_BinOp_cases ev op l r v)
      as [(lv & rv & w & _ & _ & _ & ->) | [(lv & rv & _ & _ & _ & ->)
         | [(lv & _ & _ & ->) | (_ & ->)]]]; simpl;
      rewrite ?IHr; apply IHl.
Qed.

Lemma eval_not_fuel (node : ASTNode) : forall ev, outcome (eval ev node) <> OutOfFuel.
Proof.
  induction node as [t v | x v | op l IHl r IHr v]; intros ev.
  - discriminate.
  - simpl. destruct (get (symtab ev) x); discriminate.
  - destruct (eval_BinOp_cases ev op l r v)
      as [(lv & rv & w & _ & _ & _ & ->) | [(lv & rv & _ & _ & _ & ->)
         | [(lv & _ & _ & ->) | (_ & ->)]]]; simpl;
      auto using apply_op_not_fuel; discriminate.
Qed.

Lemma eval_syntax (node : ASTNode) :
  forall ev, syntax_of (node_after (eval ev node)) = syntax_of node.
Proof.
  induction node as [t v | x v | op l IHl r IHr v]; intros ev.
  - reflexivity.
  - simpl. destruct (get (symtab ev) x); reflexivity.
  - destruct (eval_BinOp_cases ev op l r v)
      as [(lv & rv & w & _ & _ & _ & ->) | [(lv & rv & _ & _ & _ & ->)
         | [(lv & _ & _ & ->) | (_ & ->)]]]; simpl;
      rewrite ?IHl, ?IHr; reflexivity.
Qed.

(** *** Places *)

Lemma postorder_syntax (n m : ASTNode) :
  syntax_of n = syntax_of m -> postorder n = postorder m.
Proof.
  revert m. induction n as [t v | x v | op l IHl r IHr v];
    intros [t' v' | x' v' | op' l' r' v']; simpl; intros H; try discriminate; auto.
  injection H as _ Hl Hr. rewrite (IHl _ Hl), (IHr _ Hr). reflexivity.
Qed.

Lemma subtree_postorder (n : ASTNode) (p : path) :
  In p (postorder n) <-> subtree p n <> None.
Proof.
  revert p. induction n as [t v | x v | op l IHl r IHr v]; intros p; simpl.
  - destruct p as [ | [ | ] p]; simpl; split; intros H; try discriminate; auto;
      try (destruct H as [H | []]; discriminate); congruence.
  - destruct p as [ | [ | ] p]; simpl; split; intros H; try discriminate; auto;
      try (destruct H as [H | []]; discriminate); congruence.
  - rewrite !in_app_iff, !in_map_iff. split.
    + intros [(q & <- & Hq) | [(q & <- & Hq) | [<- | []]]]; simpl;
        try discriminate; [apply IHl | apply IHr]; assumption.
    + destruct p as [ | [ | ] p]; simpl; intros H.
      * right; right; left; reflexivity.
      * left. exists p. split; auto. apply IHl; assumption.
      * right; left. exists p. split; auto. apply IHr; assumption.
Qed.

Lemma NoDup_under (d : dir) (l : list path) :
  List.NoDup l -> List.NoDup (map (cons d) l).
Proof.
  induction 1 as [ | p l Hp _ IH]; simpl; constructor; auto.
  intros H. apply in_map_iff in H as (q & Hq & Hin).
  injection Hq as ->. contradiction.
Qed.

Lemma postorder_NoDup (n : ASTNode) : List.NoDup (postorder n).
Proof.
  induction n as [t v | x v | op l IHl r IHr v]; simpl;
    try (constructor; [intros [] | constructor]).
  apply List.NoDup_app; [apply NoDup_under, IHl | apply List.NoDup_app | ].
  - apply NoDup_under, IHr.
  - constructor; [intros [] | constructor].
  - intros p Hp [Hq | []]. subst p.
    apply in_map_iff in Hp as (q & Hq & _). discriminate.
  - intros p Hp Hq. apply in_map_iff in Hp as (q & <- & _).
    apply in_app_iff in Hq as [Hq | [Hq | []]]; [ | discriminate].
    apply in_map_iff in Hq as (q' & Hq' & _). discriminate.
Qed.

Lemma precedes_map {A B : Type} (f : A -> B) (x y : A) (l : list A) :
  precedes x y l -> precedes (f x) (f y) (map f l).
Proof.
  intros (l1 & l2 & l3 & ->). exists (map f l1), (map f l2), (map f l3).
  rewrite map_app. simpl. rewrite map_app. reflexivity.
Qed.

Lemma precedes_app_l {A : Type} (x y : A) (l k : list A) :
  precedes x y l -> precedes x y (l ++ k).
Proof.
  intros (l1 & l2 & l3 & ->). exists l1, l2, (l3 ++ k)%list.
  rewrite <- !app_assoc. simpl. rewrite <- app_assoc. reflexivity.
Qed.

Lemma precedes_app_r {A : Type} (x y : A) (l k : list A) :
  precedes x y l -> precedes x y (k ++ l).
Proof.
  intros (l1 & l2 & l3 & ->). exists (k ++ l1)%list, l2, l3.
  rewrite <- app_assoc. reflexivity.
Qed.

Lemma precedes_last {A : Type} (x y : A) (l : list A) :
  In x l -> precedes x y (l ++ [y]).
Proof.
  intros H. apply in_split in H as (l1 & l2 & ->).
  exists l1, l2, []. rewrite <- app_assoc. reflexivity.
Qed.

(** The place of a child comes before the place of its parent. *)
Lemma postorder_child_first (n : ASTNode) :
  forall (p : path) (d : dir),
    In (p ++ [d])%list (postorder n) -> precedes (p ++ [d])%list p (postorder n).
Proof.
  induction n as [t v | x v | op l IHl r IHr v]; intros p d; simpl.
  - intros [H | []]. destruct p; discriminate.
  - intros [H | []]. destruct p; discriminate.
  - rewrite !in_app_iff, !in_map_iff.
    intros [(q & Hq & Hin) | [(q & Hq & Hin) | [H | []]]].
    + destruct p as [ | d' p].
      * rewrite app_assoc. apply precedes_last.
        apply in_app_iff. left. apply in_map_iff. exists q. auto.
      * simpl in Hq. injection Hq as <- ->.
        apply precedes_app_l. apply (precedes_map (cons Left)). apply IHl, Hin.
    + destruct p as [ | d' p].
      * rewrite app_assoc. apply precedes_last.
        apply in_app_iff. right. apply in_map_iff. exists q. auto.
      * simpl in Hq. injection Hq as <- ->.
        apply precedes_app_r, precedes_app_l.
        apply (precedes_map (cons Right)). apply IHr, Hin.
    + destruct p; discriminate.
Qed.

(** *** The log of writes *)

Lemma map_fst_under (d : dir) (w : list (path * value)) :
  map fst (under d w) = map (cons d) (map fst w).
Proof.
  unfold under. rewrite !map_map. apply map_ext. intros [p v]; reflexivity.
Qed.

Lemma in_under (d : dir) (w : list (path * value)) (p : path) (v : value) :
  In (p, v) (under d w) <-> exists q, p = d :: q /\ In (q, v) w.
Proof.
  unfold under. rewrite in_map_iff. split.
  - intros ([q u] & H & Hin). injection H as <- <-. eauto.
  - intros (q & -> & Hin). exists (q, v). auto.
Qed.

Ltac eval_cases ev op l r v :=
  destruct (eval_BinOp_cases ev op l r v)
    as [(?lv & ?rv & ?w & ?El & ?Er & ?Eo & ->) | [(?lv & ?rv & ?El & ?Er & ?Eo & ->)
       | [(?lv & ?El & ?Er & ->) | (?El & ->)]]]; simpl.

(** The writes of a pass go through the places of the tree in
    post-order, and through all of them when the pass returns. *)
Lemma eval_writes_postorder (node : ASTNode) :
  forall ev, exists rest,
    postorder node = (map fst (writes (eval ev node)) ++ rest)%list /\
    (forall v, outcome (eval ev node) = Return v -> rest = []).
Proof.
  induction node as [t v | x v | op l IHl r IHr v]; intros ev.
  - exists []. split; reflexivity.
  - simpl. destruct (get (symtab ev) x); simpl.
    + exists []. split; reflexivity.
    + exists [[]]. split; [reflexivity | discriminate].
  - destruct (IHl ev) as (restl & Hl & Hl').
    destruct (IHr (self_after (eval ev l))) as (restr & Hr & Hr').
    eval_cases ev op l r v.
    + exists []. split; [ | reflexivity].
      rewrite (Hl' _ El), app_nil_r in Hl. rewrite (Hr' _ Er), app_nil_r in Hr.
      rewrite Hl, Hr. rewrite !map_app, !map_fst_under, app_nil_r, <- app_assoc.
      reflexivity.
    + exists [[]]. split; [ | intros u Hu; destruct (Eo _ Hu)].
      rewrite (Hl' _ El), app_nil_r in Hl. rewrite (Hr' _ Er), app_nil_r in Hr.
      rewrite Hl, Hr. rewrite !map_app, !map_fst_under, <- app_assoc.
      reflexivity.
    + exists (map (cons Right) restr ++ [[]])%list.
      split; [ | intros u Hu; destruct (Er _ Hu)].
      rewrite (Hl' _ El), app_nil_r in Hl.
      rewrite Hl, Hr. rewrite !map_app, !map_fst_under, <- !app_assoc.
      reflexivity.
    + exists (map (cons Left) restl ++ map (cons Right) (postorder r) ++ [[]])%list.
      split; [ | intros u Hu; destruct (El _ Hu)].
      rewrite Hl. rewrite !map_app, !map_fst_under, <- !app_assoc.
      reflexivity.
Qed.

(** No rollback: a value written during a pass is in its slot at the end
    of the pass. *)
Lemma eval_writes_stay (node : ASTNode) :
  forall ev p v, In (p, v) (writes (eval ev node)) ->
    val_at p (node_after (eval ev node)) = Some v.
Proof.
  unfold val_at.
  induction node as [t v | x v | op l IHl r IHr v]; intros ev p u.
  - simpl. intros [H | []]. injection H as <- <-. reflexivity.
  - simpl. destruct (get (symtab ev) x); simpl; [intros [H | []] | intros []].
    injection H as <- <-. reflexivity.
  - specialize (IHl ev). specialize (IHr (self_after (eval ev l))).
    eval_cases ev op l r v; rewrite ?in_app_iff, ?in_under;
      repeat match goal with
      | |- _ \/ _ -> _ => intros [H | H]; revert H
      | |- (exists _, _) -> _ => intros (q & -> & H); simpl; auto
      | |- _ = _ -> _ => intros H; injection H as <- <-; reflexivity
      | |- False -> _ => intros []
      end.
  intros [H | []]. injection H as <- <-. reflexivity.
Qed.

(** A slot the pass did not write holds what it held before. *)
Lemma eval_unwritten (node : ASTNode) :
  forall ev p, ~ In p (map fst (writes (eval ev node))) ->
    val_at p (node_after (eval ev node)) = val_at p node.
Proof.
  unfold val_at.
  induction node as [t v | x v | op l IHl r IHr v]; intros ev p.
  - reflexivity.
  - simpl. destruct (get (symtab ev) x); simpl; [ | reflexivity].
    destruct p; simpl; [intros H; destruct H; auto | reflexivity].
  - specialize (IHl ev). specialize (IHr (self_after (eval ev l))).
    eval_cases ev op l r v; rewrite ?map_app, ?map_fst_under, ?in_app_iff;
      intros H; destruct p as [ | [ | ] p]; simpl; auto;
      try (apply IHl; intros Hp; apply H; rewrite !in_map_iff; eauto 6);
      try (apply IHr; intros Hp; apply H; rewrite !in_map_iff; eauto 6).
    destruct H. simpl. auto.
Qed.

(** *** Evaluating again *)

Lemma eval_again (node : ASTNode) :
  forall ev v, outcome (eval ev node) = Return v ->
    eval ev (node_after (eval ev node)) = eval ev node.
Proof.
  induction node as [t v | x v | op l IHl r IHr v]; intros ev u.
  - reflexivity.
  - simpl. destruct (get (symtab ev) x) as [sym | ] eqn:E; simpl; [ | discriminate].
    rewrite E. reflexivity.
  - eval_cases ev op l r v; intros Hu.
    + specialize (IHl ev _ El). specialize (IHr _ _ Er).
      rewrite IHl, El, IHr, Er, Eo. reflexivity.
    + destruct (Eo _ Hu).
    + destruct (Er _ Hu).
    + destruct (El _ Hu).
Qed.

(** The slot of the node [eval] is called on is written only by a call
    that returns. *)
Lemma eval_root_written (ev : Evaluator) (node : ASTNode) :
  In [] (map fst (writes (eval ev node))) -> exists v, outcome (eval ev node) = Return v.
Proof.
  destruct node as [t v | x v | op l r v].
  - simpl. eauto.
  - simpl. destruct (get (symtab ev) x); simpl; [eauto | intros []].
  - eval_cases ev op l r v; rewrite ?map_app, ?map_fst_under, ?in_app_iff, ?in_map_iff;
      eauto;
      intros H; repeat destruct H as [H | H]; try destruct H as (q & H & _);
      discriminate.
Qed.

(** * The claims *)

Lemma apply_op_div (lv rv : value) :
  apply_op "/" lv rv =
  if py_eq_zero rv then Raise ZeroDivisionError_detectada else py_truediv lv rv.
Proof. reflexivity. Qed.

(** The quotients of the integers from 1 to 64, each checked against
    the fraction it rounds. *)
Lemma divides_to_nearest_small (a b : Z) :
  1 <= a <= 64 -> 1 <= b <= 64 -> divides_to_nearest a b = true.
Proof.
  set (range := map Z.of_nat (seq 1 64)).
  assert (H : forallb (fun x => forallb (divides_to_nearest x) range) range = true)
    by (vm_compute; reflexivity).
  assert (Hin : forall x, 1 <= x <= 64 -> In x range).
  { intros x Hx. apply in_map_iff. exists (Z.to_nat x). split; [lia | ].
    apply in_seq. lia. }
  intros Ha Hb.
  rewrite List.forallb_forall in H. specialize (H a (Hin a Ha)).
  rewrite List.forallb_forall in H. exact (H b (Hin b Hb)).
Qed.

(** C1. In a [BinOpNode] whose operator is [/] and whose two operands
    evaluate, the evaluation fails with a [ZeroDivisionError] if and
    only if the value of the right operand equals zero; otherwise the
    node performs Python's true division [left_val / right_val], whose
    result, when there is one, is a [float] and is stored in the node.
    In particular the text ["1 / 0"] fails with [ZeroDivisionError] and
    the quotient of two integers is a [float]. The division divides:
    a node that divides one integer from 1 to 64 by another returns the
    [float] nearest to their fraction, and the texts ["7 / 2"],
    ["1 / 3"], ["2 / 3"], ["10 / 4"], ["1 / 0.25"], ["7.5 / 2.5"],
    ["0.3 / 3"], ["0 / 5"] and ["x / y"] with [x = 20] and [y = 4]
    evaluate to 3.5, 0.333..., 0.666..., 2.5, 4.0, 3.0, 0.0999..., 0.0
    and 5.0. *)
Theorem division_by_zero_iff_right_operand_zero :
  (forall (ev : Evaluator) (l r : ASTNode) (v0 lv rv : value),
     outcome (eval ev l) = Return lv ->
     outcome (eval ev r) = Return rv ->
     let pass := eval ev (BinOpNode "/" l r v0) in
     (fails_with (outcome pass) ZeroDivisionError <-> py_eq_zero rv = true) /\
     (py_eq_zero rv = true -> outcome pass = Raise ZeroDivisionError_detectada) /\
     (py_eq_zero rv = false ->
        outcome pass = py_truediv lv rv /\
        forall v, outcome pass = Return v ->
                  is_float v = true /\ val (node_after pass) = v)) /\
  (exists pass, run_example "1 / 0" SymbolTable_init = Return pass /\
                outcome pass = Raise ZeroDivisionError_detectada) /\
  (forall a b v, py_truediv (VInt a) (VInt b) = Return v -> is_float v = true) /\
  py_truediv (VInt 4) (VInt 2) = Return (VFloat (S754_finite false 4503599627370496 (-51))) /\
  float_of_int 2 = Return (S754_finite false 4503599627370496 (-51)) /\
  (forall (ev : Evaluator) (ta tb : string) (v0 : value) (a b : Z),
     1 <= a <= 64 -> 1 <= b <= 64 ->
     let pass := eval ev (BinOpNode "/" (NumberNode ta (VInt a)) (NumberNode tb (VInt b)) v0) in
     exists f, outcome pass = Return (VFloat f) /\
               val (node_after pass) = VFloat f /\
               nearest_quotient a b f = true) /\
  (forall text st q,
     In (text, st, q)
        [("7 / 2", SymbolTable_init, S754_finite false 7881299347898368 (-51));
         ("1 / 3", SymbolTable_init, S754_finite false 6004799503160661 (-54));
         ("2 / 3", SymbolTable_init, S754_finite false 6004799503160661 (-53));
         ("10 / 4", SymbolTable_init, S754_finite false 5629499534213120 (-51));
         ("1 / 0.25", SymbolTable_init, S754_finite false 4503599627370496 (-50));
         ("7.5 / 2.5", SymbolTable_init, S754_finite false 6755399441055744 (-51));
         ("0.3 / 3", SymbolTable_init, S754_finite false 7205759403792793 (-56));
         ("0 / 5", SymbolTable_init, S754_zero false);
         ("x / y", fill SymbolTable_init [("x", VInt 20); ("y", VInt 4)],
          S754_finite false 5629499534213120 (-50))] ->
     exists pass, run_example text st = Return pass /\
                  outcome pass = Return (VFloat q) /\
                  val (node_after pass) = VFloat q).
Proof.
  split; [ | split; [ | split; [ | split; [ | split; [ | split]]]]].
  - intros ev l r v0 lv rv Hl Hr pass.
    assert (Hpass : outcome pass = apply_op "/" lv rv /\
                    forall v, outcome pass = Return v -> val (node_after pass) = v).
    { subst pass.
      destruct (eval_BinOp_cases ev "/" l r v0)
        as [(lv' & rv' & w & El & Er & Eo & ->) | [(lv' & rv' & El & Er & Eo & ->)
           | [(lv' & El & Er & ->) | (El & ->)]]]; simpl.
      - rewrite eval_self_after in Er. rewrite Hl in El. rewrite Hr in Er.
        injection El as <-. injection Er as <-. rewrite Eo.
        split; [reflexivity | ]. intros v H. injection H as <-. reflexivity.
      - rewrite eval_self_after in Er. rewrite Hl in El. rewrite Hr in Er.
        injection El as <-. injection Er as <-.
        split; [reflexivity | ]. intros v H. destruct (Eo _ H).
      - rewrite eval_self_after in Er. destruct (Er _ Hr).
      - destruct (El _ Hl). }
    destruct Hpass as [Hout Hval]. rewrite apply_op_div in Hout.
    destruct (py_eq_zero rv) eqn:Hz.
    + split; [ | split]; [ | auto | discriminate].
      split; [reflexivity | ]. intros _.
      exists ZeroDivisionError_detectada. auto.
    + split; [ | split]; [ | discriminate | ].
      * split; [ | discriminate].
        intros (e & He & Hc). rewrite Hout in He.
        destruct (py_truediv_not_zero_division _ _ _ Hz He) as [-> | ->]; discriminate.
      * intros _. split; [exact Hout | ]. intros v Hv. split; [ | auto].
        rewrite Hout in Hv. eapply py_truediv_float, Hv.
  - eexists. split; [vm_compute; reflexivity | reflexivity].
  - intros a b v. apply py_truediv_float.
  - vm_compute. reflexivity.
  - vm_compute. reflexivity.
  - intros ev ta tb v0 a b Ha Hb pass. subst pass.
    pose proof (divides_to_nearest_small a b Ha Hb) as Hq. unfold divides_to_nearest in Hq.
    cbn [eval outcome]. rewrite apply_op_div. cbn [py_eq_zero].
    replace (b =? 0) with false by (symmetry; apply Z.eqb_neq; lia).
    destruct (py_truediv (VInt a) (VInt b)) as [[ | z | f] | e | ]; try discriminate.
    exists f. repeat split. exact Hq.
  - intros text st q Hin.
    repeat (destruct Hin as [Hin | Hin];
            [injection Hin as <- <- <-; eexists;
             split; [vm_compute; reflexivity | split; reflexivity] | ]).
    destruct Hin.
Qed.

Lemma division_by_zero_witness :
  let ev := mkEvaluator (fill SymbolTable_init
                           [("x", VFloat (S754_zero true)); ("y", VInt 2)]) in
  outcome (eval ev (BinOpNode "/" (NumberNode "1" (VInt 1)) (IdNode "x" VNone) VNone))
    = Raise ZeroDivisionError_detectada /\
  outcome (eval ev (BinOpNode "/" (NumberNode "7" (VInt 7)) (IdNode "y" VNone) VNone))
    = Return (VFloat (S754_finite false 7881299347898368 (-51))) /\
  (exists f, outcome (eval ev (BinOpNode "/" (NumberNode "22" (VInt 22))
                                 (NumberNode "7" (VInt 7)) VNone)) = Return (VFloat f) /\
             nearest_quotient 22 7 f = true).
Proof.
  intros ev.
  destruct division_by_zero_iff_right_operand_zero as (H & _ & _ & _ & _ & Hgrid & _).
  split; [ | split].
  - refine (proj1 (proj2 (H ev (NumberNode "1" (VInt 1)) (IdNode "x" VNone) VNone
                            (VInt 1) (VFloat (S754_zero true)) _ _)) _).
    + reflexivity.
    + vm_compute. reflexivity.
    + reflexivity.
  - refine (eq_trans
              (proj1 (proj2 (proj2 (H ev (NumberNode "7" (VInt 7)) (IdNode "y" VNone) VNone
                                      (VInt 7) (VInt 2) _ _)) _)) _).
    + reflexivity.
    + vm_compute. reflexivity.
    + reflexivity.
    + vm_compute. reflexivity.
  - destruct (Hgrid ev "22" "7" VNone 22 7 ltac:(lia) ltac:(lia)) as (f & Hf & _ & Hn).
    exists f. split; [exact Hf | exact Hn].
Defined.

(** C2. The text ["(3 + 5) * 2 - 4 / 2"] evaluates in the empty table
    to the float 14.0 (the binary64 datum [7881299347898368 * 2^-49],
    which is what [float(14)] is), not to the integer 14, because [/]
    always returns a [float]; and ["3 + 5 * 2"] evaluates to the
    integer 13. *)
Theorem examples_14_float_and_13 :
  (exists pass, run_example "(3 + 5) * 2 - 4 / 2" SymbolTable_init = Return pass /\
     outcome pass = Return (VFloat (S754_finite false 7881299347898368 (-49))) /\
     outcome pass <> Return (VInt 14)) /\
  float_of_int 14 = Return (S754_finite false 7881299347898368 (-49)) /\
  7881299347898368 = 14 * 2 ^ 49 /\
  (forall l r v, py_truediv l r = Return v -> is_float v = true) /\
  (exists pass, run_example "3 + 5 * 2" SymbolTable_init = Return pass /\
     outcome pass = Return (VInt 13)).
Proof.
  split; [ | split; [ | split; [ | split]]].
  - eexists. split; [vm_compute; reflexivity | ]. split; [reflexivity | discriminate].
  - vm_compute. reflexivity.
  - reflexivity.
  - apply py_truediv_float.
  - eexists. split; [vm_compute; reflexivity | reflexivity].
Qed.

Lemma examples_14_float_and_13_witness :
  is_float (VFloat (S754_finite false 4503599627370496 (-51))) = true.
Proof.
  destruct examples_14_float_and_13 as (_ & _ & _ & H & _).
  apply (H (VInt 4) (VInt 2)). vm_compute. reflexivity.
Defined.

(** C3. Operators of one precedence level build a left-leaning chain:
    [expr] reads terms joined by [+] and [-], and [term] reads factors
    joined by [*] and [/], as the tree in which the operators are applied
    from left to right (so ["a - b - c"] is [(a - b) - c]). Precedence
    comes from the layering alone: the operands of [+] and [-] are whole
    terms, the operands of [*] and [/] are factors, and a factor is a
    number, an identifier or an expression in parentheses. *)
Theorem left_chains_and_layering :
  (forall ts0 n0 c, term_of ts0 n0 -> Forall (link_ok is_addop term_of) c ->
     expr_of (ts0 ++ chain_tokens c) (left_chain n0 c)) /\
  (forall ts0 n0 c, factor_of ts0 n0 -> Forall (link_ok is_mulop factor_of) c ->
     term_of (ts0 ++ chain_tokens c) (left_chain n0 c)) /\
  (forall n0 o1 ts1 n1 o2 ts2 n2,
     left_chain n0 [(o1, ts1, n1); (o2, ts2, n2)] =
     BinOpNode (lexeme o2) (BinOpNode (lexeme o1) n0 n1 VNone) n2 VNone) /\
  (forall lp rp ts n, type lp = LPAREN -> type rp = RPAREN -> expr_of ts n ->
     factor_of (lp :: ts ++ [rp]) n) /\
  (forall tok, type tok = ID -> factor_of [tok] (IdNode (lexeme tok) VNone)) /\
  (forall tok n, type tok = NUMBER -> NumberNode_init (lexeme tok) = Return n ->
     factor_of [tok] n) /\
  (forall ts n txt t rest, expr_of ts n -> type t = EOF ->
     parse (at_tokens txt ts t rest) = Return n) /\
  parse_text "a - b - c" =
    Return (BinOpNode "-" (BinOpNode "-" (IdNode "a" VNone) (IdNode "b" VNone) VNone)
                      (IdNode "c" VNone) VNone) /\
  parse_text "a + b * c" =
    Return (BinOpNode "+" (IdNode "a" VNone)
                      (BinOpNode "*" (IdNode "b" VNone) (IdNode "c" VNone) VNone) VNone) /\
  parse_text "a * b + c" =
    Return (BinOpNode "+" (BinOpNode "*" (IdNode "a" VNone) (IdNode "b" VNone) VNone)
                      (IdNode "c" VNone) VNone) /\
  parse_text "a / b / c * d" =
    Return (BinOpNode "*"
              (BinOpNode "/" (BinOpNode "/" (IdNode "a" VNone) (IdNode "b" VNone) VNone)
                         (IdNode "c" VNone) VNone)
              (IdNode "d" VNone) VNone).
Proof.
  split; [exact expr_chain | ].
  split; [exact term_chain | ].
  split; [reflexivity | ].
  split; [exact paren_is_factor | ].
  split; [exact id_is_factor | ].
  split; [exact number_is_factor | ].
  split; [intros ts n txt t rest; apply parse_expr_of | ].
  repeat split; vm_compute; reflexivity.
Qed.

(** The tokens of ["a - b * c - d"], read through the theorem. *)
Lemma left_chains_and_layering_witness :
  parse (at_tokens "" [mkToken ID "a"; mkToken MINUS "-"; mkToken ID "b"; mkToken MUL "*";
                       mkToken ID "c"; mkToken MINUS "-"; mkToken ID "d"] EOF_token [])
  = Return (BinOpNode "-"
              (BinOpNode "-" (IdNode "a" VNone)
                 (BinOpNode "*" (IdNode "b" VNone) (IdNode "c" VNone) VNone) VNone)
              (IdNode "d" VNone) VNone).
Proof.
  destruct left_chains_and_layering as (He & Ht & _ & _ & Hid & _ & Hp & _).
  apply Hp; [ | reflexivity].
  apply (He [mkToken ID "a"] (IdNode "a" VNone)
            [(mkToken MINUS "-", [mkToken ID "b"; mkToken MUL "*"; mkToken ID "c"],
              BinOpNode "*" (IdNode "b" VNone) (IdNode "c" VNone) VNone);
             (mkToken MINUS "-", [mkToken ID "d"], IdNode "d" VNone)]).
  - apply (Ht [mkToken ID "a"] (IdNode "a" VNone) []).
    + apply (Hid (mkToken ID "a")). reflexivity.
    + constructor.
  - constructor; [ | constructor; [ | constructor]].
    + split; [reflexivity | ].
      apply (Ht [mkToken ID "b"] (IdNode "b" VNone)
                [(mkToken MUL "*", [mkToken ID "c"], IdNode "c" VNone)]).
      * apply (Hid (mkToken ID "b")). reflexivity.
      * constructor; [ | constructor].
        split; [reflexivity | ]. apply (Hid (mkToken ID "c")). reflexivity.
    + split; [reflexivity | ].
      apply (Ht [mkToken ID "d"] (IdNode "d" VNone) []).
      * apply (Hid (mkToken ID "d")). reflexivity.
      * constructor.
Defined.

(** C4. Evaluating an [IdNode] looks its name up in the symbol table.
    The evaluation raises [NameError] for that name exactly when the
    table has no entry for it; otherwise the value of the entry is
    written to the slot of the node and returned. [get] itself is a plain
    lookup: it answers [None] for a name that is not bound and never
    raises. *)
Theorem identifier_lookup :
  (forall (ev : Evaluator) (name : string) (v0 : value),
     let pass := eval ev (IdNode name v0) in
     (outcome pass = Raise (NameError name) <-> get (symtab ev) name = None) /\
     (fails_with (outcome pass) NameError_ <-> get (symtab ev) name = None) /\
     (get (symtab ev) name = None ->
        node_after pass = IdNode name v0 /\ writes pass = []) /\
     (forall sym, get (symtab ev) name = Some sym ->
        outcome pass = Return (valor sym) /\
        node_after pass = IdNode name (valor sym) /\
        writes pass = [([], valor sym)])) /\
  (forall (st : SymbolTable) (name : string),
     get st name = table st !! name /\
     (get st name = None <-> name ∉ dom (table st))) /\
  (forall name, get SymbolTable_init name = None) /\
  (forall st name tipo v, get (add st name tipo v) name = Some (mkSymbol name tipo v)) /\
  (forall st name other tipo v, other <> name ->
     get (add st other tipo v) name = get st name).
Proof.
  split; [ | split; [ | split; [ | split]]].
  - intros ev name v0 pass. subst pass. simpl.
    destruct (get (symtab ev) name) as [sym | ] eqn:E; simpl.
    + split; [split; discriminate | ].
      split; [split; [intros (e & He & _); discriminate | discriminate] | ].
      split; [discriminate | ].
      intros sym' H. injection H as <-. auto.
    + split; [split; reflexivity | ].
      split; [split; [reflexivity | intros _; exists (NameError name); auto] | ].
      split; [auto | discriminate].
  - intros st name. unfold get. split; [reflexivity | ].
    symmetry. apply not_elem_of_dom.
  - intros name. unfold get. simpl. apply lookup_empty.
  - intros st name tipo v. unfold get, add. simpl. apply lookup_insert_eq.
  - intros st name other tipo v Hne. unfold get, add. simpl.
    apply lookup_insert_ne. exact Hne.
Qed.

Lemma identifier_lookup_witness :
  outcome (eval (mkEvaluator (add SymbolTable_init "x" "number" (VInt 5))) (IdNode "x" VNone))
    = Return (VInt 5) /\
  outcome (eval (mkEvaluator SymbolTable_init) (IdNode "z" VNone)) = Raise (NameError "z").
Proof.
  destruct identifier_lookup as (H & _).
  split.
  - destruct (H (mkEvaluator (add SymbolTable_init "x" "number" (VInt 5))) "x" VNone)
      as (_ & _ & _ & Hs).
    apply (Hs (mkSymbol "x" "number" (VInt 5))). vm_compute. reflexivity.
  - destruct (H (mkEvaluator SymbolTable_init) "z" VNone) as (Hn & _).
    apply Hn. vm_compute. reflexivity.
Defined.

(** C5. [parse] reads one [expr]; when [expr] returns and the token
    then in the lookahead is not [EOF], [parse] raises the [SyntaxError]
    for trailing input, naming that token, and when it is [EOF], [parse]
    returns the tree. So the tokens of an expression followed by a token
    that can neither end nor continue it are rejected. [factor] raises a
    [SyntaxError] on [EOF], and so do [term] and [expr], which start with
    a factor: ["3 +"] is rejected there, with the [EOF] token where the
    operand should be. *)
Theorem trailing_input_and_missing_operand :
  (forall fuel p node p',
     expr fuel p = Return (node, p') -> type (lookahead p') <> EOF ->
     parse p = Raise (SyntaxError_token_extra (lookahead p'))) /\
  (forall fuel p node p',
     expr fuel p = Return (node, p') -> type (lookahead p') = EOF ->
     parse p = Return node) /\
  (forall ts n txt t rest,
     expr_of ts n ->
     is_mulop (type t) = false -> is_addop (type t) = false -> type t <> EOF ->
     parse (at_tokens txt ts t rest) = Raise (SyntaxError_token_extra t)) /\
  (forall fuel p, type (lookahead p) = EOF ->
     factor (S fuel) p = Raise (SyntaxError_factor_inesperado (lookahead p)) /\
     term (S (S fuel)) p = Raise (SyntaxError_factor_inesperado (lookahead p)) /\
     expr (S (S (S fuel))) p = Raise (SyntaxError_factor_inesperado (lookahead p)) /\
     parse p = Raise (SyntaxError_factor_inesperado (lookahead p))) /\
  parse_text "3 +" = Raise (SyntaxError_factor_inesperado EOF_token) /\
  parse_text "1 2" = Raise (SyntaxError_token_extra (mkToken NUMBER "2")) /\
  parse_text "(1 + 2" = Raise (SyntaxError_se_esperaba RPAREN EOF_token) /\
  (forall t, class_of (SyntaxError_token_extra t) = SyntaxError /\
             class_of (SyntaxError_factor_inesperado t) = SyntaxError).
Proof.
  split; [ | split; [ | split; [ | split]]].
  - intros fuel p node p' H Ht.
    rewrite (parse_with_fuel fuel) by (rewrite H; discriminate).
    rewrite H. simpl.
    destruct (token_type_eqb (type (lookahead p')) EOF) eqn:E; [ | reflexivity].
    apply token_type_eqb_eq in E. contradiction.
  - intros fuel p node p' H Ht.
    rewrite (parse_with_fuel fuel) by (rewrite H; discriminate).
    rewrite H. simpl. rewrite Ht. reflexivity.
  - intros ts n txt t rest. apply parse_trailing.
  - intros fuel p Ht.
    assert (Hf : forall k, factor (S k) p = Raise (SyntaxError_factor_inesperado (lookahead p))).
    { intros k. rewrite factor_S, Ht. reflexivity. }
    assert (Hterm : forall k, term (S (S k)) p = Raise (SyntaxError_factor_inesperado (lookahead p))).
    { intros k. rewrite term_S, Hf. reflexivity. }
    assert (Hexpr : forall k, expr (S (S (S k))) p = Raise (SyntaxError_factor_inesperado (lookahead p))).
    { intros k. rewrite expr_S, Hterm. reflexivity. }
    repeat split; auto.
    rewrite (parse_with_fuel 3) by (rewrite Hexpr; discriminate).
    rewrite Hexpr. reflexivity.
  - repeat split; vm_compute; reflexivity.
Qed.

Lemma trailing_input_and_missing_operand_witness :
  parse (at_tokens "" [mkToken ID "a"] (mkToken NUMBER "2") [Yield EOF_token])
    = Raise (SyntaxError_token_extra (mkToken NUMBER "2")) /\
  parse (at_tokens "" [] EOF_token [])
    = Raise (SyntaxError_factor_inesperado EOF_token).
Proof.
  destruct trailing_input_and_missing_operand as (H1 & _ & _ & H4 & _).
  split.
  - apply (H1 3%nat (at_tokens "" [mkToken ID "a"] (mkToken NUMBER "2") [Yield EOF_token])
              (IdNode "a" VNone)
              (at_tokens "" [] (mkToken NUMBER "2") [Yield EOF_token])).
    + vm_compute. reflexivity.
    + simpl. discriminate.
  - apply (H4 0%nat (at_tokens "" [] EOF_token [])). reflexivity.
Defined.

(** C7. The value of a [NumberNode] is computed by its constructor from
    the text of the literal and put in the slot [val]: the integer the
    digits write when the text has no decimal point, otherwise the
    [float] nearest to the decimal fraction the text writes. On a text
    of the [NUMBER] pattern the constructor raises in one case only: the
    text has no decimal point and more than 4300 digits, where [int]
    raises [ValueError]. The [NUMBER] tokens of the lexer have texts of
    the pattern, and [factor] builds the node with that constructor. *)
Theorem number_value_at_construction :
  (forall text node, NumberNode_init text = Return node ->
     exists v, node = NumberNode text v /\
       (has_point text = false -> exists z, v = VInt z /\ py_int text = Return z) /\
       (has_point text = true -> exists f, v = VFloat f /\ py_float text = Return f)) /\
  (forall text, is_number_lexeme text = true ->
     has_point text = true \/ (String.length text <= int_max_str_digits)%nat ->
     exists v, NumberNode_init text = Return (NumberNode text v)) /\
  (forall text, is_number_lexeme text = true -> has_point text = false ->
     (int_max_str_digits < String.length text)%nat ->
     NumberNode_init text = Raise (ValueError_int_digits (String.length text))) /\
  (forall text tok, In (Yield tok) (_tokenize text) -> type tok = NUMBER ->
     is_number_lexeme (lexeme tok) = true) /\
  (forall tok n, type tok = NUMBER -> NumberNode_init (lexeme tok) = Return n ->
     factor_of [tok] n) /\
  NumberNode_init "42" = Return (NumberNode "42" (VInt 42)) /\
  NumberNode_init "007" = Return (NumberNode "007" (VInt 7)) /\
  NumberNode_init "4.0" =
    Return (NumberNode "4.0" (VFloat (S754_finite false 4503599627370496 (-50)))) /\
  NumberNode_init "0.5" =
    Return (NumberNode "0.5" (VFloat (S754_finite false 4503599627370496 (-53)))) /\
  NumberNode_init "0.1" =
    Return (NumberNode "0.1" (VFloat (S754_finite false 7205759403792794 (-56)))) /\
  parse_text "2.50" =
    Return (NumberNode "2.50" (VFloat (S754_finite false 5629499534213120 (-51)))) /\
  NumberNode_init (repeat_char 4300 "0" ++ "7") = Raise (ValueError_int_digits 4301) /\
  NumberNode_init (repeat_char 4299 "0" ++ "7") =
    Return (NumberNode (repeat_char 4299 "0" ++ "7") (VInt 7)) /\
  NumberNode_init (repeat_char 4300 "0" ++ ".5") =
    Return (NumberNode (repeat_char 4300 "0" ++ ".5")
              (VFloat (S754_finite false 4503599627370496 (-53)))).
Proof.
  split; [exact NumberNode_init_value | ].
  split; [exact NumberNode_init_lexeme | ].
  split; [exact NumberNode_init_too_long | ].
  split; [intros text tok; apply (tokenize_number_lexemes (String.length text)); lia | ].
  split; [exact number_is_factor | ].
  repeat split; vm_compute; reflexivity.
Qed.

Lemma number_value_at_construction_witness :
  (exists z, VInt 12 = VInt z /\ py_int "12" = Return z) /\
  (exists v, NumberNode_init "3.25" = Return (NumberNode "3.25" v)).
Proof.
  destruct number_value_at_construction as (H1 & H2 & _).
  split.
  - destruct (H1 "12" (NumberNode "12" (VInt 12)) eq_refl) as (v & Hv & Hi & _).
    injection Hv as <-. apply Hi. reflexivity.
  - apply (H2 "3.25"); [reflexivity | left; reflexivity].
Defined.

(** C8. When the evaluation of a tree returns, evaluating the tree again
    with the same table (the tree now carrying the values of the first
    pass) returns the same value, makes the same writes and leaves the
    same value in the slot of every node. *)
Theorem evaluation_idempotent (ev : Evaluator) (node : ASTNode) (v : value) :
  outcome (eval ev node) = Return v ->
  let first := eval ev node in
  let second := eval (self_after first) (node_after first) in
  outcome second = Return v /\
  node_after second = node_after first /\
  (forall q, val_at q (node_after second) = val_at q (node_after first)) /\
  writes second = writes first /\
  symtab (self_after second) = symtab ev.
Proof.
  intros H first second. subst first second.
  rewrite eval_self_after, (eval_again node ev v H).
  repeat split; auto. rewrite eval_self_after. reflexivity.
Qed.

Lemma evaluation_idempotent_witness :
  let ev := mkEvaluator (add SymbolTable_init "x" "number" (VInt 5)) in
  let node := BinOpNode "+" (NumberNode "3" (VInt 3))
                (BinOpNode "/" (IdNode "x" VNone) (NumberNode "2" (VInt 2)) VNone) VNone in
  outcome (eval ev (node_after (eval ev node)))
    = Return (VFloat (S754_finite false 6192449487634432 (-50))).
Proof.
  intros ev node.
  pose proof (evaluation_idempotent ev node
                (VFloat (S754_finite false 6192449487634432 (-50)))) as H.
  simpl in H. rewrite eval_self_after in H. apply H. vm_compute. reflexivity.
Defined.

(** C6 asks for an error that names the character and its position at
    every character no token pattern matches. The source differs in two
    respects. A line feed is matched by no pattern, not even [MISMATCH],
    and the lexer passes over it without an error; and the error for a
    character carries the character only, so that the same error is
    raised for ["&"] at the first and at the second place of a text. *)
Lemma lex_error_counterexample :
  (unmatched "010" = true /\
   _tokenize (String "1" (String "010" "2")) =
     [Yield (mkToken NUMBER "1"); Yield (mkToken NUMBER "2"); Yield EOF_token]) /\
  (_tokenize "&" = [Throw (SyntaxError_caracter_invalido "&")] /\
   _tokenize " &" = [Throw (SyntaxError_caracter_invalido "&")]).
Proof. repeat split; vm_compute; reflexivity. Qed.

(** C6, amended. Let a text be [pre], then a character [c], then [post],
    where [pre] lexes without error and [c] is not a line feed, starts
    no token, is not a blank and is not a word character (and, when [c]
    is a decimal point, [post] does not begin with a digit). Then the
    lexer yields the tokens of [pre] and raises the [SyntaxError] for an
    invalid character, which names [c] and nothing else. A word
    character that starts no token, such as the letter of code 233, is
    left out because [\w] takes it into an identifier that ends [pre]:
    after the text ["a"] it makes the identifier longer, while after
    ["1"] and at the start of a text it is the invalid character. *)
Theorem lex_error_names_character (pre post : string) (c : ascii) (toks : list Token) :
  _tokenize pre = (map Yield toks ++ [Yield EOF_token])%list ->
  unmatched c = true ->
  is_word c = false ->
  is_newline c = false ->
  ((c =? ".")%char = true -> starts_with_digit post = false) ->
  (_tokenize (pre ++ String c post) =
     (map Yield toks ++ [Throw (SyntaxError_caracter_invalido (String c ""))])%list /\
   class_of (SyntaxError_caracter_invalido (String c "")) = SyntaxError) /\
  (unmatched "233" = true /\ is_word "233" = true /\
   _tokenize (String "a" (String "233" "")) =
     [Yield (mkToken ID (String "a" (String "233" ""))); Yield EOF_token] /\
   _tokenize (String "1" (String "233" "")) =
     [Yield (mkToken NUMBER "1"); Throw (SyntaxError_caracter_invalido (String "233" ""))] /\
   _tokenize (String "233" "a") =
     [Throw (SyntaxError_caracter_invalido (String "233" ""))]).
Proof.
  intros Hpre Hc Hw Hn Hp. split; [split; [ | reflexivity] | ].
  - apply (tokenize_then_unmatched c post Hc Hw Hn Hp (String.length pre));
      [lia | exact Hpre].
  - repeat split; vm_compute; reflexivity.
Qed.

Lemma lex_error_names_character_witness :
  _tokenize "3 & 2" =
    [Yield (mkToken NUMBER "3"); Throw (SyntaxError_caracter_invalido "&")] /\
  parse_text "3 & 2" = Raise (SyntaxError_caracter_invalido "&").
Proof.
  split; [ | vm_compute; reflexivity].
  apply (lex_error_names_character "3 " " 2" "&" [mkToken NUMBER "3"]).
  - vm_compute. reflexivity.
  - reflexivity.
  - reflexivity.
  - reflexivity.
  - discriminate.
Defined.

(** C9 asks for every slot to be empty after parsing. The slot of a
    [NumberNode] is not: its constructor puts the number there. *)
Lemma slot_after_parsing_counterexample :
  ~ (forall text n, parse_text text = Return n ->
       forall q m, subtree q n = Some m -> val m = VNone).
Proof.
  intros H.
  specialize (H "7" (NumberNode "7" (VInt 7)) eq_refl [] (NumberNode "7" (VInt 7)) eq_refl).
  discriminate.
Qed.

(** C9, amended. Every node has a slot [val]. In a tree that [parse]
    returns the slot of every [IdNode] and [BinOpNode] is empty, and the
    slot of a [NumberNode] holds the number of its text. A call of [eval]
    writes slots in post-order: its writes go through the places of the
    tree, children before their parent, each place at most once, and
    through every place exactly once when the call returns; the value
    written to a place is the value in its slot after the call. *)
Theorem slots_after_parsing_and_single_write :
  (forall p n, parse p = Return n ->
     forall q m, subtree q n = Some m ->
       match m with
       | NumberNode t v => NumberNode_init t = Return m /\ v <> VNone
       | _ => val m = VNone
       end) /\
  (forall ev node,
     exists rest,
       postorder node = (map fst (writes (eval ev node)) ++ rest)%list /\
       (forall v, outcome (eval ev node) = Return v -> rest = [])) /\
  (forall node,
     List.NoDup (postorder node) /\
     (forall q, In q (postorder node) <-> subtree q node <> None) /\
     (forall q d, In (q ++ [d])%list (postorder node) ->
        precedes (q ++ [d])%list q (postorder node))) /\
  (forall ev node q v, In (q, v) (writes (eval ev node)) ->
     val_at q (node_after (eval ev node)) = Some v).
Proof.
  split; [ | split; [ | split]].
  - intros p n Hp q m Hq. apply as_constructed_val.
    eapply as_constructed_subtree; [ | exact Hq].
    eapply parse_constructs, Hp.
  - intros ev node. apply eval_writes_postorder.
  - intros node. split; [apply postorder_NoDup | ].
    split; [intros q; apply subtree_postorder | apply postorder_child_first].
  - intros ev node. apply eval_writes_stay.
Qed.

Lemma slots_after_parsing_and_single_write_witness :
  val (IdNode "x" VNone) = VNone /\
  val_at [Left] (node_after (eval (mkEvaluator SymbolTable_init)
                   (BinOpNode "+" (NumberNode "1" (VInt 1)) (IdNode "z" VNone) VNone)))
    = Some (VInt 1).
Proof.
  destruct slots_after_parsing_and_single_write as (H1 & _ & _ & H4).
  split.
  - assert (Hp : exists p, Parser_init (Lexer_init "x + 1") = Return p /\
                   parse p = Return (BinOpNode "+" (IdNode "x" VNone)
                                       (NumberNode "1" (VInt 1)) VNone)).
    { eexists. split; vm_compute; reflexivity. }
    destruct Hp as (p & _ & Hp).
    apply (H1 p _ Hp [Left] (IdNode "x" VNone)). reflexivity.
  - apply H4. vm_compute. left. reflexivity.
Defined.

(** C10. When a call of [eval] raises, the values it wrote before are
    still in their slots, every other slot holds what it held before the
    call (the slot of the node the call was made on among them), the
    tree is otherwise unchanged, the symbol table of the evaluator is the
    one it had, and no value is returned. *)
Theorem failed_pass_keeps_writes (ev : Evaluator) (node : ASTNode) (e : exn) :
  outcome (eval ev node) = Raise e ->
  let pass := eval ev node in
  (forall q v, In (q, v) (writes pass) -> val_at q (node_after pass) = Some v) /\
  (forall q, ~ In q (map fst (writes pass)) ->
     val_at q (node_after pass) = val_at q node) /\
  val (node_after pass) = val node /\
  syntax_of (node_after pass) = syntax_of node /\
  self_after pass = ev /\
  (forall v, outcome pass <> Return v) /\
  (exists rest, rest <> [] /\
     postorder node = (map fst (writes pass) ++ rest)%list).
Proof.
  intros H pass. subst pass.
  assert (Hroot : ~ In [] (map fst (writes (eval ev node)))).
  { intros Hin. apply eval_root_written in Hin as (v & Hv). congruence. }
  split; [apply eval_writes_stay | ].
  split; [apply eval_unwritten | ].
  split.
  { pose proof (eval_unwritten node ev [] Hroot) as Hv. unfold val_at in Hv.
    simpl in Hv. congruence. }
  split; [apply eval_syntax | ].
  split; [apply eval_self_after | ].
  split; [intros v Hv; congruence | ].
  destruct (eval_writes_postorder node ev) as (rest & Hrest & _).
  exists rest. split; [ | exact Hrest].
  intros ->. rewrite app_nil_r in Hrest.
  apply Hroot. rewrite <- Hrest. apply subtree_postorder. discriminate.
Qed.

Lemma failed_pass_keeps_writes_witness :
  let ev := mkEvaluator (add SymbolTable_init "x" "number" (VInt 5)) in
  let node := BinOpNode "/" (BinOpNode "+" (IdNode "x" VNone) (NumberNode "1" (VInt 1)) VNone)
                (NumberNode "0" (VInt 0)) VNone in
  val_at [Left] (node_after (eval ev node)) = Some (VInt 6) /\
  val_at [Left; Left] (node_after (eval ev node)) = Some (VInt 5) /\
  val_at [] (node_after (eval ev node)) = Some VNone /\
  self_after (eval ev node) = ev.
Proof.
  intros ev node.
  destruct (failed_pass_keeps_writes ev node ZeroDivisionError_detectada)
    as (Hw & Hu & _ & _ & Hs & _).
  - vm_compute. reflexivity.
  - split; [ | split; [ | split]].
    + apply Hw. vm_compute. auto.
    + apply Hw. vm_compute. auto.
    + rewrite Hu; [reflexivity | ]. vm_compute. intuition discriminate.
    + exact Hs.
Defined.

(** * More on the lexer, the parser, the evaluator and the table *)

(** ** Evaluator *)

Lemma eval_root_slot (node : ASTNode) (ev : Evaluator) (v : value) :
  outcome (eval ev node) = Return v -> val (node_after (eval ev node)) = v.
Proof.
  destruct node as [t u | x u | op l r u].
  - simpl. congruence.
  - simpl. destruct (get (symtab ev) x); simpl; congruence.
  - eval_cases ev op l r u; intros H; congruence.
Qed.

Lemma eval_subtree_value (node : ASTNode) :
  forall ev v q m,
    outcome (eval ev node) = Return v -> subtree q node = Some m ->
    exists u, outcome (eval ev m) = Return u /\
              val_at q (node_after (eval ev node)) = Some u.
Proof.
  induction node as [t u | x u | op l IHl r IHr u]; intros ev v q m Hv Hq.
  - destruct q as [ | [ | ] q]; try discriminate. injection Hq as <-. exists v. split; [exact Hv | ].
    unfold val_at. simpl. simpl in Hv. congruence.
  - destruct q as [ | [ | ] q]; try discriminate. injection Hq as <-. exists v. split; [exact Hv | ].
    unfold val_at. cbn [subtree]. f_equal. apply eval_root_slot, Hv.
  - destruct q as [ | d q].
    + injection Hq as <-. exists v. split; [exact Hv | ].
      unfold val_at. cbn [subtree]. f_equal. apply eval_root_slot, Hv.
    + revert Hv.
      eval_cases ev op l r u; intros Hv.
      * rewrite eval_self_after in *. unfold val_at in *.
        destruct d; simpl in Hq |- *; [eapply IHl | eapply IHr]; eassumption.
      * destruct (Eo _ Hv).
      * destruct (Er _ Hv).
      * destruct (El _ Hv).
Qed.

(** *** What the arithmetic raises and returns *)

Lemma py_arith_raise (op : string) fz ff (l r : value) (e : exn) :
  py_arith op fz ff l r = Raise e -> e = OverflowError \/ e = TypeError_operando op.
Proof.
  unfold py_arith.
  destruct l as [ | a | f], r as [ | b | g]; try (intros H; injection H as <-; auto; fail);
    try discriminate.
  - destruct (as_float op (VInt a)) as [x | e' | ] eqn:Ea; cbn [as_float bind];
      [discriminate | | discriminate].
    intros H; injection H as <-; eapply as_float_raise; eassumption.
  - destruct (as_float op (VInt b)) as [x | e' | ] eqn:Eb; cbn [as_float bind];
      [discriminate | | discriminate].
    intros H; injection H as <-; eapply as_float_raise; eassumption.
Qed.

Lemma py_arith_return (op : string) fz ff (l r v : value) :
  py_arith op fz ff l r = Return v ->
  l <> VNone /\ r <> VNone /\ v <> VNone /\ is_float v = is_float l || is_float r.
Proof.
  unfold py_arith.
  destruct l as [ | a | f], r as [ | b | g]; try discriminate.
  - intros H. injection H as <-. repeat split; discriminate.
  - destruct (as_float op (VInt a)); cbn [as_float bind]; try discriminate.
    intros H. injection H as <-. repeat split; discriminate.
  - destruct (as_float op (VInt b)); cbn [as_float bind]; try discriminate.
    intros H. injection H as <-. repeat split; discriminate.
  - cbn [as_float bind]. intros H. injection H as <-. repeat split; discriminate.
Qed.

Lemma py_truediv_return (l r v : value) :
  py_truediv l r = Return v -> l <> VNone /\ r <> VNone /\ is_float v = true.
Proof.
  intros H. pose proof (py_truediv_float _ _ _ H) as Hf.
  destruct l, r; try discriminate; repeat split; auto; discriminate.
Qed.

(** What the operator dispatch raises. *)
Lemma apply_op_raise (op : string) (l r : value) (e : exn) :
  apply_op op l r = Raise e ->
  e = OverflowError \/ e = TypeError_operando op \/
  (e = ZeroDivisionError_detectada /\ op = "/" /\ py_eq_zero r = true) \/
  (e = ValueError_operador op /\ known_operator op = false).
Proof.
  unfold apply_op, known_operator, py_add, py_sub, py_mul.
  destruct (String.eqb op "+") eqn:E1.
  { apply String.eqb_eq in E1. subst op. intros H.
    destruct (py_arith_raise _ _ _ _ _ _ H); auto. }
  destruct (String.eqb op "-") eqn:E2.
  { apply String.eqb_eq in E2. subst op. intros H.
    destruct (py_arith_raise _ _ _ _ _ _ H); auto. }
  destruct (String.eqb op "*") eqn:E3.
  { apply String.eqb_eq in E3. subst op. intros H.
    destruct (py_arith_raise _ _ _ _ _ _ H); auto. }
  destruct (String.eqb op "/") eqn:E4.
  { apply String.eqb_eq in E4. subst op.
    destruct (py_eq_zero r) eqn:Hz; intros H.
    - injection H as <-. right; right; left. auto.
    - destruct (py_truediv_not_zero_division _ _ _ Hz H); auto. }
  intros H. injection H as <-. right; right; right. auto.
Qed.

(** What the operator dispatch returns: never [None], and a [float] as
    soon as the operator is [/] or an operand is a [float]. *)
Lemma apply_op_return (op : string) (l r v : value) :
  apply_op op l r = Return v ->
  l <> VNone /\ r <> VNone /\ v <> VNone /\
  is_float v = String.eqb op "/" || is_float l || is_float r.
Proof.
  unfold apply_op, py_add, py_sub, py_mul.
  destruct (String.eqb op "+") eqn:E1.
  { apply String.eqb_eq in E1. subst op. apply py_arith_return. }
  destruct (String.eqb op "-") eqn:E2.
  { apply String.eqb_eq in E2. subst op. apply py_arith_return. }
  destruct (String.eqb op "*") eqn:E3.
  { apply String.eqb_eq in E3. subst op. apply py_arith_return. }
  destruct (String.eqb op "/") eqn:E4; [ | discriminate].
  destruct (py_eq_zero r); [discriminate | ].
  intros H. destruct (py_truediv_return _ _ _ H) as (Hl & Hr & Hf).
  repeat split; auto. destruct v; discriminate.
Qed.

(** *** Identifiers *)

Lemma eval_NameError (node : ASTNode) :
  forall ev x, outcome (eval ev node) = Raise (NameError x) ->
    In x (identifiers node) /\ get (symtab ev) x = None.
Proof.
  induction node as [t u | y u | op l IHl r IHr u]; intros ev x.
  - discriminate.
  - simpl. destruct (get (symtab ev) y) eqn:E; simpl; [discriminate | ].
    intros H. injection H as <-. auto.
  - eval_cases ev op l r u; intros H; try discriminate.
    + destruct (apply_op_raise _ _ _ _ H) as [? | [? | [(? & _) | (? & _)]]]; discriminate.
    + rewrite eval_self_after in *. destruct (IHr _ _ H). split; [ | assumption].
      apply in_app_iff. auto.
    + destruct (IHl _ _ H). split; [ | assumption]. apply in_app_iff. auto.
Qed.

Lemma eval_return_bound (node : ASTNode) :
  forall ev v x, outcome (eval ev node) = Return v -> In x (identifiers node) ->
    exists sym, get (symtab ev) x = Some sym.
Proof.
  induction node as [t u | y u | op l IHl r IHr u]; intros ev v x.
  - intros _ [].
  - simpl. destruct (get (symtab ev) y) eqn:E; simpl; [ | discriminate].
    intros _ [<- | []]. eauto.
  - eval_cases ev op l r u; intros H; try congruence.
    rewrite eval_self_after in *. intros Hin. apply in_app_iff in Hin as [Hin | Hin].
    + eapply IHl; eassumption.
    + eapply IHr; eassumption.
Qed.

(** *** Integers and floats *)

Lemma eval_return_type (node : ASTNode) :
  forall ev v, outcome (eval ev node) = Return v ->
    is_float v = has_float (symtab ev) node.
Proof.
  induction node as [t u | y u | op l IHl r IHr u]; intros ev v.
  - simpl. congruence.
  - simpl. destruct (get (symtab ev) y) eqn:E; simpl; [ | discriminate]. congruence.
  - eval_cases ev op l r u; intros H; try congruence.
    rewrite eval_self_after in *. injection H as <-.
    destruct (apply_op_return _ _ _ _ Eo) as (_ & _ & _ & ->).
    rewrite (IHl _ _ El), (IHr _ _ Er). reflexivity.
Qed.

(** On a tree as the parser builds it, with a table without [None],
    no [None] is returned. *)
Lemma eval_return_not_none (node : ASTNode) :
  as_constructed node ->
  forall ev v, numeric (symtab ev) -> outcome (eval ev node) = Return v -> v <> VNone.
Proof.
  destruct node as [t u | y u | op l r u]; intros Hc ev v Hn.
  - simpl. intros H. injection H as <-. apply (as_constructed_val _ Hc).
  - simpl. destruct (get (symtab ev) y) as [sym | ] eqn:E; simpl; [ | discriminate].
    intros H. injection H as <-. eapply Hn, E.
  - eval_cases ev op l r u; intros H; try congruence.
    injection H as <-. apply (apply_op_return _ _ _ _ Eo).
Qed.

(** *** Slots left by earlier passes *)

Lemma blank_eval (node : ASTNode) :
  forall ev, blank (node_after (eval ev node)) = blank node.
Proof.
  induction node as [t u | y u | op l IHl r IHr u]; intros ev.
  - reflexivity.
  - simpl. destruct (get (symtab ev) y); reflexivity.
  - eval_cases ev op l r u; rewrite ?IHl, ?IHr; reflexivity.
Qed.

Lemma eval_blank (node : ASTNode) :
  forall ev,
    outcome (eval ev (blank node)) = outcome (eval ev node) /\
    writes (eval ev (blank node)) = writes (eval ev node) /\
    (forall v, outcome (eval ev node) = Return v ->
       node_after (eval ev (blank node)) = node_after (eval ev node)).
Proof.
  induction node as [t u | y u | op l IHl r IHr u]; intros ev.
  - auto.
  - simpl. destruct (get (symtab ev) y); simpl; auto. repeat split. discriminate.
  - destruct (IHl ev) as (Hlo & Hlw & Hln). destruct (IHr ev) as (Hro & Hrw & Hrn).
    simpl. rewrite !eval_self_after, Hlo, Hlw.
    destruct (outcome (eval ev l)) as [lv | e | ] eqn:El; simpl;
      [ | repeat split; discriminate ..].
    rewrite Hro, Hrw.
    destruct (outcome (eval ev r)) as [rv | e | ] eqn:Er; simpl;
      [ | repeat split; discriminate ..].
    destruct (apply_op op lv rv) as [v | e | ]; simpl; repeat split; try discriminate.
    intros v' _. rewrite (Hln _ eq_refl), (Hrn _ eq_refl). reflexivity.
Qed.

(** *** The first unbound identifier *)

Lemma eval_NameError_first (node : ASTNode) :
  forall ev x, outcome (eval ev node) = Raise (NameError x) ->
    exists pre post,
      identifiers node = (pre ++ x :: post)%list /\
      (forall y, In y pre -> exists sym, get (symtab ev) y = Some sym) /\
      get (symtab ev) x = None.
Proof.
  induction node as [t u | y u | op l IHl r IHr u]; intros ev x.
  - discriminate.
  - simpl. destruct (get (symtab ev) y) eqn:E; simpl; [discriminate | ].
    intros H. injection H as <-. exists [], []. repeat split; auto. intros z [].
  - eval_cases ev op l r u; intros H; try discriminate.
    + destruct (apply_op_raise _ _ _ _ H) as [? | [? | [(? & _) | (? & _)]]]; discriminate.
    + rewrite eval_self_after in *.
      destruct (IHr _ _ H) as (pre & post & E & Hpre & Hx).
      exists (identifiers l ++ pre)%list, post. rewrite E, <- app_assoc.
      repeat split; auto. intros z Hz. apply in_app_iff in Hz as [Hz | Hz]; auto.
      eapply eval_return_bound; eassumption.
    + destruct (IHl _ _ H) as (pre & post & E & Hpre & Hx).
      exists pre, (post ++ identifiers r)%list. rewrite E, <- app_assoc.
      repeat split; auto.
Qed.

(** *** What a pass over a parsed tree raises *)

Lemma apply_op_TypeError (op o : string) (l r : value) :
  apply_op op l r = Raise (TypeError_operando o) -> l = VNone \/ r = VNone.
Proof.
  destruct l as [ | a | f]; auto. destruct r as [ | b | g]; auto.
  - unfold apply_op, py_add, py_sub, py_mul, py_arith, py_truediv.
    repeat (destruct (String.eqb op _); [discriminate | ]).
    destruct (String.eqb op "/"); [ | discriminate].
    destruct (py_eq_zero (VInt b)) eqn:Hz; [discriminate | ]. simpl in Hz. rewrite Hz.
    destruct (finite_or_overflow _) as [q | e | ] eqn:E; simpl; try discriminate.
    intros H. injection H as ->.
    pose proof (proj1 (finite_or_overflow_class _ (S754_zero false) _) E). discriminate.
  - assert (Ha : forall o', as_float o' (VInt a) <> Raise (TypeError_operando o)).
    { intros o' H. destruct (as_float_raise _ _ _ H) as [? | ?]; [discriminate | ].
      simpl in H. unfold float_of_int in H.
      pose proof (proj1 (finite_or_overflow_class _ (S754_zero false) _) H). discriminate. }
    unfold apply_op, py_add, py_sub, py_mul, py_arith, py_truediv.
    repeat (destruct (String.eqb op _);
            [destruct (as_float _ (VInt a)) as [x | e | ] eqn:E; cbn [as_float bind];
             try discriminate; intros H; injection H as ->; destruct (Ha _ E) | ]).
    destruct (String.eqb op "/"); [ | discriminate].
    destruct (py_eq_zero (VFloat g)) eqn:Hz; [discriminate | ].
    destruct (as_float _ (VInt a)) as [x | e | ] eqn:E; cbn [as_float bind];
      try discriminate; [rewrite Hz; discriminate | ].
    intros H; injection H as ->; destruct (Ha _ E).
  - destruct r as [ | b | g]; auto.
    + assert (Hb : forall o', as_float o' (VInt b) <> Raise (TypeError_operando o)).
      { intros o' H. destruct (as_float_raise _ _ _ H) as [? | ?]; [discriminate | ].
        simpl in H. unfold float_of_int in H.
        pose proof (proj1 (finite_or_overflow_class _ (S754_zero false) _) H). discriminate. }
      unfold apply_op, py_add, py_sub, py_mul, py_arith, py_truediv.
      repeat (destruct (String.eqb op _);
              [destruct (as_float _ (VInt b)) as [x | e | ] eqn:E; cbn [as_float bind];
               try discriminate; intros H; injection H as ->; destruct (Hb _ E) | ]).
      destruct (String.eqb op "/"); [ | discriminate].
      destruct (py_eq_zero (VInt b)) eqn:Hz; [discriminate | ].
      destruct (as_float _ (VInt b)) as [x | e | ] eqn:E; cbn [as_float bind];
        try discriminate.
      * destruct (py_eq_zero (VFloat x)); discriminate.
      * intros H; injection H as ->; destruct (Hb _ E).
    + unfold apply_op, py_add, py_sub, py_mul, py_arith, py_truediv. cbn [as_float bind].
      repeat (destruct (String.eqb op _); [discriminate | ]).
      destruct (String.eqb op "/"); [ | discriminate].
      destruct (py_eq_zero (VFloat g)); discriminate.
Qed.

Lemma eval_outcomes (node : ASTNode) :
  as_constructed node -> known_operators node = true ->
  forall ev,
    let none_bound :=
      exists x sym, In x (identifiers node) /\
        get (symtab ev) x = Some sym /\ valor sym = VNone in
    (outcome (eval ev node) = Return VNone -> none_bound) /\
    (forall e, outcome (eval ev node) = Raise e ->
       (exists x, e = NameError x) \/ e = ZeroDivisionError_detectada \/
       e = OverflowError \/ ((exists op, e = TypeError_operando op) /\ none_bound)).
Proof.
  induction node as [t u | y u | op l IHl r IHr u]; intros Hc Hk ev.
  - split; simpl.
    + intros H. injection H as ->. destruct (as_constructed_val _ Hc) as (_ & Hu).
      contradiction.
    + discriminate.
  - simpl. destruct (get (symtab ev) y) as [sym | ] eqn:E; simpl; split.
    + intros H. injection H as H. exists y, sym. auto.
    + discriminate.
    + discriminate.
    + intros e H. injection H as <-. eauto.
  - destruct Hc as (_ & Hcl & Hcr). simpl in Hk.
    apply andb_prop in Hk as [Hk Hkr]. apply andb_prop in Hk as [Hop Hkl].
    specialize (IHl Hcl Hkl ev). specialize (IHr Hcr Hkr ev).
    destruct IHl as (IHl1 & IHl2). destruct IHr as (IHr1 & IHr2).
    assert (Hleft : (exists x sym, In x (identifiers l) /\
                       get (symtab ev) x = Some sym /\ valor sym = VNone) ->
                    exists x sym, In x (identifiers (BinOpNode op l r u)) /\
                       get (symtab ev) x = Some sym /\ valor sym = VNone).
    { intros (x & sym & Hin & Hx). exists x, sym. split; [ | exact Hx].
      simpl. apply in_app_iff. auto. }
    assert (Hright : (exists x sym, In x (identifiers r) /\
                       get (symtab ev) x = Some sym /\ valor sym = VNone) ->
                    exists x sym, In x (identifiers (BinOpNode op l r u)) /\
                       get (symtab ev) x = Some sym /\ valor sym = VNone).
    { intros (x & sym & Hin & Hx). exists x, sym. split; [ | exact Hx].
      simpl. apply in_app_iff. auto. }
    cbv zeta.
    eval_cases ev op l r u; rewrite ?eval_self_after in *; split.
    + intros H. injection H as ->.
      destruct (apply_op_return _ _ _ _ Eo) as (_ & _ & Hv & _). contradiction.
    + discriminate.
    + intros H. destruct (Eo _ H).
    + intros e H.
      destruct (apply_op_raise _ _ _ _ H) as [-> | [-> | [(-> & _) | (_ & Hu)]]]; auto.
      * right; right; right. split; [eauto | ].
        destruct (apply_op_TypeError _ _ _ _ H) as [-> | ->]; auto.
      * congruence.
    + intros H. destruct (Er _ H).
    + intros e H. destruct (IHr2 _ H) as [? | [? | [? | (? & ?)]]]; auto.
      right; right; right. auto.
    + intros H. destruct (El _ H).
    + intros e H. destruct (IHl2 _ H) as [? | [? | [? | (? & ?)]]]; auto.
      right; right; right. auto.
Qed.

(** *** Integers only *)

Lemma apply_op_int (op : string) (a b : Z) :
  known_operator op = true -> String.eqb op "/" = false ->
  exists z, apply_op op (VInt a) (VInt b) = Return (VInt z).
Proof.
  unfold known_operator, apply_op, py_add, py_sub, py_mul, py_arith.
  intros Hk Hd. rewrite Hd in *.
  destruct (String.eqb op "+"); [eauto | ].
  destruct (String.eqb op "-"); [eauto | ].
  destruct (String.eqb op "*"); [eauto | ]. discriminate.
Qed.

Lemma eval_int (node : ASTNode) :
  as_constructed node -> known_operators node = true ->
  forall ev, numeric (symtab ev) -> has_float (symtab ev) node = false ->
    (exists z, outcome (eval ev node) = Return (VInt z)) \/
    (exists x, outcome (eval ev node) = Raise (NameError x)).
Proof.
  induction node as [t u | y u | op l IHl r IHr u]; intros Hc Hk ev Hn Hf.
  - left. destruct (as_constructed_val _ Hc) as (_ & Hu). simpl in *.
    destruct u; try discriminate; [contradiction | eauto].
  - simpl in *. destruct (get (symtab ev) y) as [sym | ] eqn:E; simpl; [ | eauto].
    left. pose proof (Hn _ _ E). destruct (valor sym); try discriminate;
      [contradiction | eauto].
  - destruct Hc as (_ & Hcl & Hcr). simpl in Hk, Hf.
    apply andb_prop in Hk as [Hk Hkr]. apply andb_prop in Hk as [Hop Hkl].
    apply orb_false_elim in Hf as [Hf Hfr]. apply orb_false_elim in Hf as [Hd Hfl].
    specialize (IHl Hcl Hkl ev Hn Hfl). specialize (IHr Hcr Hkr ev Hn Hfr).
    eval_cases ev op l r u; rewrite ?eval_self_after in *.
    + destruct IHl as [(a & Ha) | (x & Hx)]; [ | congruence].
      destruct IHr as [(b & Hb) | (x & Hx)]; [ | congruence].
      destruct (apply_op_int op a b Hop Hd) as (z & Hz). left. exists z. congruence.
    + destruct IHl as [(a & Ha) | (x & Hx)]; [ | congruence].
      destruct IHr as [(b & Hb) | (x & Hx)]; [ | congruence].
      destruct (apply_op_int op a b Hop Hd) as (z & Hz).
      assert (lv = VInt a) by congruence. assert (rv = VInt b) by congruence. subst.
      destruct (Eo _ Hz).
    + destruct IHr as [(b & Hb) | (x & Hx)]; [destruct (Er _ Hb) | eauto].
    + destruct IHl as [(a & Ha) | (x & Hx)]; [destruct (El _ Ha) | eauto].
Qed.

(** ** Lexer *)

(** *** What a match is made of *)

Lemma without_blanks_app (s t : string) :
  without_blanks (s ++ t) = without_blanks s ++ without_blanks t.
Proof.
  induction s as [ | c s IH]; [reflexivity | ].
  rewrite append_String. simpl. rewrite IH.
  destruct (is_blank c || is_newline c); reflexivity.
Qed.

Lemma blank_tests (c : ascii) :
  is_blank c || is_newline c = true ->
  is_digit c = false /\ is_id_start c = false /\ is_operator c = false /\
  (c =? ".")%char = false.
Proof.
  unfold is_blank, is_newline. intros H.
  apply orb_true_iff in H as [H | H]; [apply orb_true_iff in H as [H | H] | ];
    apply Ascii.eqb_eq in H; subst c; repeat split.
Qed.

Lemma blank_not_word (c : ascii) :
  is_blank c || is_newline c = true -> is_word c = false.
Proof.
  unfold is_blank, is_newline. intros H.
  apply orb_true_iff in H as [H | H]; [apply orb_true_iff in H as [H | H] | ];
    apply Ascii.eqb_eq in H; subst c; reflexivity.
Qed.

Lemma digit_solid (c : ascii) : is_digit c = true -> is_blank c || is_newline c = false.
Proof.
  intros H. destruct (is_blank c || is_newline c) eqn:E; [ | reflexivity].
  destruct (blank_tests c E) as (Hd & _). congruence.
Qed.

Lemma word_solid (c : ascii) : is_word c = true -> is_blank c || is_newline c = false.
Proof.
  intros H. destruct (is_blank c || is_newline c) eqn:E; [ | reflexivity].
  rewrite (blank_not_word c E) in H. discriminate.
Qed.

Lemma digits_solid (ds : string) : digits_only ds = true -> without_blanks ds = ds.
Proof.
  induction ds as [ | c ds IH]; [reflexivity | ]. simpl.
  intros H. apply andb_prop in H as [Hc Hd]. rewrite (digit_solid c Hc), (IH Hd). reflexivity.
Qed.

Lemma word_only_solid (ws : string) : word_only ws = true -> without_blanks ws = ws.
Proof.
  induction ws as [ | c ws IH]; [reflexivity | ]. simpl.
  intros H. apply andb_prop in H as [Hc Hd]. rewrite (word_solid c Hc), (IH Hd). reflexivity.
Qed.

Lemma paren_tests (c : ascii) :
  ((c =? "(") || (c =? ")"))%char = true ->
  is_digit c = false /\ is_id_start c = false /\ (c =? ".")%char = false.
Proof.
  intros H. apply orb_true_iff in H as [H | H];
    apply Ascii.eqb_eq in H; subst c; repeat split.
Qed.

Lemma digits_no_parens (ds : string) : digits_only ds = true -> without_parens ds = ds.
Proof.
  induction ds as [ | c ds IH]; [reflexivity | ]. simpl.
  intros H. apply andb_prop in H as [Hc Hd]. rewrite (IH Hd).
  destruct ((c =? "(") || (c =? ")"))%char eqn:E; [ | reflexivity].
  destruct (paren_tests c E) as (Hx & _). congruence.
Qed.

Lemma word_no_parens (ws : string) : word_only ws = true -> without_parens ws = ws.
Proof.
  induction ws as [ | c ws IH]; [reflexivity | ]. simpl.
  intros H. apply andb_prop in H as [Hc Hd]. rewrite (IH Hd).
  destruct ((c =? "(") || (c =? ")"))%char eqn:E; [ | reflexivity].
  apply orb_true_iff in E as [E | E]; apply Ascii.eqb_eq in E; subst c; discriminate.
Qed.

Lemma without_parens_app (s t : string) :
  without_parens (s ++ t) = without_parens s ++ without_parens t.
Proof.
  induction s as [ | c s IH]; [reflexivity | ].
  rewrite append_String. simpl. rewrite IH.
  destruct ((c =? "(") || (c =? ")"))%char; reflexivity.
Qed.

Lemma skip_word_split (s : string) :
  exists ws, s = ws ++ skip is_word s /\ word_only ws = true.
Proof.
  induction s as [ | a s (ws & Hs & Hw)]; simpl.
  - exists "". auto.
  - destruct (is_word a) eqn:Ha.
    + exists (String a ws). rewrite append_String, <- Hs. simpl. rewrite Ha. auto.
    + exists "". auto.
Qed.

(** What [\d+(\.\d+)?] takes at a digit. *)
Lemma number_match (c : ascii) (s' : string) :
  is_digit c = true ->
  exists pfx,
    String c s' = pfx ++ skip_fraction (skip is_digit s') /\
    is_number_lexeme pfx = true /\ without_blanks pfx = pfx /\
    without_parens pfx = pfx.
Proof.
  intros Hc.
  destruct (skip_digits_split s') as (ds & Hs & Hds).
  assert (Hcd : digits_only (String c ds) = true) by (simpl; rewrite Hc, Hds; reflexivity).
  destruct (skip_fraction_split (skip is_digit s')) as [E | (d & fs & Hy & Hd & Hfs)].
  - exists (String c ds). rewrite E, append_String, <- Hs.
    split; [reflexivity | ].
    split; [ | split; [apply digits_solid, Hcd | apply digits_no_parens, Hcd]].
    unfold is_number_lexeme. rewrite (digits_no_point _ Hcd), Hcd. reflexivity.
  - set (rest := skip_fraction (skip is_digit s')) in *.
    exists (String c ds ++ String "." (String d fs)).
    assert (E : String c s' = (String c ds ++ String "." (String d fs)) ++ rest).
    { rewrite Hs at 1. rewrite Hy. clear.
      induction ds as [ | a ds IH]; [reflexivity | ].
      rewrite !append_String in *. injection IH as IH. rewrite IH. reflexivity. }
    assert (Hdf : digits_only (String d fs) = true) by (simpl; rewrite Hd, Hfs; reflexivity).
    split; [exact E | ]. split; [ | split].
    + destruct (point_after_digits (String c ds) (String d fs) Hcd) as (H1 & H2 & H3).
      unfold is_number_lexeme. rewrite H1, H2, H3, Hcd. simpl. rewrite Hd, Hfs. reflexivity.
    + rewrite without_blanks_app, (digits_solid _ Hcd).
      change (without_blanks (String "." (String d fs)))
        with (String "."%char (without_blanks (String d fs))).
      rewrite (digits_solid _ Hdf). reflexivity.
    + rewrite without_parens_app, (digits_no_parens _ Hcd).
      change (without_parens (String "." (String d fs)))
        with (String "."%char (without_parens (String d fs))).
      rewrite (digits_no_parens _ Hdf). reflexivity.
Qed.

(** What [[a-zA-Z_]\w*] takes at a letter or an underscore. *)
Lemma identifier_match (c : ascii) (s' : string) :
  is_id_start c = true ->
  exists pfx,
    String c s' = pfx ++ skip is_word s' /\
    is_identifier pfx = true /\ without_blanks pfx = pfx /\
    without_parens pfx = pfx.
Proof.
  intros Hc. destruct (skip_word_split s') as (ws & Hs & Hw).
  exists (String c ws). rewrite append_String, <- Hs. split; [reflexivity | ].
  assert (Hcw : word_only (String c ws) = true).
  { simpl. unfold is_word. rewrite Hc, Hw. reflexivity. }
  split; [simpl; rewrite Hc, Hw; reflexivity | ].
  split; [apply word_only_solid, Hcw | apply word_no_parens, Hcw].
Qed.

(** *** One step of the generator *)

(** The first event of a text that begins with a character [a]: either
    a token made of a prefix of the text, the generator going on with
    what follows it; or nothing for a run of blanks or a line feed; or
    the error. *)
Lemma tokenize_step (a : ascii) (s : string) :
  (exists tok rest,
     _tokenize (String a s) = Yield tok :: _tokenize rest /\
     String a s = lexeme tok ++ rest /\
     (String.length rest <= String.length s)%nat /\
     from_lexer tok /\
     without_blanks (lexeme tok) = lexeme tok /\
     is_blank a || is_newline a = false) \/
  (exists rest,
     _tokenize (String a s) = _tokenize rest /\
     (String.length rest <= String.length s)%nat /\
     without_blanks (String a s) = without_blanks rest /\
     is_blank a || is_newline a = true /\
     (rest = skip is_blank s \/ rest = s)) \/
  (_tokenize (String a s) = [Throw (SyntaxError_caracter_invalido (String a ""))] /\
   is_blank a || is_newline a = false).
Proof.
  rewrite tokenize_String. cbv zeta.
  destruct (is_digit a) eqn:Hd.
  { left. destruct (number_match a s Hd) as (pfx & E & Hn & Hs & Hp).
    pose proof (skip_length is_digit s). pose proof (skip_fraction_length (skip is_digit s)).
    eexists (mkToken NUMBER pfx), _. rewrite E at 1. rewrite group_prefix.
    unfold from_lexer.
    repeat split; try eassumption; try discriminate; try lia.
    apply digit_solid, Hd. }
  destruct (is_id_start a) eqn:Hi.
  { left. destruct (identifier_match a s Hi) as (pfx & E & Hn & Hs & Hp).
    pose proof (skip_length is_word s).
    eexists (mkToken ID pfx), _. rewrite E at 1. rewrite group_prefix.
    unfold from_lexer.
    repeat split; try eassumption; try discriminate; try lia.
    apply word_solid. unfold is_word. rewrite Hi. reflexivity. }
  assert (Hone : forall k x,
    (a =? x)%char = true -> is_blank x || is_newline x = false ->
    from_lexer (mkToken k (String x "")) ->
    exists tok rest,
      Yield (mkToken k (group (String a s) s)) :: _tokenize s = Yield tok :: _tokenize rest /\
      String a s = lexeme tok ++ rest /\
      (String.length rest <= String.length s)%nat /\
      from_lexer tok /\
      without_blanks (lexeme tok) = lexeme tok /\
      is_blank a || is_newline a = false).
  { intros k x Hx Hb Hf. apply Ascii.eqb_eq in Hx. subst x.
    exists (mkToken k (String a "")), s. rewrite group_one.
    repeat split; auto; try apply Hf. simpl. rewrite Hb. reflexivity. }
  destruct (a =? "+")%char eqn:E1; [left; eapply Hone; eauto; repeat split; discriminate | ].
  destruct (a =? "-")%char eqn:E2; [left; eapply Hone; eauto; repeat split; discriminate | ].
  destruct (a =? "*")%char eqn:E3; [left; eapply Hone; eauto; repeat split; discriminate | ].
  destruct (a =? "/")%char eqn:E4; [left; eapply Hone; eauto; repeat split; discriminate | ].
  destruct (a =? "(")%char eqn:E5; [left; eapply Hone; eauto; repeat split; discriminate | ].
  destruct (a =? ")")%char eqn:E6; [left; eapply Hone; eauto; repeat split; discriminate | ].
  clear Hone.
  destruct (is_blank a) eqn:Hb.
  { right; left. exists (skip is_blank s). pose proof (skip_length is_blank s).
    repeat split; auto. simpl. rewrite Hb. simpl.
    clear. induction s as [ | c s IH]; simpl; [reflexivity | ].
    destruct (is_blank c) eqn:Hc; simpl; [exact IH | ]. rewrite Hc. reflexivity. }
  destruct (is_newline a) eqn:Hn.
  { right; left. exists s. repeat split; auto. simpl. rewrite Hb, Hn. reflexivity. }
  right; right. rewrite group_one. auto.
Qed.

(** *** The events of a text *)

Lemma append_assoc (s t u : string) : (s ++ t) ++ u = s ++ (t ++ u).
Proof.
  induction s as [ | c s IH]; [reflexivity | ].
  rewrite !append_String, IH. reflexivity.
Qed.

Lemma skip_blank_split (s : string) :
  exists bs, s = bs ++ skip is_blank s /\ without_blanks bs = "".
Proof.
  induction s as [ | a s (bs & Hs & Hb)]; simpl.
  - exists "". auto.
  - destruct (is_blank a) eqn:Ha.
    + exists (String a bs). rewrite append_String, <- Hs. simpl. rewrite Ha. auto.
    + exists "". auto.
Qed.

(** Lexing a text gives tokens and then either [EOF] or the error for a
    character; the tokens carry the texts of their types and spell, in
    order, the text (up to the character of the error) without its
    blanks and line feeds. *)
Lemma tokenize_shape (n : nat) :
  forall text, (String.length text <= n)%nat ->
  exists toks,
    Forall from_lexer toks /\
    ((_tokenize text = (map Yield toks ++ [Yield EOF_token])%list /\
      spell toks = without_blanks text) \/
     (exists pre c rest,
        _tokenize text =
          (map Yield toks ++ [Throw (SyntaxError_caracter_invalido (String c ""))])%list /\
        text = pre ++ String c rest /\
        spell toks = without_blanks pre /\
        is_blank c || is_newline c = false)).
Proof.
  induction n as [ | n IH]; intros [ | a s] Hn; simpl in Hn; try lia.
  - exists []. split; [constructor | ]. left. auto.
  - exists []. split; [constructor | ]. left. auto.
  - destruct (tokenize_step a s)
      as [(tok & rest & E & Ht & Hl & Hf & Hs & _) | [(rest & E & Hl & Hw & Hb & Hr) | (E & Hb)]].
    + destruct (IH rest ltac:(lia)) as (toks & Hall & [(Ev & Hsp) | (pre & c & post & Ev & Hp & Hsp & Hc)]).
      * exists (tok :: toks). split; [constructor; auto | ]. left.
        rewrite E, Ev, Ht. split; [reflexivity | ].
        rewrite without_blanks_app, Hs. simpl. rewrite Hsp. reflexivity.
      * exists (tok :: toks). split; [constructor; auto | ]. right.
        exists (lexeme tok ++ pre), c, post.
        rewrite E, Ev, Ht, Hp. split; [reflexivity | ].
        split; [symmetry; apply append_assoc | ].
        split; [ | exact Hc].
        rewrite without_blanks_app, Hs. simpl. rewrite Hsp. reflexivity.
    + destruct (IH rest ltac:(lia)) as (toks & Hall & [(Ev & Hsp) | (pre & c & post & Ev & Hp & Hsp & Hc)]).
      * exists toks. split; [exact Hall | ]. left. rewrite E, Hw. auto.
      * exists toks. split; [exact Hall | ]. right.
        assert (Hsplit : exists bs, String a s = bs ++ rest /\ without_blanks bs = "").
        { destruct Hr as [-> | ->].
          - destruct (skip_blank_split s) as (bs & Hs & Hbs).
            exists (String a bs). rewrite append_String, <- Hs. simpl. rewrite Hb. auto.
          - exists (String a ""). simpl. rewrite Hb. auto. }
        destruct Hsplit as (bs & Hs & Hbs).
        exists (bs ++ pre), c, post. rewrite E. split; [exact Ev | ].
        split; [rewrite Hs, Hp; symmetry; apply append_assoc | ].
        split; [ | exact Hc]. rewrite without_blanks_app, Hbs. exact Hsp.
    + exists []. split; [constructor | ]. right. exists "", a, s. auto.
Qed.

(** *** Blanks around a text *)

Lemma tokenize_skip_blank (s : string) : _tokenize (skip is_blank s) = _tokenize s.
Proof.
  destruct s as [ | a s]; [reflexivity | ].
  simpl skip. destruct (is_blank a) eqn:Ha; [ | reflexivity].
  rewrite (tokenize_String a s). cbv zeta.
  assert (H : is_blank a || is_newline a = true) by (rewrite Ha; reflexivity).
  destruct (blank_tests a H) as (Hd & Hi & Ho & _).
  unfold is_operator in Ho. repeat (apply orb_false_elim in Ho as [Ho ?]).
  rewrite Hd, Hi, Ha.
  repeat match goal with E : (a =? _)%char = false |- _ => rewrite E; clear E end.
  reflexivity.
Qed.

(** A blank or a line feed in front of a text does not show in its
    events. *)
Lemma tokenize_blank_first (c : ascii) (s : string) :
  is_blank c || is_newline c = true -> _tokenize (String c s) = _tokenize s.
Proof.
  intros H. rewrite tokenize_String. cbv zeta.
  destruct (blank_tests c H) as (Hd & Hi & Ho & _).
  unfold is_operator in Ho. repeat (apply orb_false_elim in Ho as [Ho ?]).
  rewrite Hd, Hi.
  repeat match goal with E : (c =? _)%char = false |- _ => rewrite E; clear E end.
  destruct (is_blank c); [apply tokenize_skip_blank | ].
  simpl in H. rewrite H. reflexivity.
Qed.

(** Nor does one behind it. *)
Lemma tokenize_blank_last (c : ascii) :
  is_blank c || is_newline c = true ->
  forall n s, (String.length s <= n)%nat -> _tokenize (s ++ String c "") = _tokenize s.
Proof.
  intros Hc. destruct (blank_tests c Hc) as (Hd & Hi & _ & Hp).
  pose proof (blank_not_word c Hc) as Hw.
  induction n as [ | n IH]; intros [ | a s] Hn; simpl in Hn; try lia;
    try (apply (tokenize_blank_first c "" Hc)).
  rewrite append_String, !tokenize_String. cbv zeta.
  pose proof (skip_length is_digit s). pose proof (skip_fraction_length (skip is_digit s)).
  pose proof (skip_length is_word s).
  destruct (is_digit a).
  { rewrite skip_app, skip_fraction_app by (auto; congruence).
    rewrite <- append_String, group_app, IH by lia. reflexivity. }
  destruct (is_id_start a).
  { rewrite skip_app by assumption.
    rewrite <- append_String, group_app, IH by lia. reflexivity. }
  repeat match goal with
         | |- context [if (a =? ?x)%char then _ else _] =>
             destruct (a =? x)%char;
             [rewrite <- append_String, group_app, IH by lia; reflexivity | ]
         end.
  destruct (is_blank a).
  { rewrite !tokenize_skip_blank. apply IH. lia. }
  destruct (is_newline a); [apply IH; lia | ].
  rewrite <- append_String, group_app. reflexivity.
Qed.

(** ** Parser *)

(** *** What the procedures consume and what they build from it *)

Lemma eat_stream (p p' : Parser) (k : token_type) :
  eat p k = Return p' -> stream p = Yield (lookahead p) :: stream p' /\ type (lookahead p) = k.
Proof.
  unfold eat, Lexer_next, stream.
  destruct (token_type_eqb (type (lookahead p)) k) eqn:E; [ | discriminate].
  apply token_type_eqb_eq in E.
  destruct (gen (lexer p)) as [ | [t | e] g]; simpl; try discriminate.
  intros H. injection H as <-. auto.
Qed.

Lemma infix_texts_app (a b : list Token) :
  infix_texts (a ++ b) = (infix_texts a ++ infix_texts b)%list.
Proof. unfold infix_texts. rewrite List.filter_app, map_app. reflexivity. Qed.

Lemma fits_lookahead (p : Parser) : fits p -> lexeme_fits (lookahead p) = true.
Proof. intros H. apply H. left. reflexivity. Qed.

Lemma fits_later (p p' : Parser) (ts : list Token) :
  stream p = (map Yield ts ++ stream p')%list -> fits p -> fits p'.
Proof.
  intros E H t Ht. apply H. rewrite E. apply in_app_iff. auto.
Qed.

Lemma operator_known (p : Parser) :
  fits p -> is_addop (type (lookahead p)) || is_mulop (type (lookahead p)) = true ->
  known_operator (lexeme (lookahead p)) = true.
Proof.
  intros H Hop. apply fits_lookahead in H. unfold lexeme_fits in H.
  destruct (type (lookahead p)); try discriminate;
    apply String.eqb_eq in H; rewrite H; reflexivity.
Qed.

Lemma consumed_then_continued (p p1 p' : Parser) (n0 n : ASTNode) :
  consumed_as p n0 p1 -> continued_as n0 p1 n p' -> consumed_as p n p'.
Proof.
  intros (ts1 & E1 & I1 & K1) (ts2 & E2 & I2 & K2).
  exists (ts1 ++ ts2)%list. split; [ | split].
  - rewrite E1, E2, map_app, <- app_assoc. reflexivity.
  - rewrite infix_texts_app, I1, I2. reflexivity.
  - intros Hp. apply K2; [eapply fits_later; eassumption | auto].
Qed.

Lemma operator_then_continued (p p1 p2 p' : Parser) (n0 r n : ASTNode) (k : token_type) :
  is_addop (type (lookahead p)) || is_mulop (type (lookahead p)) = true ->
  eat p k = Return p1 ->
  consumed_as p1 r p2 ->
  continued_as (BinOpNode_init (lexeme (lookahead p)) n0 r) p2 n p' ->
  continued_as n0 p n p'.
Proof.
  intros Hop Heat (ts1 & E1 & I1 & K1) (ts2 & E2 & I2 & K2).
  apply eat_stream in Heat as (E0 & Hk).
  exists (lookahead p :: ts1 ++ ts2)%list. split; [ | split].
  - rewrite E0, E1, E2. simpl. rewrite map_app, <- app_assoc. reflexivity.
  - rewrite I2. simpl inorder.
    change (lookahead p :: ts1 ++ ts2)%list with ([lookahead p] ++ ts1 ++ ts2)%list.
    rewrite !infix_texts_app, I1, <- !app_assoc.
    assert (Hnp : infix_texts [lookahead p] = [lexeme (lookahead p)]).
    { unfold infix_texts, is_paren. simpl.
      destruct (type (lookahead p)); try discriminate; reflexivity. }
    rewrite Hnp. reflexivity.
  - intros Hp H0.
    assert (Hp1 : fits p1) by (intros t Ht; apply Hp; rewrite E0; right; exact Ht).
    apply K2; [eapply fits_later; eassumption | ].
    simpl. rewrite (operator_known p Hp Hop), H0, (K1 Hp1). reflexivity.
Qed.

Lemma parser_consumed (fuel : nat) :
  (forall p n p', expr fuel p = Return (n, p') -> consumed_as p n p') /\
  (forall n0 p n p', expr_loop fuel n0 p = Return (n, p') -> continued_as n0 p n p') /\
  (forall p n p', term fuel p = Return (n, p') -> consumed_as p n p') /\
  (forall n0 p n p', term_loop fuel n0 p = Return (n, p') -> continued_as n0 p n p') /\
  (forall p n p', factor fuel p = Return (n, p') -> consumed_as p n p').
Proof.
  assert (Hstop : forall n0 p, continued_as n0 p n0 p).
  { intros n0 p. exists []. simpl. rewrite app_nil_r. auto. }
  induction fuel as [ | fuel (IHe & IHel & IHt & IHtl & IHf)].
  - repeat split; intros; discriminate.
  - repeat split.
    + intros p n p'. rewrite expr_S. intros H.
      bind_case E; try discriminate. destruct a as [n1 p1].
      eapply consumed_then_continued; eauto.
    + intros n0 p n p'. rewrite expr_loop_S. intros H.
      destruct (type (lookahead p)) eqn:Ht; try (injection H as <- <-; apply Hstop);
        (cbn [token_type_eqb] in H;
         bind_case E; try discriminate;
         bind_case E'; try discriminate; destruct a0 as [n1 p1];
         eapply operator_then_continued; eauto; rewrite Ht; reflexivity).
    + intros p n p'. rewrite term_S. intros H.
      bind_case E; try discriminate. destruct a as [n1 p1].
      eapply consumed_then_continued; eauto.
    + intros n0 p n p'. rewrite term_loop_S. intros H.
      destruct (type (lookahead p)) eqn:Ht; try (injection H as <- <-; apply Hstop);
        (cbn [token_type_eqb] in H;
         bind_case E; try discriminate;
         bind_case E'; try discriminate; destruct a0 as [n1 p1];
         eapply operator_then_continued; eauto; rewrite Ht; reflexivity).
    + intros p n p'. rewrite factor_S. intros H.
      destruct (type (lookahead p)) eqn:Ht; try discriminate.
      * bind_case E; try discriminate. apply eat_stream in E as (E0 & _).
        bind_case E'; try discriminate. injection H as <- <-.
        destruct (NumberNode_init_value _ _ E') as (v & -> & _).
        exists [lookahead p]. split; [exact E0 | ]. split; [ | reflexivity].
        unfold infix_texts, is_paren. simpl. rewrite Ht. reflexivity.
      * bind_case E; try discriminate. apply eat_stream in E as (E0 & _).
        injection H as <- <-.
        exists [lookahead p]. split; [exact E0 | ]. split; [ | reflexivity].
        unfold infix_texts, is_paren. simpl. rewrite Ht. reflexivity.
      * bind_case E; try discriminate. apply eat_stream in E as (E0 & _).
        bind_case E'; try discriminate. destruct a0 as [n1 p1].
        bind_case E''; try discriminate. apply eat_stream in E'' as (E2 & Hr).
        injection H as <- <-.
        destruct (IHe _ _ _ E') as (ts & E1 & I1 & K1).
        exists (lookahead p :: ts ++ [lookahead p1])%list. split; [ | split].
        -- rewrite E0, E1, E2. simpl. rewrite map_app, <- app_assoc. reflexivity.
        -- change (lookahead p :: ts ++ [lookahead p1])%list
             with ([lookahead p] ++ ts ++ [lookahead p1])%list.
           rewrite !infix_texts_app, I1.
           unfold infix_texts, is_paren. simpl. rewrite Ht, Hr. simpl.
           apply app_nil_r.
        -- intros Hp. apply K1. intros t Hin. apply Hp. rewrite E0. right. exact Hin.
Qed.

(** *** The text of the lexer is not read *)

Lemma eat_with_text (txt : string) (p : Parser) (k : token_type) :
  eat (with_text txt p) k =
  match eat p k with
  | Return p' => Return (with_text txt p')
  | Raise e => Raise e
  | OutOfFuel => OutOfFuel
  end.
Proof.
  unfold eat, with_text, Lexer_next. simpl.
  destruct (token_type_eqb (type (lookahead p)) k); [ | reflexivity].
  destruct (gen (lexer p)) as [ | [t | e] g]; reflexivity.
Qed.

Lemma parser_with_text (txt : string) (fuel : nat) :
  (forall p, expr fuel (with_text txt p) = with_text_result txt (expr fuel p)) /\
  (forall n0 p, expr_loop fuel n0 (with_text txt p)
                = with_text_result txt (expr_loop fuel n0 p)) /\
  (forall p, term fuel (with_text txt p) = with_text_result txt (term fuel p)) /\
  (forall n0 p, term_loop fuel n0 (with_text txt p)
                = with_text_result txt (term_loop fuel n0 p)) /\
  (forall p, factor fuel (with_text txt p) = with_text_result txt (factor fuel p)).
Proof.
  induction fuel as [ | fuel (IHe & IHel & IHt & IHtl & IHf)].
  - repeat split; reflexivity.
  - repeat split.
    + intros p. rewrite !expr_S, IHt.
      destruct (term fuel p) as [[n1 p1] | e | ]; simpl; auto.
    + intros n0 p. rewrite !expr_loop_S. cbn [with_text lookahead].
      destruct (type (lookahead p)); try reflexivity; cbn [token_type_eqb];
        (change {| lexer := {| text := txt; gen := gen (lexer p) |}; lookahead := lookahead p |}
           with (with_text txt p);
         rewrite eat_with_text;
         match goal with |- context [eat p ?k] => destruct (eat p k) as [q | e | ] end;
         cbn [bind with_text_result]; try reflexivity;
         rewrite IHt; destruct (term fuel q) as [[n1 p1] | e | ]; simpl; auto).
    + intros p. rewrite !term_S, IHf.
      destruct (factor fuel p) as [[n1 p1] | e | ]; simpl; auto.
    + intros n0 p. rewrite !term_loop_S. cbn [with_text lookahead].
      destruct (type (lookahead p)); try reflexivity; cbn [token_type_eqb];
        (change {| lexer := {| text := txt; gen := gen (lexer p) |}; lookahead := lookahead p |}
           with (with_text txt p);
         rewrite eat_with_text;
         match goal with |- context [eat p ?k] => destruct (eat p k) as [q | e | ] end;
         cbn [bind with_text_result]; try reflexivity;
         rewrite IHf; destruct (factor fuel q) as [[n1 p1] | e | ]; simpl; auto).
    + intros p. rewrite !factor_S. cbn [with_text lookahead].
      destruct (type (lookahead p)); try reflexivity;
        change {| lexer := {| text := txt; gen := gen (lexer p) |}; lookahead := lookahead p |}
          with (with_text txt p);
        rewrite eat_with_text;
        match goal with |- context [eat p ?k] => destruct (eat p k) as [q | e | ] end;
        cbn [bind with_text_result]; try reflexivity.
      * destruct (NumberNode_init _); reflexivity.
      * rewrite IHe. destruct (expr fuel q) as [[n1 p1] | e | ]; simpl; auto.
        rewrite eat_with_text. destruct (eat p1 RPAREN); reflexivity.
Qed.

(** Texts with the same events have the same parse. *)
Lemma parse_text_events (s t : string) :
  _tokenize s = _tokenize t -> parse_text s = parse_text t.
Proof.
  intros E. unfold parse_text, Parser_init, Lexer_init, Lexer_next. simpl. rewrite E.
  destruct (_tokenize t) as [ | [tok | e] g]; simpl; try reflexivity.
  change {| lexer := {| text := s; gen := g |}; lookahead := tok |}
    with (with_text s {| lexer := {| text := t; gen := g |}; lookahead := tok |}).
  set (p := {| lexer := {| text := t; gen := g |}; lookahead := tok |}).
  unfold parse. change (fuel_of (with_text s p)) with (fuel_of p).
  rewrite (proj1 (parser_with_text s (fuel_of p))).
  destruct (expr (fuel_of p) p) as [[n p'] | e | ]; reflexivity.
Qed.

(** *** From the text to the tree *)

Lemma events_end (ts toks : list Token) (la : Token) (g : list gen_event) (last : gen_event) :
  type la = EOF ->
  Forall from_lexer toks ->
  (map Yield ts ++ Yield la :: g = map Yield toks ++ [last])%list ->
  ts = toks /\ last = Yield la /\ g = [].
Proof.
  intros Hla. revert toks. induction ts as [ | t ts IH]; intros [ | t0 toks] Hall E; simpl in E.
  - injection E as <- <-. auto.
  - injection E as <- _. inversion Hall as [ | ? ? (_ & Hne & _) _]. contradiction.
  - injection E as _ E. destruct ts; discriminate.
  - injection E as <- E. inversion Hall as [ | ? ? _ Hall']. subst.
    destruct (IH _ Hall' E) as (-> & -> & ->). auto.
Qed.

(** A text that parses: its events are tokens and [EOF], the tokens
    spell the text without its blanks, and the tree reads, in infix
    order, as the tokens without their parentheses; its operators are
    the four [eval] knows. *)
Lemma parse_text_reads (s : string) (n : ASTNode) :
  parse_text s = Return n ->
  exists toks,
    _tokenize s = (map Yield toks ++ [Yield EOF_token])%list /\
    Forall from_lexer toks /\
    spell toks = without_blanks s /\
    inorder n = infix_texts toks /\
    known_operators n = true.
Proof.
  unfold parse_text, Parser_init, Lexer_init, Lexer_next. cbn [gen text].
  destruct (tokenize_shape (String.length s) s (le_n _))
    as (toks & Hall & Hshape).
  destruct (_tokenize s) as [ | [tok | e] g] eqn:Ev; cbn [bind]; try discriminate.
  set (p := {| lexer := {| text := s; gen := g |}; lookahead := tok |}).
  unfold parse. intros H. bind_case E; try discriminate. destruct a as [n1 p'].
  destruct (token_type_eqb (type (lookahead p')) EOF) eqn:Ht; [ | discriminate].
  apply token_type_eqb_eq in Ht. injection H as <-.
  destruct (proj1 (parser_consumed (fuel_of p)) _ _ _ E) as (ts & Es & Hread & Hk).
  change (stream p) with (Yield tok :: g) in Es. unfold stream in Es.
  assert (Hfits : fits p).
  { intros t Hin. change (stream p) with (Yield tok :: g) in Hin.
    assert (Hin' : In t toks \/ t = EOF_token).
    { destruct Hshape as [(E1 & _) | (pre & c & post & E1 & _)];
        rewrite E1 in Hin; apply in_app_iff in Hin as [Hin | [Hin | []]];
        try discriminate; try (injection Hin as <-; auto);
        apply in_map_iff in Hin as (t' & Ht' & Hin); injection Ht' as ->; auto. }
    destruct Hin' as [Hin' | ->]; [ | reflexivity].
    rewrite Forall_forall in Hall. apply Hall, list_elem_of_In, Hin'. }
  destruct Hshape as [(E1 & Hsp) | (pre & c & post & E1 & _)]; rewrite Es in E1;
    destruct (events_end _ _ _ _ _ Ht Hall E1) as (-> & Hlast & Hg); [ | discriminate].
  exists toks. repeat split; auto.
  rewrite Es, Hlast, Hg. reflexivity.
Qed.

(** *** The tree spells the text *)

Lemma join_texts_app (l k : list string) :
  join_texts (l ++ k) = join_texts l ++ join_texts k.
Proof.
  induction l as [ | s l IH]; [reflexivity | ].
  simpl. rewrite IH. symmetry. apply append_assoc.
Qed.

Lemma spell_without_parens (ts : list Token) :
  Forall from_lexer ts -> without_parens (spell ts) = join_texts (infix_texts ts).
Proof.
  induction ts as [ | t ts IH]; [reflexivity | ].
  intros H. inversion H as [ | ? ? (_ & _ & Hp) Hts]. subst.
  cbn [spell]. rewrite without_parens_app, Hp, (IH Hts).
  unfold infix_texts. cbn [List.filter].
  destruct (is_paren t); reflexivity.
Qed.

Lemma parse_text_spells (s : string) (n : ASTNode) :
  parse_text s = Return n ->
  join_texts (inorder n) = without_parens (without_blanks s).
Proof.
  intros H. destruct (parse_text_reads s n H) as (toks & _ & Hall & Hsp & Hin & _).
  rewrite Hin, <- Hsp. symmetry. apply spell_without_parens, Hall.
Qed.

(** *** Blanks around a text *)

Lemma tokenize_blanks_first (b s : string) :
  without_blanks b = "" -> _tokenize (b ++ s) = _tokenize s.
Proof.
  induction b as [ | c b IH]; [reflexivity | ].
  intros Hb. simpl in Hb. destruct (is_blank c || is_newline c) eqn:Hc; [ | discriminate].
  rewrite append_String, (tokenize_blank_first c _ Hc). apply IH, Hb.
Qed.

Lemma tokenize_blanks_last (b : string) :
  without_blanks b = "" -> forall s, _tokenize (s ++ b) = _tokenize s.
Proof.
  induction b as [ | c b IH]; intros Hb s.
  - f_equal. induction s as [ | a s IHs]; [reflexivity | ].
    rewrite append_String, IHs. reflexivity.
  - simpl in Hb. destruct (is_blank c || is_newline c) eqn:Hc; [ | discriminate].
    replace (s ++ String c b) with ((s ++ String c "") ++ b).
    + rewrite (IH Hb). apply (tokenize_blank_last c Hc (String.length s)). lia.
    + rewrite append_assoc. reflexivity.
Qed.

(** *** A text that starts with no operand *)

Lemma parse_no_operand (p : Parser) :
  match type (lookahead p) with NUMBER | ID | LPAREN => False | _ => True end ->
  parse p = Raise (SyntaxError_factor_inesperado (lookahead p)).
Proof.
  intros H.
  assert (E : expr 3 p = Raise (SyntaxError_factor_inesperado (lookahead p))).
  { rewrite expr_S, term_S, factor_S.
    destruct (type (lookahead p)); try reflexivity; destruct H. }
  rewrite (parse_with_fuel 3) by (rewrite E; discriminate).
  rewrite E. reflexivity.
Qed.

Lemma parse_text_first (s : string) (t : Token) (g : list gen_event) :
  _tokenize s = Yield t :: g ->
  match type t with NUMBER | ID | LPAREN => False | _ => True end ->
  parse_text s = Raise (SyntaxError_factor_inesperado t).
Proof.
  intros E H. unfold parse_text, Parser_init, Lexer_init, Lexer_next. cbn [gen text].
  rewrite E. cbn [bind]. apply (parse_no_operand {| lexer := _; lookahead := t |}), H.
Qed.

Lemma tokenize_blank_only (s : string) :
  without_blanks s = "" -> _tokenize s = [Yield EOF_token].
Proof.
  intros H. change s with ("" ++ s). rewrite (tokenize_blanks_last s H ""). reflexivity.
Qed.

Lemma tokenize_operator (c : ascii) (k : token_type) (s : string) :
  In (c, k) [("+"%char, PLUS); ("-"%char, MINUS); ("*"%char, MUL); ("/"%char, DIV);
             ("("%char, LPAREN); (")"%char, RPAREN)] ->
  _tokenize (String c s) = Yield (mkToken k (String c "")) :: _tokenize s.
Proof.
  intros H. rewrite tokenize_String. cbv zeta. rewrite group_one.
  repeat (destruct H as [H | H]; [injection H as <- <-; reflexivity | ]). destruct H.
Qed.

(** *** Every run that returns is a reading *)

Lemma parser_reads (fuel : nat) :
  (forall p n p', expr fuel p = Return (n, p') ->
     exists ts, stream p = (map Yield ts ++ stream p')%list /\ expr_of ts n) /\
  (forall n0 p n p', expr_loop fuel n0 p = Return (n, p') ->
     exists c, stream p = (map Yield (chain_tokens c) ++ stream p')%list /\
       Forall (link_ok is_addop term_of) c /\ n = left_chain n0 c) /\
  (forall p n p', term fuel p = Return (n, p') ->
     exists ts, stream p = (map Yield ts ++ stream p')%list /\ term_of ts n) /\
  (forall n0 p n p', term_loop fuel n0 p = Return (n, p') ->
     exists c, stream p = (map Yield (chain_tokens c) ++ stream p')%list /\
       Forall (link_ok is_mulop factor_of) c /\ n = left_chain n0 c) /\
  (forall p n p', factor fuel p = Return (n, p') ->
     exists ts, stream p = (map Yield ts ++ stream p')%list /\ factor_of ts n).
Proof.
  induction fuel as [ | fuel (IHe & IHel & IHt & IHtl & IHf)].
  - repeat split; intros; discriminate.
  - repeat split.
    + intros p n p'. rewrite expr_S. intros H.
      bind_case E; try discriminate. destruct a as [n1 p1].
      destruct (IHt _ _ _ E) as (ts0 & E0 & H0).
      destruct (IHel _ _ _ _ H) as (c & Ec & Hc & ->).
      exists (ts0 ++ chain_tokens c)%list. split.
      * rewrite E0, Ec, map_app, <- app_assoc. reflexivity.
      * apply expr_chain; assumption.
    + intros n0 p n p'. rewrite expr_loop_S. intros H.
      destruct (type (lookahead p)) eqn:Ht;
        try (injection H as <- <-; exists []; repeat split; auto; apply List.Forall_nil);
        (cbn [token_type_eqb] in H;
         bind_case E; try discriminate; apply eat_stream in E as (E0 & _);
         bind_case E'; try discriminate; destruct a0 as [n1 p1];
         destruct (IHt _ _ _ E') as (ts1 & E1 & H1);
         destruct (IHel _ _ _ _ H) as (c & Ec & Hc & ->);
         exists ((lookahead p, ts1, n1) :: c); split; [ | split];
         [ rewrite E0, E1, Ec;
           change (chain_tokens ((lookahead p, ts1, n1) :: c))
             with (lookahead p :: (ts1 ++ chain_tokens c))%list;
           simpl; rewrite map_app, <- app_assoc; reflexivity
         | constructor; [split; [rewrite Ht; reflexivity | exact H1] | exact Hc]
         | reflexivity ]).
    + intros p n p'. rewrite term_S. intros H.
      bind_case E; try discriminate. destruct a as [n1 p1].
      destruct (IHf _ _ _ E) as (ts0 & E0 & H0).
      destruct (IHtl _ _ _ _ H) as (c & Ec & Hc & ->).
      exists (ts0 ++ chain_tokens c)%list. split.
      * rewrite E0, Ec, map_app, <- app_assoc. reflexivity.
      * apply term_chain; assumption.
    + intros n0 p n p'. rewrite term_loop_S. intros H.
      destruct (type (lookahead p)) eqn:Ht;
        try (injection H as <- <-; exists []; repeat split; auto; apply List.Forall_nil);
        (cbn [token_type_eqb] in H;
         bind_case E; try discriminate; apply eat_stream in E as (E0 & _);
         bind_case E'; try discriminate; destruct a0 as [n1 p1];
         destruct (IHf _ _ _ E') as (ts1 & E1 & H1);
         destruct (IHtl _ _ _ _ H) as (c & Ec & Hc & ->);
         exists ((lookahead p, ts1, n1) :: c); split; [ | split];
         [ rewrite E0, E1, Ec;
           change (chain_tokens ((lookahead p, ts1, n1) :: c))
             with (lookahead p :: (ts1 ++ chain_tokens c))%list;
           simpl; rewrite map_app, <- app_assoc; reflexivity
         | constructor; [split; [rewrite Ht; reflexivity | exact H1] | exact Hc]
         | reflexivity ]).
    + intros p n p'. rewrite factor_S. intros H.
      destruct (type (lookahead p)) eqn:Ht; try discriminate.
      * bind_case E; try discriminate. apply eat_stream in E as (E0 & _).
        bind_case E'; try discriminate. injection H as <- <-.
        exists [lookahead p]. split; [exact E0 | ].
        apply number_is_factor; assumption.
      * bind_case E; try discriminate. apply eat_stream in E as (E0 & _).
        injection H as <- <-.
        exists [lookahead p]. split; [exact E0 | ].
        apply id_is_factor; assumption.
      * bind_case E; try discriminate. apply eat_stream in E as (E0 & _).
        bind_case E'; try discriminate. destruct a0 as [n1 p1].
        bind_case E''; try discriminate. apply eat_stream in E'' as (E2 & Hr).
        injection H as <- <-.
        destruct (IHe _ _ _ E') as (ts & E1 & H1).
        exists (lookahead p :: ts ++ [lookahead p1])%list. split.
        -- rewrite E0, E1, E2. simpl. rewrite map_app, <- app_assoc. reflexivity.
        -- apply paren_is_factor; assumption.
Qed.

Lemma parser_at_tokens (s : string) (toks : list Token) (t : Token) :
  _tokenize s = (map Yield toks ++ [Yield t])%list ->
  Parser_init (Lexer_init s) = Return (at_tokens s toks t []).
Proof.
  intros E. unfold Parser_init, Lexer_init, Lexer_next. cbn [gen text]. rewrite E.
  destruct toks; reflexivity.
Qed.

(** A text parses to a tree exactly when [expr] reads its tokens as that
    tree. *)
Lemma parse_text_expr_of (s : string) (toks : list Token) (n : ASTNode) :
  _tokenize s = (map Yield toks ++ [Yield EOF_token])%list ->
  parse_text s = Return n <-> expr_of toks n.
Proof.
  intros Ev. split.
  - intros H. destruct (parse_text_reads s n H) as (toks' & Ev' & Hall & _).
    rewrite Ev in Ev'. apply app_inj_tail in Ev' as [Ev' _].
    assert (toks = toks').
    { clear -Ev'. revert toks' Ev'. induction toks as [ | a l IH]; intros [ | b k] E;
        try discriminate; [reflexivity | ]. injection E as <- E. f_equal. auto. }
    subst toks'. clear Ev'.
    unfold parse_text in H. rewrite (parser_at_tokens _ _ _ Ev) in H. cbn [bind] in H.
    unfold parse in H. bind_case E; try discriminate. destruct a as [n1 p'].
    destruct (token_type_eqb (type (lookahead p')) EOF) eqn:Ht; [ | discriminate].
    apply token_type_eqb_eq in Ht. injection H as <-.
    destruct (proj1 (parser_reads _) _ _ _ E) as (ts & Es & Hr).
    assert (Hs : stream (at_tokens s toks EOF_token []) =
                 (map Yield toks ++ [Yield EOF_token])%list).
    { destruct toks; reflexivity. }
    rewrite Hs in Es. unfold stream in Es. symmetry in Es.
    destruct (events_end _ _ _ _ _ Ht Hall Es) as (-> & _). exact Hr.
  - intros H. unfold parse_text. rewrite (parser_at_tokens _ _ _ Ev). cbn [bind].
    apply parse_expr_of; [exact H | reflexivity].
Qed.

(** *** Texts put together *)

(** A text that lexes without error, followed by a character that
    continues none of its tokens: the tokens of the text, then the
    events of what follows. *)
Lemma tokenize_app (c : ascii) (tail : string) :
  is_word c = false ->
  ((c =? ".")%char = true -> starts_with_digit tail = false) ->
  forall n pre toks, (String.length pre <= n)%nat ->
    _tokenize pre = (map Yield toks ++ [Yield EOF_token])%list ->
    _tokenize (pre ++ String c tail) = (map Yield toks ++ _tokenize (String c tail))%list.
Proof.
  intros Hw Hp.
  assert (Hd : is_digit c = false).
  { unfold is_word in Hw. apply orb_false_elim in Hw as [Hw _].
    apply orb_false_elim in Hw. tauto. }
  induction n as [ | n IH]; intros [ | a pre] toks Hn H; simpl in Hn; try lia.
  - destruct toks as [ | t [ | ]]; try discriminate. reflexivity.
  - destruct toks as [ | t [ | ]]; try discriminate. reflexivity.
  - rewrite append_String. rewrite (tokenize_String a) in H |- *. cbv zeta in H |- *.
    assert (Hone : forall k,
      Yield (mkToken k (group (String a pre) pre)) :: _tokenize pre
        = (map Yield toks ++ [Yield EOF_token])%list ->
      Yield (mkToken k (group (String a (pre ++ String c tail)) (pre ++ String c tail)))
        :: _tokenize (pre ++ String c tail)
        = (map Yield toks ++ _tokenize (String c tail))%list).
    { intros k Hk. apply yields_cons in Hk as (toks' & -> & Hk); [ | apply tokenize_nonempty].
      rewrite <- append_String, group_app. simpl. f_equal. apply IH; [lia | exact Hk]. }
    destruct (is_digit a).
    + rewrite skip_app, skip_fraction_app by assumption.
      apply yields_cons in H as (toks' & -> & H); [ | apply tokenize_nonempty].
      rewrite <- append_String, group_app. simpl. f_equal. apply IH; [ | exact H].
      pose proof (skip_fraction_length (skip is_digit pre)).
      pose proof (skip_length is_digit pre). lia.
    + destruct (is_id_start a).
      * rewrite skip_app by assumption.
        apply yields_cons in H as (toks' & -> & H); [ | apply tokenize_nonempty].
        rewrite <- append_String, group_app. simpl. f_equal. apply IH; [ | exact H].
        pose proof (skip_length is_word pre). lia.
      * repeat match goal with
               | |- context [if (a =? ?x)%char then _ else _] =>
                   destruct (a =? x)%char; [apply Hone, H | ]
               end.
        destruct (is_blank a).
        -- rewrite tokenize_skip_blank in H |- *. apply IH; [lia | exact H].
        -- destruct (is_newline a).
           ++ apply IH; [lia | exact H].
           ++ destruct toks as [ | t [ | ]]; discriminate.
Qed.

Lemma tokenize_parens (s : string) (toks : list Token) (tail : string) :
  _tokenize s = (map Yield toks ++ [Yield EOF_token])%list ->
  _tokenize ("(" ++ s ++ String ")" tail) =
  (Yield (mkToken LPAREN "(") :: map Yield toks ++
   Yield (mkToken RPAREN ")") :: _tokenize tail)%list.
Proof.
  intros H. change ("(" ++ s ++ String ")" tail) with (String "(" (s ++ String ")" tail)).
  rewrite (tokenize_operator "(" LPAREN) by (simpl; auto 10).
  rewrite (tokenize_app ")" tail eq_refl ltac:(discriminate) _ s toks (le_n _) H).
  rewrite (tokenize_operator ")" RPAREN) by (simpl; auto 10). reflexivity.
Qed.

(** Parentheses around a text that parses leave its tree as it is. *)
Lemma parse_text_parens (s : string) (n : ASTNode) :
  parse_text s = Return n -> parse_text ("(" ++ s ++ ")") = Return n.
Proof.
  intros H. destruct (parse_text_reads s n H) as (toks & Ev & _).
  apply (parse_text_expr_of _ _ _ Ev) in H.
  pose proof (tokenize_parens s toks "" Ev) as E.
  change (_tokenize "") with [Yield EOF_token] in E.
  apply (parse_text_expr_of _ (mkToken LPAREN "(" :: toks ++ [mkToken RPAREN ")"])).
  - rewrite E. simpl. rewrite map_app, <- app_assoc. reflexivity.
  - apply term_is_expr, factor_is_term, paren_is_factor; auto.
Qed.

(** Two texts that parse, each between parentheses, with an operator
    between them: the tree of the operator over the two trees. *)
Lemma parse_text_operator (s1 s2 : string) (n1 n2 : ASTNode) (c : ascii) (k : token_type) :
  In (c, k) [("+"%char, PLUS); ("-"%char, MINUS); ("*"%char, MUL); ("/"%char, DIV)] ->
  parse_text s1 = Return n1 -> parse_text s2 = Return n2 ->
  parse_text ("(" ++ s1 ++ ")" ++ String c "" ++ "(" ++ s2 ++ ")") =
  Return (BinOpNode (String c "") n1 n2 VNone).
Proof.
  intros Hc H1 H2.
  destruct (parse_text_reads s1 n1 H1) as (toks1 & Ev1 & _).
  destruct (parse_text_reads s2 n2 H2) as (toks2 & Ev2 & _).
  apply (parse_text_expr_of _ _ _ Ev1) in H1. apply (parse_text_expr_of _ _ _ Ev2) in H2.
  set (lp := mkToken LPAREN "("). set (rp := mkToken RPAREN ")").
  set (op := mkToken k (String c "")).
  assert (F1 : factor_of (lp :: toks1 ++ [rp]) n1) by (apply paren_is_factor; auto).
  assert (F2 : factor_of (lp :: toks2 ++ [rp]) n2) by (apply paren_is_factor; auto).
  apply (parse_text_expr_of _ ((lp :: toks1 ++ [rp]) ++ chain_tokens [(op, lp :: toks2 ++ [rp], n2)])).
  - change ("(" ++ s1 ++ ")" ++ String c "" ++ "(" ++ s2 ++ ")")
      with ("(" ++ s1 ++ String ")" (String c ("(" ++ s2 ++ String ")" ""))).
    rewrite (tokenize_parens s1 toks1 _ Ev1).
    rewrite (tokenize_operator c k)
      by (simpl in Hc |- *; intuition).
    rewrite (tokenize_parens s2 toks2 _ Ev2).
    change (_tokenize "") with [Yield EOF_token].
    unfold chain_tokens. simpl. rewrite !map_app. simpl.
    rewrite app_nil_r, !map_app. simpl. rewrite <- !app_assoc. simpl.
    rewrite <- ?app_assoc. reflexivity.
  - change (BinOpNode (String c "") n1 n2 VNone)
      with (left_chain n1 [(op, lp :: toks2 ++ [rp], n2)]).
    simpl in Hc. destruct Hc as [Hc | [Hc | [Hc | [Hc | []]]]]; injection Hc as Hc Hk.
    + apply expr_chain; [apply factor_is_term, F1 | ].
      constructor; [ | constructor]. split; [subst op k; reflexivity | apply factor_is_term, F2].
    + apply expr_chain; [apply factor_is_term, F1 | ].
      constructor; [ | constructor]. split; [subst op k; reflexivity | apply factor_is_term, F2].
    + apply term_is_expr, term_chain; [exact F1 | ].
      constructor; [ | constructor]. split; [subst op k; reflexivity | exact F2].
    + apply term_is_expr, term_chain; [exact F1 | ].
      constructor; [ | constructor]. split; [subst op k; reflexivity | exact F2].
Qed.

(** ** Symbol table *)

Lemma get_add (st : SymbolTable) (x t : string) (v : value) (y : string) :
  get (add st x t v) y = if String.eqb x y then Some (mkSymbol x t v) else get st y.
Proof.
  unfold get, add. cbn [table].
  destruct (String.eqb x y) eqn:E.
  - apply String.eqb_eq in E. subst y. apply lookup_insert_eq.
  - apply String.eqb_neq in E. apply lookup_insert_ne, E.
Qed.

Lemma fill_app (st : SymbolTable) (l k : list (string * value)) :
  fill st (l ++ k) = fill (fill st l) k.
Proof. unfold fill. apply fold_left_app. Qed.

Lemma fill_other (symbols : list (string * value)) :
  forall st x, ~ In x (map fst symbols) -> get (fill st symbols) x = get st x.
Proof.
  induction symbols as [ | [y v] symbols IH]; intros st x Hx; [reflexivity | ].
  cbn [fill fold_left fst snd]. change (fold_left _ symbols ?s) with (fill s symbols).
  rewrite IH by (intros H; apply Hx; right; exact H).
  rewrite get_add. destruct (String.eqb y x) eqn:E; [ | reflexivity].
  apply String.eqb_eq in E. destruct Hx. left. exact E.
Qed.

Lemma fill_last (st : SymbolTable) (pre post : list (string * value))
    (x : string) (v : value) :
  ~ In x (map fst post) ->
  get (fill st (pre ++ (x, v) :: post)) x = Some (mkSymbol x "number" v).
Proof.
  intros Hx. rewrite fill_app. cbn [fill fold_left fst snd].
  change (fold_left _ post ?s) with (fill s post).
  rewrite (fill_other post _ x Hx), get_add, String.eqb_refl. reflexivity.
Qed.

Lemma fill_get (symbols : list (string * value)) :
  forall st x sym, get (fill st symbols) x = Some sym ->
    get st x = Some sym \/
    (sym = mkSymbol x "number" (valor sym) /\ In (x, valor sym) symbols).
Proof.
  induction symbols as [ | [y v] symbols IH]; intros st x sym H; [auto | ].
  cbn [fill fold_left fst snd] in H. change (fold_left _ symbols ?s) with (fill s symbols) in H.
  destruct (IH _ _ _ H) as [H' | (Hs & Hin)].
  - rewrite get_add in H'. destruct (String.eqb y x) eqn:E; [ | auto].
    apply String.eqb_eq in E. subst y. injection H' as <-. right. simpl. auto.
  - right. split; [exact Hs | right; exact Hin].
Qed.

Lemma fill_numeric (symbols : list (string * value)) (st : SymbolTable) :
  numeric st -> (forall x v, In (x, v) symbols -> v <> VNone) ->
  numeric (fill st symbols).
Proof.
  intros Hst Hs x sym H. destruct (fill_get _ _ _ _ H) as [H' | (_ & Hin)].
  - eapply Hst, H'.
  - eapply Hs, Hin.
Qed.

Lemma numeric_init : numeric SymbolTable_init.
Proof. intros x sym H. unfold get, SymbolTable_init in H. cbn [table] in H.
  rewrite lookup_empty in H. discriminate. Qed.

(** * Further properties *)

Lemma parse_text_constructs (s : string) (n : ASTNode) :
  parse_text s = Return n -> as_constructed n.
Proof.
  unfold parse_text. destruct (Parser_init (Lexer_init s)) as [p | e | ]; cbn [bind];
    try discriminate. apply parse_constructs.
Qed.

(** ** Lexer *)

(** X1. Lexing a text gives tokens and then either the [EOF] token or
    the error for one character. Every token carries a text its pattern
    matches, none of them is [EOF], and the texts of the tokens, one
    after the other, are the text without its spaces, tabs and line
    feeds; when there is an error, they are the text before the
    character of the error, which is no space, tab or line feed. *)
Theorem lexer_tokens_spell_text (text : string) :
  exists toks,
    Forall (fun t => lexeme_fits t = true /\ type t <> EOF) toks /\
    ((_tokenize text = (map Yield toks ++ [Yield EOF_token])%list /\
      spell toks = without_blanks text) \/
     (exists pre c rest,
        _tokenize text =
          (map Yield toks ++ [Throw (SyntaxError_caracter_invalido (String c ""))])%list /\
        text = pre ++ String c rest /\
        spell toks = without_blanks pre /\
        is_blank c || is_newline c = false)).
Proof.
  destruct (tokenize_shape (String.length text) text (le_n _)) as (toks & Hall & H).
  exists toks. split; [ | exact H].
  eapply Forall_impl; [exact Hall | ]. intros t (Hf & Hk & _). auto.
Qed.

(** X2. Spaces, tabs and line feeds before and after a text change
    neither the events of the lexer nor the outcome of the parser. *)
Theorem blanks_around_text_are_skipped (a s b : string) :
  without_blanks a = "" -> without_blanks b = "" ->
  _tokenize (a ++ s ++ b) = _tokenize s /\
  parse_text (a ++ s ++ b) = parse_text s.
Proof.
  intros Ha Hb.
  assert (E : _tokenize (a ++ s ++ b) = _tokenize s).
  { rewrite (tokenize_blanks_first a _ Ha). apply tokenize_blanks_last, Hb. }
  split; [exact E | apply parse_text_events, E].
Qed.

Lemma blanks_around_text_are_skipped_witness :
  _tokenize (" " ++ "1+2" ++ String "010" (String "009" "")) = _tokenize "1+2" /\
  parse_text (" " ++ "1+2" ++ String "010" (String "009" "")) = parse_text "1+2".
Proof.
  apply (blanks_around_text_are_skipped " " "1+2" (String "010" (String "009" "")));
    reflexivity.
Defined.

(** ** Parser *)

(** X3. The recursion limit of the interpreter aside, which is not
    modelled, [Parser(Lexer(text)).parse()] has three outcomes: it
    returns a tree, it raises a [SyntaxError], or it raises the
    [ValueError] of [int] on an integer literal of more than 4300
    digits. The parser never resumes a finished generator
    ([StopIteration]), and [int] and [float] never find the text of a
    [NUMBER] token malformed. *)
Theorem parse_raises_syntax_or_digit_limit (text : string) :
  (exists n, parse_text text = Return n) \/
  (exists e, parse_text text = Raise e /\ class_of e = SyntaxError) \/
  (exists d, parse_text text = Raise (ValueError_int_digits d) /\
             (int_max_str_digits < d)%nat).
Proof.
  destruct (parse_text_outcomes text) as [H | (e & He & [Hc | (d & -> & Hd)])]; eauto.
Qed.

(** X4. The tree of a text that parses reads, in infix order, as the
    text without its blanks, line feeds and parentheses: the texts of
    its leaves and operators, from left to right, spell it. Every
    operator of the tree is one of [+], [-], [*] and [/]. *)
Theorem parsed_tree_spells_text (s : string) (n : ASTNode) :
  parse_text s = Return n ->
  join_texts (inorder n) = without_parens (without_blanks s) /\
  known_operators n = true.
Proof.
  intros H. split; [apply parse_text_spells, H | ].
  destruct (parse_text_reads s n H) as (toks & _ & _ & _ & _ & Hk). exact Hk.
Qed.

Lemma parsed_tree_spells_text_witness :
  exists n, parse_text "(3 + x) * 2.5" = Return n /\
            join_texts (inorder n) = "3+x*2.5".
Proof.
  eexists. split; [vm_compute; reflexivity | ].
  refine (proj1 (parsed_tree_spells_text "(3 + x) * 2.5" _ _)).
  vm_compute. reflexivity.
Defined.

(** X5. The parser reads the text through the tokens only: two texts
    with the same events of the lexer have the same outcome of
    [parse], tree or error. *)
Theorem same_events_same_parse (s t : string) :
  _tokenize s = _tokenize t -> parse_text s = parse_text t.
Proof. apply parse_text_events. Qed.

Lemma same_events_same_parse_witness :
  parse_text "a  *( b+1 )" = parse_text "a*(b+1)".
Proof. apply (same_events_same_parse "a  *( b+1 )" "a*(b+1)"). vm_compute. reflexivity. Defined.

(** X6. A text with nothing but spaces, tabs and line feeds, the empty
    text among them, is rejected by [factor] at the [EOF] token. *)
Theorem blank_text_is_rejected (s : string) :
  without_blanks s = "" ->
  parse_text s = Raise (SyntaxError_factor_inesperado EOF_token).
Proof.
  intros H. apply (parse_text_first s EOF_token []); [ | exact I].
  apply tokenize_blank_only, H.
Qed.

Lemma blank_text_is_rejected_witness :
  parse_text "" = Raise (SyntaxError_factor_inesperado EOF_token) /\
  parse_text "  " = Raise (SyntaxError_factor_inesperado EOF_token).
Proof. split; [apply (blank_text_is_rejected "") | apply (blank_text_is_rejected "  ")]; reflexivity. Defined.

(** X7. There is no unary sign: a text whose first character after the
    blanks is [+], [-], [*], [/] or [)] is rejected by [factor] at the
    token of that character, whatever follows it. *)
Theorem leading_operator_is_rejected (b : string) (c : ascii) (k : token_type) (s : string) :
  without_blanks b = "" ->
  In (c, k) [("+"%char, PLUS); ("-"%char, MINUS); ("*"%char, MUL); ("/"%char, DIV);
             (")"%char, RPAREN)] ->
  parse_text (b ++ String c s) =
  Raise (SyntaxError_factor_inesperado (mkToken k (String c ""))).
Proof.
  intros Hb Hc.
  apply (parse_text_first _ _ (_tokenize s)).
  - rewrite (tokenize_blanks_first b _ Hb). apply tokenize_operator.
    simpl in Hc |- *. intuition.
  - simpl in Hc. destruct Hc as [Hc | [Hc | [Hc | [Hc | [Hc | []]]]]];
      injection Hc as _ <-; exact I.
Qed.

Lemma leading_operator_is_rejected_witness :
  parse_text " -3" = Raise (SyntaxError_factor_inesperado (mkToken MINUS "-")).
Proof.
  apply (leading_operator_is_rejected " " "-" MINUS "3"); [reflexivity | ].
  right. left. reflexivity.
Defined.

(** X8. Parentheses around a text that parses leave its tree as it is:
    a pair of parentheses makes no node. *)
Theorem parentheses_keep_tree (s : string) (n : ASTNode) :
  parse_text s = Return n -> parse_text ("(" ++ s ++ ")") = Return n.
Proof. apply parse_text_parens. Qed.

Lemma parentheses_keep_tree_witness :
  parse_text ("(" ++ "1 + x" ++ ")") = parse_text "1 + x".
Proof.
  transitivity (Return (A := ASTNode)
                  (BinOpNode "+" (NumberNode "1" (VInt 1)) (IdNode "x" VNone) VNone)).
  - apply (parentheses_keep_tree "1 + x"). vm_compute. reflexivity.
  - vm_compute. reflexivity.
Defined.

(** X9. Two texts that parse, each between parentheses, with one of the
    four operators between them, parse to the node of that operator
    over the trees of the two texts, the tree of the first on the
    left. *)
Theorem operator_joins_parenthesised_texts
    (s1 s2 : string) (n1 n2 : ASTNode) (c : ascii) (k : token_type) :
  In (c, k) [("+"%char, PLUS); ("-"%char, MINUS); ("*"%char, MUL); ("/"%char, DIV)] ->
  parse_text s1 = Return n1 -> parse_text s2 = Return n2 ->
  parse_text ("(" ++ s1 ++ ")" ++ String c "" ++ "(" ++ s2 ++ ")") =
  Return (BinOpNode (String c "") n1 n2 VNone).
Proof. apply parse_text_operator. Qed.

Lemma operator_joins_parenthesised_texts_witness :
  parse_text ("(" ++ "1+2" ++ ")" ++ "*" ++ "(" ++ "x" ++ ")") =
  Return (BinOpNode "*"
            (BinOpNode "+" (NumberNode "1" (VInt 1)) (NumberNode "2" (VInt 2)) VNone)
            (IdNode "x" VNone) VNone).
Proof.
  apply (operator_joins_parenthesised_texts "1+2" "x" _ _ "*" MUL).
  - right. right. left. reflexivity.
  - vm_compute. reflexivity.
  - vm_compute. reflexivity.
Defined.

(** ** Evaluator *)

(** X10. After a pass that returns, the tree is decorated throughout:
    the slot of the root holds the value returned, and the slot of
    every node holds the value that [eval] returns on the subtree of
    that node. *)
Theorem slots_hold_subtree_values (ev : Evaluator) (node : ASTNode) (v : value) :
  outcome (eval ev node) = Return v ->
  val (node_after (eval ev node)) = v /\
  forall q m, subtree q node = Some m ->
    exists u, outcome (eval ev m) = Return u /\
              val_at q (node_after (eval ev node)) = Some u.
Proof.
  intros H. split; [apply eval_root_slot, H | ].
  intros q m Hq. eapply eval_subtree_value; eassumption.
Qed.

Lemma slots_hold_subtree_values_witness :
  let ev := mkEvaluator (add SymbolTable_init "x" "number" (VInt 5)) in
  let node := BinOpNode "+" (NumberNode "3" (VInt 3))
                (BinOpNode "*" (IdNode "x" VNone) (NumberNode "2" (VInt 2)) VNone) VNone in
  val (node_after (eval ev node)) = VInt 13 /\
  val_at [Right] (node_after (eval ev node)) = Some (VInt 10).
Proof.
  intros ev node.
  destruct (slots_hold_subtree_values ev node (VInt 13)) as (Hroot & Hsub).
  - vm_compute. reflexivity.
  - split; [exact Hroot | ].
    destruct (Hsub [Right] _ eq_refl) as (u & Hu & Hq).
    rewrite Hq. f_equal. vm_compute in Hu. congruence.
Defined.

(** X11. A [NameError] names the first identifier of the tree, in the
    order of the text, that the table does not bind: every identifier
    before it is bound, and it is not. *)
Theorem name_error_names_first_unbound (ev : Evaluator) (node : ASTNode) (x : string) :
  outcome (eval ev node) = Raise (NameError x) ->
  exists pre post,
    identifiers node = (pre ++ x :: post)%list /\
    (forall y, In y pre -> exists sym, get (symtab ev) y = Some sym) /\
    get (symtab ev) x = None.
Proof. apply eval_NameError_first. Qed.

Lemma name_error_names_first_unbound_witness :
  let ev := mkEvaluator (add SymbolTable_init "a" "number" (VInt 1)) in
  let node := BinOpNode "+" (BinOpNode "*" (IdNode "a" VNone) (IdNode "b" VNone) VNone)
                (IdNode "c" VNone) VNone in
  get (symtab ev) "b" = None.
Proof.
  intros ev node.
  destruct (name_error_names_first_unbound ev node "b") as (pre & post & _ & _ & H).
  - vm_compute. reflexivity.
  - exact H.
Defined.

(** X12. The value a pass returns is a [float] exactly when a [float]
    enters the computation: at a number node whose value is a [float]
    (a literal with a decimal point), at an identifier bound to a
    [float], or at a division. When none enters, the value is an [int]
    provided the tree is as the parser builds it and no value of the
    table is [None]; an identifier bound to [None] evaluates to
    [None], which is neither. *)
Theorem float_result_iff_float_enters (ev : Evaluator) (node : ASTNode) (v : value) :
  outcome (eval ev node) = Return v ->
  is_float v = has_float (symtab ev) node /\
  (as_constructed node -> numeric (symtab ev) ->
   has_float (symtab ev) node = false -> exists z, v = VInt z) /\
  (let ev0 := mkEvaluator (add SymbolTable_init "x" "number" VNone) in
   outcome (eval ev0 (IdNode "x" VNone)) = Return VNone /\
   has_float (symtab ev0) (IdNode "x" VNone) = false).
Proof.
  intros H. pose proof (eval_return_type node ev v H) as Hf.
  split; [exact Hf | split].
  - intros Hc Hn Hnf. pose proof (eval_return_not_none node Hc ev v Hn H) as Hv.
    rewrite Hnf in Hf. destruct v as [ | z | f]; [contradiction | eauto | discriminate].
  - split; vm_compute; reflexivity.
Qed.

Lemma float_result_iff_float_enters_witness :
  is_float (VFloat (S754_finite false 4503599627370496 (-51))) =
    has_float SymbolTable_init
      (BinOpNode "/" (NumberNode "4" (VInt 4)) (NumberNode "2" (VInt 2)) VNone) /\
  (exists z, VInt 12 = VInt z).
Proof.
  split.
  - apply (float_result_iff_float_enters (mkEvaluator SymbolTable_init)
             (BinOpNode "/" (NumberNode "4" (VInt 4)) (NumberNode "2" (VInt 2)) VNone)).
    vm_compute. reflexivity.
  - refine (proj1 (proj2 (float_result_iff_float_enters (mkEvaluator SymbolTable_init)
             (BinOpNode "*" (NumberNode "3" (VInt 3)) (NumberNode "4" (VInt 4)) VNone)
             (VInt 12) _)) _ _ _).
    + vm_compute. reflexivity.
    + simpl. repeat split; vm_compute; reflexivity.
    + exact numeric_init.
    + vm_compute. reflexivity.
Defined.

(** X13. What earlier passes left in the slots is not read: on a tree
    decorated by a pass with any table, returned or failed, a pass has
    the outcome and makes the writes it has on the tree as it was, and
    when it returns it leaves the same tree. *)
Theorem earlier_slots_are_not_read (ev1 ev2 : Evaluator) (node : ASTNode) :
  let decorated := node_after (eval ev1 node) in
  outcome (eval ev2 decorated) = outcome (eval ev2 node) /\
  writes (eval ev2 decorated) = writes (eval ev2 node) /\
  (forall v, outcome (eval ev2 node) = Return v ->
     node_after (eval ev2 decorated) = node_after (eval ev2 node)).
Proof.
  intros decorated. subst decorated.
  destruct (eval_blank (node_after (eval ev1 node)) ev2) as (O1 & W1 & N1).
  destruct (eval_blank node ev2) as (O2 & W2 & N2).
  rewrite blank_eval in O1, W1, N1.
  assert (O : outcome (eval ev2 (node_after (eval ev1 node))) = outcome (eval ev2 node))
    by congruence.
  split; [exact O | ]. split; [congruence | ].
  intros v Hv. rewrite <- (N1 v) by congruence.
  apply (N2 v), Hv.
Qed.

Lemma earlier_slots_are_not_read_witness :
  let ev1 := mkEvaluator (add SymbolTable_init "x" "number" (VInt 5)) in
  let ev2 := mkEvaluator (add SymbolTable_init "x" "number" (VInt 7)) in
  let node := BinOpNode "+" (IdNode "x" VNone) (NumberNode "1" (VInt 1)) VNone in
  outcome (eval ev2 (node_after (eval ev1 node))) = Return (VInt 8).
Proof.
  intros ev1 ev2 node.
  rewrite (proj1 (earlier_slots_are_not_read ev1 ev2 node)). vm_compute. reflexivity.
Defined.

(** X14. The recursion limit of the interpreter aside, which is not
    modelled: with a table none of whose values is [None], lexing,
    parsing and evaluating one example ends in one of six ways. Parsing
    fails with a [SyntaxError] of the lexer or the parser, or with the
    [ValueError] of [int] on an integer literal of more than 4300
    digits; or the text parses and the pass returns a value that is not
    [None], or raises the [NameError] of an unbound identifier, the
    [ZeroDivisionError] of the evaluator's own test, or an
    [OverflowError] of the arithmetic. The unknown-operator
    [ValueError], a [TypeError] and the [ZeroDivisionError] of Python's
    own [/] do not occur. *)
Theorem run_example_outcomes (expr_text : string) (st : SymbolTable) :
  numeric st ->
  (exists e, run_example expr_text st = Raise e /\ class_of e = SyntaxError) \/
  (exists d, run_example expr_text st = Raise (ValueError_int_digits d) /\
             (int_max_str_digits < d)%nat) \/
  (exists pass, run_example expr_text st = Return pass /\
     ((exists v, outcome pass = Return v /\ v <> VNone) \/
      (exists x, outcome pass = Raise (NameError x) /\ get st x = None) \/
      outcome pass = Raise ZeroDivisionError_detectada \/
      outcome pass = Raise OverflowError)).
Proof.
  intros Hst. unfold run_example.
  destruct (parse_text_outcomes expr_text)
    as [(n & Hn) | (e & He & [Hc | (d & -> & Hd)])]; rewrite ?Hn, ?He;
    cbn [bind]; [right; right | left; eauto | right; left; eauto].
  eexists. split; [reflexivity | ].
  pose proof (parse_text_constructs _ _ Hn) as Hcon.
  destruct (parse_text_reads _ _ Hn) as (toks & _ & _ & _ & _ & Hk).
  destruct (eval_outcomes n Hcon Hk (mkEvaluator st)) as (Hret & Hraise).
  assert (Hnone : ~ exists x sym, In x (identifiers n) /\
                    get st x = Some sym /\ valor sym = VNone).
  { intros (x & sym & _ & Hx & Hv). exact (Hst _ _ Hx Hv). }
  destruct (outcome (eval (mkEvaluator st) n)) as [v | e | ] eqn:E.
  - left. exists v. split; [reflexivity | ]. intros ->. apply Hnone, Hret. reflexivity.
  - destruct (Hraise e eq_refl) as [(x & ->) | [-> | [-> | (_ & Hb)]]]; auto.
    + right; left. exists x. split; [reflexivity | ].
      apply (eval_NameError n (mkEvaluator st) x E).
    + destruct (Hnone Hb).
  - destruct (eval_not_fuel n _ E).
Qed.

Lemma run_example_outcomes_witness :
  exists pass, run_example "7 / (2 - 2)" SymbolTable_init = Return pass /\
               outcome pass = Raise ZeroDivisionError_detectada.
Proof.
  destruct (run_example_outcomes "7 / (2 - 2)" SymbolTable_init numeric_init)
    as [(e & He & _) | [(d & He & _) | (pass & Hp & _)]].
  - vm_compute in He. discriminate.
  - vm_compute in He. discriminate.
  - exists pass. split; [exact Hp | ].
    vm_compute in Hp. injection Hp as <-. reflexivity.
Defined.

(** X15. Integer expressions cannot fail in the arithmetic: when no
    [float] enters the tree of a text (no literal with a decimal point,
    no identifier bound to a [float], no division) and no value of the
    table is [None], the pass returns an [int] or raises the
    [NameError] of an unbound identifier. *)
Theorem integer_expressions_never_overflow
    (expr_text : string) (st : SymbolTable) (n : ASTNode) :
  parse_text expr_text = Return n -> numeric st -> has_float st n = false ->
  (exists z, outcome (eval (mkEvaluator st) n) = Return (VInt z)) \/
  (exists x, outcome (eval (mkEvaluator st) n) = Raise (NameError x)).
Proof.
  intros Hn Hst Hf.
  destruct (parse_text_reads _ _ Hn) as (toks & _ & _ & _ & _ & Hk).
  apply eval_int; auto. eapply parse_text_constructs, Hn.
Qed.

Lemma integer_expressions_never_overflow_witness :
  exists n, parse_text "99999999999999999999 * 99999999999999999999 - 1" = Return n /\
    ((exists z, outcome (eval (mkEvaluator SymbolTable_init) n) = Return (VInt z)) \/
     (exists x, outcome (eval (mkEvaluator SymbolTable_init) n) = Raise (NameError x))).
Proof.
  eexists. split; [vm_compute; reflexivity | ].
  apply (integer_expressions_never_overflow
           "99999999999999999999 * 99999999999999999999 - 1" SymbolTable_init).
  - vm_compute. reflexivity.
  - exact numeric_init.
  - vm_compute. reflexivity.
Defined.

(** X16. Evaluation goes along with putting texts together: when two
    texts evaluate to values in a table, the two texts between
    parentheses with one of the four operators between them evaluate,
    in that table, to what the operator gives on the two values, be it
    a value or an exception. *)
Theorem value_of_joined_texts (s1 s2 : string) (st : SymbolTable) (p1 p2 : Pass)
    (v1 v2 : value) (c : ascii) (k : token_type) :
  In (c, k) [("+"%char, PLUS); ("-"%char, MINUS); ("*"%char, MUL); ("/"%char, DIV)] ->
  run_example s1 st = Return p1 -> outcome p1 = Return v1 ->
  run_example s2 st = Return p2 -> outcome p2 = Return v2 ->
  exists p,
    run_example ("(" ++ s1 ++ ")" ++ String c "" ++ "(" ++ s2 ++ ")") st = Return p /\
    outcome p = apply_op (String c "") v1 v2.
Proof.
  unfold run_example. intros Hc H1 O1 H2 O2.
  destruct (parse_text s1) as [n1 | | ] eqn:E1; cbn [bind] in H1; try discriminate.
  destruct (parse_text s2) as [n2 | | ] eqn:E2; cbn [bind] in H2; try discriminate.
  injection H1 as <-. injection H2 as <-.
  rewrite (parse_text_operator s1 s2 n1 n2 c k Hc E1 E2). cbn [bind].
  eexists. split; [reflexivity | ].
  cbn [eval]. rewrite O1, eval_self_after, O2.
  destruct (apply_op (String c "") v1 v2); reflexivity.
Qed.

Lemma value_of_joined_texts_witness :
  exists p,
    run_example ("(" ++ "x + 1" ++ ")" ++ "*" ++ "(" ++ "3" ++ ")")
      (add SymbolTable_init "x" "number" (VInt 4)) = Return p /\
    outcome p = Return (VInt 15).
Proof.
  set (st := add SymbolTable_init "x" "number" (VInt 4)).
  destruct (value_of_joined_texts "x + 1" "3" st
              (eval (mkEvaluator st)
                 (BinOpNode "+" (IdNode "x" VNone) (NumberNode "1" (VInt 1)) VNone))
              (eval (mkEvaluator st) (NumberNode "3" (VInt 3)))
              (VInt 5) (VInt 3) "*" MUL) as (p & Hp & Ho).
  - right. right. left. reflexivity.
  - vm_compute. reflexivity.
  - vm_compute. reflexivity.
  - vm_compute. reflexivity.
  - vm_compute. reflexivity.
  - exists p. split; [exact Hp | ]. rewrite Ho. reflexivity.
Defined.

(** ** Symbol table *)

(** X17. Filling a table, the last binding of a name wins: after the
    bindings have been added in order, a name is bound to the symbol of
    its last binding, and a name that is given no binding is as it was
    in the table before. *)
Theorem fill_last_write_wins (st : SymbolTable) (symbols : list (string * value))
    (x : string) :
  (~ In x (map fst symbols) -> get (fill st symbols) x = get st x) /\
  (forall pre v post, symbols = (pre ++ (x, v) :: post)%list ->
     ~ In x (map fst post) ->
     get (fill st symbols) x = Some (mkSymbol x "number" v)).
Proof.
  split; [apply fill_other | ].
  intros pre v post -> Hx. apply fill_last, Hx.
Qed.

Lemma fill_last_write_wins_witness :
  get (fill SymbolTable_init [("x", VInt 1); ("y", VInt 2); ("x", VInt 3)]) "x"
    = Some (mkSymbol "x" "number" (VInt 3)) /\
  get (fill SymbolTable_init [("x", VInt 1); ("y", VInt 2); ("x", VInt 3)]) "z" = None.
Proof.
  split.
  - apply (proj2 (fill_last_write_wins SymbolTable_init
                    [("x", VInt 1); ("y", VInt 2); ("x", VInt 3)] "x")
             [("x", VInt 1); ("y", VInt 2)] (VInt 3) []); [reflexivity | ].
    intros [].
  - rewrite (proj1 (fill_last_write_wins SymbolTable_init
                      [("x", VInt 1); ("y", VInt 2); ("x", VInt 3)] "z")).
    + reflexivity.
    + simpl. intros [H | [H | [H | []]]]; discriminate.
Defined.

(** X18. A filled table holds nothing but its bindings: a symbol found
    under a name in a table filled from the empty one carries that
    name, the type ["number"] and a value bound to the name. *)
Theorem filled_table_holds_its_bindings (symbols : list (string * value))
    (x : string) (sym : Symbol) :
  get (fill SymbolTable_init symbols) x = Some sym ->
  name sym = x /\ tipo sym = "number" /\ In (x, valor sym) symbols.
Proof.
  intros H. destruct (fill_get _ _ _ _ H) as [H' | (Hs & Hin)].
  - unfold get, SymbolTable_init in H'. cbn [table] in H'.
    rewrite lookup_empty in H'. discriminate.
  - rewrite Hs. cbn [name tipo valor]. auto.
Qed.

Lemma filled_table_holds_its_bindings_witness :
  In ("a", VInt 20) [("a", VInt 20); ("b", VInt 4)].
Proof.
  apply (filled_table_holds_its_bindings [("a", VInt 20); ("b", VInt 4)] "a"
           (mkSymbol "a" "number" (VInt 20))).
  vm_compute. reflexivity.
Defined.
